(** * Entity reconciliation and restoration of [AnonymizerService]

    A shallow embedding of [src/src/anonymizer.service.ts]:
    [buildEntityMapping], [findBestMatch], [deanonymizeText] and the control
    flow of [anonymizeText], together with the JavaScript built-ins they rely
    on ([Map] with insertion order, the stable [Array.prototype.sort],
    [String.prototype.substring], [includes], [startsWith] and
    [String.prototype.replace] with a global regular expression).

    Strings are sequences of code units, written with [string]; offsets and
    lengths are integers in [Z]; detection scores are rationals.  The two
    remote services are parameters: a call is fulfilled with a response or
    rejected. *)

From Stdlib Require Import ZArith QArith Lqa List String Ascii Bool Lia.
From Stdlib Require Import Numbers.DecimalString Numbers.DecimalZ
  Numbers.DecimalPos.
From Stdlib Require Import Sorting.Sorted Sorting.Permutation.
Import ListNotations.

Open Scope string_scope.
Open Scope Z_scope.

(** ** JavaScript built-ins *)

Module JS.

(** *** Strings *)

(** [String(n)] for an integral number. *)
Definition string_of_Z (z : Z) : string := NilZero.string_of_int (Z.to_int z).

Definition clamp (lo hi z : Z) : Z := Z.min (Z.max z lo) hi.

(** [s.substring(start, end)]: both indices are clamped to [0, s.length]
    and swapped when [start > end]. *)
Definition substring (s : string) (start end_ : Z) : string :=
  let len := Z.of_nat (String.length s) in
  let intStart := clamp 0 len start in
  let intEnd := clamp 0 len end_ in
  let from := Z.min intStart intEnd in
  let to := Z.max intStart intEnd in
  String.substring (Z.to_nat from) (Z.to_nat (to - from)) s.

(** [s.startsWith(p)]. *)
Definition startsWith (s p : string) : bool := String.prefix p s.

(** [s.includes(needle)]. *)
Fixpoint includes (s needle : string) : bool :=
  String.prefix needle s
  || match s with
     | EmptyString => false
     | String _ s' => includes s' needle
     end.

(** [s.slice(n)] for [0 <= n]. *)
Fixpoint drop (n : nat) (s : string) : string :=
  match n, s with
  | O, _ => s
  | S n', String _ s' => drop n' s'
  | S _, EmptyString => EmptyString
  end.

(** *** [Array.prototype.sort]

    The sort is stable and observes only the sign of the comparator's
    value: [x] is placed before [y] when [cmp x y <= 0] and [x] came first. *)
Section Sort.
Context {A : Type} (cmp : A -> A -> Z).

Fixpoint insert (x : A) (l : list A) : list A :=
    match l with
    | [] => [x]
    | y :: l' => if cmp x y <=? 0 then x :: y :: l' else y :: insert x l'
    end.

Fixpoint sort (l : list A) : list A :=
    match l with
    | [] => []
    | x :: l' => insert x (sort l')
    end.
End Sort.

(** *** [Map<string, V>]: an association list in insertion order *)
Section MapOps.
Context {V : Type}.

Definition map := list (string * V).

Fixpoint get (k : string) (m : map) : option V :=
    match m with
    | [] => None
    | (k', v) :: m' => if String.eqb k k' then Some v else get k m'
    end.

Definition has (k : string) (m : map) : bool :=
    match get k m with Some _ => true | None => false end.

  (** [m.set(k, v)]: an existing key keeps its position. *)
Fixpoint set (k : string) (v : V) (m : map) : map :=
    match m with
    | [] => [(k, v)]
    | (k', v') :: m' =>
        if String.eqb k k' then (k', v) :: m' else (k', v') :: set k v m'
    end.

Definition delete (k : string) (m : map) : map :=
    filter (fun kv => negb (String.eqb k (fst kv))) m.

Definition keys (m : map) : list string := List.map fst m.
Definition values (m : map) : list V := List.map snd m.
Definition size (m : map) : nat := List.length m.
End MapOps.
Arguments map : clear implicits.

(** *** [String.prototype.replace] with [new RegExp(source, 'g')] *)

(** The syntax characters of the class [[.*+?^${}()|[\]\\]]. *)
Definition is_syntax_char (c : ascii) : bool :=
  existsb (Ascii.eqb c)
    ["."; "*"; "+"; "?"; "^"; "$"; "{"; "}"; "("; ")"; "|"; "["; "]"; "\"]%char.

(** [s.replace(/[.*+?^${}()|[\]\\]/g, '\\$&')]: every syntax character is
    replaced by a backslash followed by itself. *)
Fixpoint escapeRegExp (s : string) : string :=
  match s with
  | EmptyString => EmptyString
  | String c s' =>
      if is_syntax_char c then String "\" (String c (escapeRegExp s'))
      else String c (escapeRegExp s')
  end.

(** The part of the pattern grammar that escaped sources fall into: a
    sequence of plain characters and identity escapes of syntax characters.
    The result is the literal string such a pattern matches; a source
    outside this fragment is not given a meaning. *)
Fixpoint literal_pattern (source : string) : option string :=
  match source with
  | EmptyString => Some EmptyString
  | String c rest =>
      if Ascii.eqb c "\" then
        match rest with
        | String d rest' =>
            if is_syntax_char d
            then option_map (String d) (literal_pattern rest')
            else None
        | EmptyString => None
        end
      else if is_syntax_char c then None
      else option_map (String c) (literal_pattern rest)
  end.

(** [GetSubstitution] for a match without capture groups: [$$] is a dollar
    sign, [$&] the matched text, [$`] the text before the match and [$'] the
    text after it; any other character, a [$] followed by anything else
    included, stands for itself. *)
Fixpoint getSubstitution (matched before after replacement : string) : string :=
  match replacement with
  | EmptyString => EmptyString
  | String c rest =>
      if Ascii.eqb c "$" then
        match rest with
        | String d rest' =>
            if Ascii.eqb d "$" then
              String "$" (getSubstitution matched before after rest')
            else if Ascii.eqb d "&" then
              matched ++ getSubstitution matched before after rest'
            else if Ascii.eqb d "`" then
              before ++ getSubstitution matched before after rest'
            else if Ascii.eqb d "'" then
              after ++ getSubstitution matched before after rest'
            else String "$" (getSubstitution matched before after rest)
        | EmptyString => String "$" EmptyString
        end
      else String c (getSubstitution matched before after rest)
  end.

(** The scan of a global replace for a non-empty literal pattern:
    [before] is the input already passed, [skip] counts the characters of
    the current match that are still to be stepped over. *)
Fixpoint replace_scan (pat replacement before : string) (skip : nat)
    (s : string) : string :=
  match s with
  | EmptyString => EmptyString
  | String c s' =>
      let before' := before ++ String c EmptyString in
      match skip with
      | S k => replace_scan pat replacement before' k s'
      | O =>
          if String.prefix pat s then
            getSubstitution pat before (drop (String.length pat) s) replacement
            ++ replace_scan pat replacement before'
                 (Nat.pred (String.length pat)) s'
          else String c (replace_scan pat replacement before' O s')
      end
  end.

(** The empty pattern matches once at every index, the end included. *)
Fixpoint replace_empty (replacement before s : string) : string :=
  getSubstitution EmptyString before s replacement
  ++ match s with
     | EmptyString => EmptyString
     | String c s' =>
         String c (replace_empty replacement (before ++ String c EmptyString) s')
     end.

(** [s.replace(new RegExp(source, 'g'), replacement)] for a source of the
    literal fragment. *)
Definition replace_regexp (source replacement s : string) : string :=
  match literal_pattern source with
  | Some EmptyString => replace_empty replacement EmptyString s
  | Some pat => replace_scan pat replacement EmptyString O s
  | None => s
  end.

End JS.

(** ** Data model *)

(** [SensitiveEntity]. *)
Record SensitiveEntity := mkEntity {
  original : string;
  anonymized : string;
  entityType : string;
  start : Z;
  end_ : Z
}.

(** One element of the analyzer's response. *)
Record AnalyzerResult := mkAnalyzerResult {
  ar_entity_type : string;
  ar_start : Z;
  ar_end : Z;
  ar_score : Q
}.

(** One element of [items] in the anonymizer's response; [text] may be
    missing. *)
Record AnonymizerItem := mkItem {
  item_entity_type : string;
  item_text : option string
}.

(** The body of the anonymizer's response; [items] may be missing. *)
Record AnonymizerData := mkData {
  data_text : string;
  data_items : option (list AnonymizerItem)
}.

Definition EntityMap := JS.map SensitiveEntity.

(** [a || b] on an optional string: a missing or empty [a] is falsy. *)
Definition or_else (a : option string) (b : string) : string :=
  match a with
  | Some EmptyString | None => b
  | Some s => s
  end.

Definition strlen (s : string) : Z := Z.of_nat (String.length s).

(** ** The anonymizer configuration *)

Inductive Operator :=
| Replace (new_value : string)
| Mask (masking_char : string) (chars_to_mask : Z) (from_end : bool)
| Hash (hash_type : string).

Definition AnonymizersConfig := list (string * Operator).

Definition buildAnonymizersConfig : AnonymizersConfig :=
  [ ("PHONE_NUMBER", Replace "[PHONE]");
    ("NAME", Replace "[PERSON]");
    ("PERSON", Replace "[PERSON]");
    ("EMAIL_ADDRESS", Mask "*" 5 false);
    ("LOCATION", Replace "[LOCATION]");
    ("ORGANIZATION", Replace "[ORGANIZATION]");
    ("US_SSN", Mask "#" 5 true);
    ("US_DRIVER_LICENSE", Mask "#" 4 true);
    ("CREDIT_CARD", Mask "*" 12 true);
    ("DATE_TIME", Replace "[DATE_TIME]");
    ("NRP", Replace "[NRP]");
    ("US_BANK_ACCOUNT", Mask "#" 8 true);
    ("US_ITIN", Mask "#" 5 true);
    ("US_PASSPORT", Mask "#" 5 true);
    ("UK_NHS", Mask "#" 6 true);
    ("IP_ADDRESS", Mask "0" 6 true);
    ("IBAN_CODE", Mask "#" 10 true);
    ("CRYPTO", Mask "*" 10 true);
    ("URL", Replace "[URL]");
    ("MEDICAL_LICENSE", Mask "#" 5 true);
    ("MEDICAL_RECORD", Mask "#" 5 true);
    ("AGE", Replace "[AGE]");
    ("ADDRESS", Replace "[ADDRESS]");
    ("DEFAULT", Hash "sha256") ].

(** ** [buildEntityMapping] *)

(** The key [`${entityType}-${start}-${end}`]. *)
Definition entity_key (entityType : string) (start end_ : Z) : string :=
  entityType ++ "-" ++ JS.string_of_Z start ++ "-" ++ JS.string_of_Z end_.

(** Group analyzer results by entity type. *)
Definition group_by_type (analyzerResults : list AnalyzerResult)
  : JS.map (list AnalyzerResult) :=
  fold_left
    (fun entityMap result =>
       let entityType := ar_entity_type result in
       let entities :=
         match JS.get entityType entityMap with
         | Some l => l
         | None => []
         end in
       JS.set entityType (entities ++ [result])%list entityMap)
    analyzerResults [].

(** The comparator of the per-type sort: longer spans first, then higher
    scores.  Only the sign of the score difference is kept. *)
Definition compare_spans (a b : AnalyzerResult) : Z :=
  let aLength := ar_end a - ar_start a in
  let bLength := ar_end b - ar_start b in
  if negb (aLength =? bLength) then bLength - aLength
  else Z.sgn (Qnum (ar_score b - ar_score a)).

(** Sort each group and keep the first entity seen at each position. *)
Definition process_entities (entityMap : JS.map (list AnalyzerResult))
  : JS.map AnalyzerResult :=
  fold_left
    (fun processedEntities group =>
       let entityType := fst group in
       fold_left
         (fun processedEntities entity =>
            let key := entity_key entityType (ar_start entity) (ar_end entity) in
            if negb (JS.has key processedEntities)
            then JS.set key entity processedEntities
            else processedEntities)
         (JS.sort compare_spans (snd group)) processedEntities)
    entityMap [].

(** The [switch] over the entity type of an anonymizer item. *)
Definition placeholder_of_item (result : AnonymizerItem) : string :=
  let entityType := item_entity_type result in
  if String.eqb entityType "PERSON" then "[PERSON]"
  else if String.eqb entityType "PHONE_NUMBER" then "[PHONE]"
  else if String.eqb entityType "DATE_TIME" then "[DATE_TIME]"
  else if String.eqb entityType "ORGANIZATION" then "[ORGANIZATION]"
  else if String.eqb entityType "LOCATION" then "[LOCATION]"
  else or_else (item_text result) ("[" ++ entityType ++ "]").

(** Process anonymizer results. *)
Definition anonymized_entities (anonymizerResults : list AnonymizerItem)
  : JS.map string :=
  fold_left
    (fun anonymizedEntities result =>
       JS.set (item_entity_type result) (placeholder_of_item result)
         anonymizedEntities)
    anonymizerResults [].

(** [anonymizedEntities.get(entityType) || `[${entityType}]`]. *)
Definition anonymized_value (anonymizedEntities : JS.map string)
    (entityType : string) : string :=
  or_else (JS.get entityType anonymizedEntities) ("[" ++ entityType ++ "]").

(** One iteration of the loop that fills [this.entityMap]. *)
Definition add_entity (originalText : string)
    (anonymizedEntities : JS.map string) (table : EntityMap)
    (entity : AnalyzerResult) : EntityMap :=
  let entityType := ar_entity_type entity in
  let start := ar_start entity in
  let end_ := ar_end entity in
  let originalValue := JS.substring originalText start end_ in
  let anonymizedValue := anonymized_value anonymizedEntities entityType in
  if String.eqb entityType "PERSON" && (strlen originalValue <? 3) then table
  else
    let key := entity_key entityType start end_ in
    JS.set key (mkEntity originalValue anonymizedValue entityType start end_)
      table.

(** The comparators of [findBestMatch]. *)
Definition compare_phone (a b : SensitiveEntity) : Z :=
  let aHasPlus := JS.includes (original a) "+" in
  let bHasPlus := JS.includes (original b) "+" in
  if negb (Bool.eqb aHasPlus bHasPlus) then (if bHasPlus then 1 else -1)
  else strlen (original b) - strlen (original a).

Definition compare_person (a b : SensitiveEntity) : Z :=
  let aHasSpace := JS.includes (original a) " " in
  let bHasSpace := JS.includes (original b) " " in
  if negb (Bool.eqb aHasSpace bHasSpace) then (if bHasSpace then 1 else -1)
  else strlen (original b) - strlen (original a).

(** [keys.forEach(key => this.entityMap.delete(key))]. *)
Definition delete_all (keys : list string) (table : EntityMap) : EntityMap :=
  fold_left (fun m key => JS.delete key m) keys table.

(** Delete every key that starts with [`${entityType}-`]. *)
Definition clear_type (entityType : string) (table : EntityMap) : EntityMap :=
  delete_all
    (filter (fun key => JS.startsWith key (entityType ++ "-")) (JS.keys table))
    table.

(** The body shared by the two branches of [findBestMatch]: sort the
    entities in place, drop every key of the type and put [entities[0]]
    back under [`${entityType}-best`].  The array has at least two elements
    here, so the first one exists. *)
Definition keep_best (cmp : SensitiveEntity -> SensitiveEntity -> Z)
    (entityType : string) (entities : list SensitiveEntity)
    (table : EntityMap) : list SensitiveEntity * EntityMap :=
  let sorted := JS.sort cmp entities in
  match sorted with
  | bestMatch :: _ =>
      (sorted,
       JS.set (entityType ++ "-best")
         (mkEntity (original bestMatch) (anonymized bestMatch) entityType
            (start bestMatch) (end_ bestMatch))
         (clear_type entityType table))
  | [] => (sorted, table)
  end.

(** The filter [e => e.entityType === entityType]. *)
Definition is_of_type (type : string) (e : SensitiveEntity) : bool :=
  String.eqb (entityType e) type.

Definition findBestMatch (originalText entityType : string)
    (table : EntityMap) : EntityMap :=
  let entities := filter (is_of_type entityType) (JS.values table) in
  if (List.length entities <=? 1)%nat then table
  else
    let '(entities, table) :=
      if String.eqb entityType "PHONE_NUMBER"
      then keep_best compare_phone entityType entities table
      else (entities, table) in
    if String.eqb entityType "PERSON"
    then snd (keep_best compare_person entityType entities table)
    else table.

(** The loop over [processedEntities.values()]. *)
Definition fill_entity_map (originalText : string)
    (anonymizedEntities : JS.map string)
    (processedEntities : JS.map AnalyzerResult) (table : EntityMap)
  : EntityMap :=
  fold_left (add_entity originalText anonymizedEntities)
    (JS.values processedEntities) table.

Definition buildEntityMapping (originalText : string)
    (anonymizerResults : list AnonymizerItem)
    (analyzerResults : list AnalyzerResult) (table : EntityMap) : EntityMap :=
  match anonymizerResults with
  | [] => table
  | _ =>
      let entityMap := group_by_type analyzerResults in
      let processedEntities := process_entities entityMap in
      let anonymizedEntities := anonymized_entities anonymizerResults in
      let table :=
        fill_entity_map originalText anonymizedEntities processedEntities
          table in
      let table := findBestMatch originalText "PHONE_NUMBER" table in
      findBestMatch originalText "PERSON" table
  end.

(** ** [deanonymizeText] *)

Definition compare_anonymized (a b : SensitiveEntity) : Z :=
  strlen (anonymized b) - strlen (anonymized a).

Definition restore_entity (result : string) (entity : SensitiveEntity)
  : string :=
  let escapedAnonymized := JS.escapeRegExp (anonymized entity) in
  JS.replace_regexp escapedAnonymized (original entity) result.

Definition deanonymizeText (table : EntityMap) (anonymizedText : string)
  : string :=
  if (JS.size table =? 0)%nat then anonymizedText
  else
    let sortedEntities := JS.sort compare_anonymized (JS.values table) in
    fold_left restore_entity sortedEntities anonymizedText.

(** ** [anonymizeText] *)

(** A computation of the service: it reads and writes [this.entityMap] and
    either returns a value or throws. *)
Inductive Outcome (A : Type) :=
| Return (a : A)
| Throw (message : string).
Arguments Return {A} a.
Arguments Throw {A} message.

Definition M (A : Type) := EntityMap -> EntityMap * Outcome A.

Definition ret {A} (a : A) : M A := fun table => (table, Return a).
Definition throw {A} (message : string) : M A :=
  fun table => (table, Throw message).
Definition bind {A B} (m : M A) (k : A -> M B) : M B :=
  fun table =>
    match m table with
    | (table', Return a) => k a table'
    | (table', Throw message) => (table', Throw message)
    end.
Definition try_catch {A} (body : M A) (handler : string -> M A) : M A :=
  fun table =>
    match body table with
    | (table', Return a) => (table', Return a)
    | (table', Throw message) => handler message table'
    end.
Definition modify (f : EntityMap -> EntityMap) : M unit :=
  fun table => (f table, Return tt).
Definition entity_map_size : M nat := fun table => (table, Return (JS.size table)).

Notation "x <- m ;; k" := (bind m (fun x => k))
  (at level 61, m at next level, right associativity).
Notation "m ;;; k" := (bind m (fun _ => k))
  (at level 61, right associativity).

(** A promise as seen by [await]: fulfilled with a value or rejected. *)
Inductive Response (A : Type) :=
| Resolved (data : A)
| Rejected (message : string).
Arguments Resolved {A} data.
Arguments Rejected {A} message.

Definition await {A} (r : Response A) : M A :=
  match r with
  | Resolved data => ret data
  | Rejected message => throw message
  end.

(** The collaborators of the service: the configuration and the two remote
    calls, each after its retries.  [post_analyze url text] answers with the
    analyzer's [data], which may be missing; [post_anonymize url text
    anonymizers analyzer_results] with the anonymizer's [data]. *)
Record Collaborators := mkCollaborators {
  config_get : string -> option string;
  post_analyze : string -> string -> Response (option (list AnalyzerResult));
  post_anonymize :
    string -> string -> AnonymizersConfig -> list AnalyzerResult ->
    Response AnonymizerData
}.

Record AnonymizeResult := mkResult {
  anonymizedText : string;
  entitiesFound : bool
}.

Definition analyzeText (env : Collaborators) (text analyzerUrl : string)
  : M (option (list AnalyzerResult)) :=
  let url := analyzerUrl ++ "/analyze" in
  await (post_analyze env url text).

(** The analyzer and anonymizer URLs: the configured ones or the local
    fallbacks, exchanged when they appear to be swapped. *)
Definition resolve_urls (env : Collaborators) : string * string :=
  let analyzerUrl :=
    or_else (config_get env "PRESIDIO_ANALYZER_URL") "http://localhost:5001" in
  let anonymizerUrl :=
    or_else (config_get env "PRESIDIO_ANONYMIZER_URL") "http://localhost:5002" in
  if JS.includes analyzerUrl "5002" && JS.includes anonymizerUrl "5001"
  then (anonymizerUrl, analyzerUrl)
  else (analyzerUrl, anonymizerUrl).

(** [items || []]. *)
Definition items_or_empty (data : AnonymizerData) : list AnonymizerItem :=
  match data_items data with
  | Some items => items
  | None => []
  end.

Definition anonymizeText (env : Collaborators) (text : string)
  : M AnonymizeResult :=
  try_catch
    (modify (fun _ => []) ;;;
     let '(analyzerUrl, anonymizerUrl) := resolve_urls env in
     try_catch
       (analyzerResults <- analyzeText env text analyzerUrl ;;
        match analyzerResults with
        | None | Some [] => ret (mkResult text false)
        | Some analyzerResults =>
            let anonymizers := buildAnonymizersConfig in
            anonymizerResponse <-
              await (post_anonymize env (anonymizerUrl ++ "/anonymize") text
                       anonymizers analyzerResults) ;;
            let anonymizedText := data_text anonymizerResponse in
            let anonymizerResults := items_or_empty anonymizerResponse in
            modify (buildEntityMapping text anonymizerResults analyzerResults) ;;;
            size <- entity_map_size ;;
            ret (mkResult anonymizedText (0 <? size)%nat)
        end)
       (fun _ => ret (mkResult text false)))
    (fun message => throw message).

(** The two requests [anonymizeText] sends. *)
Definition analyze_request (env : Collaborators) (text : string)
  : Response (option (list AnalyzerResult)) :=
  post_analyze env (fst (resolve_urls env) ++ "/analyze") text.

Definition anonymize_request (env : Collaborators) (text : string)
    (analyzerResults : list AnalyzerResult) : Response AnonymizerData :=
  post_anonymize env (snd (resolve_urls env) ++ "/anonymize") text
    buildAnonymizersConfig analyzerResults.

(** ** The other operations of the service *)

(** [getSensitiveEntities]: the values of the entity map, in its order. *)
Definition getSensitiveEntities (table : EntityMap) : list SensitiveEntity :=
  JS.values table.

(** [clearEntityMapping]. *)
Definition clearEntityMapping : M unit := modify (fun _ => []).

(** ** Notions used in the statements *)

(** [x] may stand before [y] in an array sorted with [cmp]. *)
Definition not_after {A : Type} (cmp : A -> A -> Z) (x y : A) : Prop :=
  cmp x y <= 0.

(** The categories the [switch] of [placeholder_of_item] names, with the
    placeholder it assigns to each. *)
Definition static_placeholder (entityType : string) : option string :=
  if String.eqb entityType "PERSON" then Some "[PERSON]"
  else if String.eqb entityType "PHONE_NUMBER" then Some "[PHONE]"
  else if String.eqb entityType "DATE_TIME" then Some "[DATE_TIME]"
  else if String.eqb entityType "ORGANIZATION" then Some "[ORGANIZATION]"
  else if String.eqb entityType "LOCATION" then Some "[LOCATION]"
  else None.

(** The entities of one type, in the order of the map. *)
Definition entities_of_type (type : string) (table : EntityMap)
  : list SensitiveEntity :=
  filter (is_of_type type) (JS.values table).

(** Every key starts with the type of its entity followed by a dash. *)
Definition well_keyed (table : EntityMap) : Prop :=
  forall key e, In (key, e) table ->
    JS.startsWith key (entityType e ++ "-") = true.

(** The entity map of [buildEntityMapping] after its construction loop and
    before the two calls of [findBestMatch], starting from the empty map. *)
Definition before_reduction (originalText : string)
    (anonymizerResults : list AnonymizerItem)
    (analyzerResults : list AnalyzerResult) : EntityMap :=
  fill_entity_map originalText (anonymized_entities anonymizerResults)
    (process_entities (group_by_type analyzerResults)) [].

(** The shape shared by [compare_phone] and [compare_person]: entities
    with the mark first, then longer originals first. *)
Definition compare_preferring (mark : SensitiveEntity -> bool)
    (a b : SensitiveEntity) : Z :=
  if negb (Bool.eqb (mark a) (mark b)) then (if mark b then 1 else -1)
  else strlen (original b) - strlen (original a).

Definition has_plus (e : SensitiveEntity) : bool :=
  JS.includes (original e) "+".

Definition has_leading_plus (e : SensitiveEntity) : bool :=
  JS.startsWith (original e) "+".

Definition has_space (e : SensitiveEntity) : bool :=
  JS.includes (original e) " ".

(** [w] is preferred to [e]: it has the mark when [e] has it, and it is at
    least as long when both or neither have it. *)
Definition preferred (mark : SensitiveEntity -> bool)
    (w e : SensitiveEntity) : Prop :=
  (mark e = true -> mark w = true) /\
  (mark e = mark w -> strlen (original e) <= strlen (original w)).

(** The original text of an entity is the slice of the text at its span,
    a PERSON is never shorter than three characters, and the placeholder is
    never empty. *)
Definition entity_invariant (text : string) (e : SensitiveEntity) : Prop :=
  original e = JS.substring text (start e) (end_ e)
  /\ (entityType e = "PERSON" -> 3 <= strlen (original e))
  /\ anonymized e <> "".

(** Does the map hold an entity of the type at the span? *)
Definition mapped_span (type : string) (s e : Z) (table : EntityMap) : bool :=
  existsb
    (fun entity =>
       String.eqb (entityType entity) type
       && (start entity =? s) && (end_ entity =? e))
    (JS.values table).

(** ** Anonymized texts as sequences of chunks *)

(** The character [c] does not occur in [s]. *)
Fixpoint free_of (c : ascii) (s : string) : bool :=
  match s with
  | EmptyString => true
  | String d s' => negb (Ascii.eqb d c) && free_of c s'
  end.

(** A placeholder of the shape [[BODY]], with no bracket in its body. *)
Definition bracketed (p : string) : Prop :=
  exists body,
    p = String "[" (body ++ "]")
    /\ free_of "[" body = true /\ free_of "]" body = true.

(** A decision procedure for [bracketed]. *)
Fixpoint closes (s : string) : bool :=
  match s with
  | EmptyString => false
  | String c s' =>
      match s' with
      | EmptyString => Ascii.eqb c "]"
      | String _ _ =>
          negb (Ascii.eqb c "[") && negb (Ascii.eqb c "]") && closes s'
      end
  end.

Definition is_bracketed (p : string) : bool :=
  match p with
  | EmptyString => false
  | String c s => Ascii.eqb c "[" && closes s
  end.

(** A text in the course of restoration: stretches of the original text,
    and placeholders that still hold the place of an original value. *)
Inductive chunk :=
| Lit (s : string)
| Held (placeholder originalValue : string).

Fixpoint anonymized_of (chunks : list chunk) : string :=
  match chunks with
  | [] => EmptyString
  | Lit s :: rest => s ++ anonymized_of rest
  | Held placeholder _ :: rest => placeholder ++ anonymized_of rest
  end.

Fixpoint original_of (chunks : list chunk) : string :=
  match chunks with
  | [] => EmptyString
  | Lit s :: rest => s ++ original_of rest
  | Held _ originalValue :: rest => originalValue ++ original_of rest
  end.

(** Put the original value back for every chunk held by [placeholder]. *)
Definition restore_chunk (placeholder : string) (c : chunk) : chunk :=
  match c with
  | Lit s => Lit s
  | Held p o => if String.eqb p placeholder then Lit o else Held p o
  end.

Definition held_placeholders (chunks : list chunk) : list (string * string) :=
  flat_map
    (fun c => match c with Lit _ => [] | Held p o => [(p, o)] end) chunks.

(** [s.slice(0, n)] for [0 <= n]. *)
Fixpoint take (n : nat) (s : string) : string :=
  match n, s with
  | O, _ => EmptyString
  | S n', String c s' => String c (take n' s')
  | S _, EmptyString => EmptyString
  end.

(** ** The anonymizer on literal replacements *)

(** The [new_value] the configuration gives a category of type
    ["replace"]. *)
Definition literal_placeholder (category : string) : option string :=
  match JS.get category buildAnonymizersConfig with
  | Some (Replace new_value) => Some new_value
  | _ => None
  end.

Definition configured_placeholder (category : string) : string :=
  match literal_placeholder category with
  | Some new_value => new_value
  | None => EmptyString
  end.

(** The categories [buildAnonymizersConfig] replaces by a literal. *)
Definition literal_categories : list string :=
  [ "PHONE_NUMBER"; "NAME"; "PERSON"; "LOCATION"; "ORGANIZATION";
    "DATE_TIME"; "NRP"; "URL"; "AGE"; "ADDRESS" ].

(** What the anonymizer is specified to answer for spans listed from left
    to right, each of a category with a literal replacement: the text with
    every span replaced by the placeholder of its category. *)
Fixpoint substitute_spans (text : string) (cursor : Z)
    (spans : list AnalyzerResult) : string :=
  match spans with
  | [] => JS.substring text cursor (strlen text)
  | span :: rest =>
      JS.substring text cursor (ar_start span)
      ++ configured_placeholder (ar_entity_type span)
      ++ substitute_spans text (ar_end span) rest
  end.

(** The spans lie within the text from [cursor] on, from left to right,
    without overlap, and none is empty. *)
Fixpoint spans_ordered (cursor : Z) (spans : list AnalyzerResult) (len : Z)
  : Prop :=
  match spans with
  | [] => cursor <= len
  | span :: rest =>
      cursor <= ar_start span /\ ar_start span < ar_end span
      /\ spans_ordered (ar_end span) rest len
  end.

(** The same text as chunks. *)
Fixpoint chunks_of (text : string) (cursor : Z) (spans : list AnalyzerResult)
  : list chunk :=
  match spans with
  | [] => [Lit (JS.substring text cursor (strlen text))]
  | span :: rest =>
      Lit (JS.substring text cursor (ar_start span))
      :: Held (configured_placeholder (ar_entity_type span))
           (JS.substring text (ar_start span) (ar_end span))
      :: chunks_of text (ar_end span) rest
  end.

(** The entity [buildEntityMapping] records for a span of a category with a
    literal replacement, and its key. *)
Definition entity_of_span (text : string) (span : AnalyzerResult)
  : SensitiveEntity :=
  mkEntity (JS.substring text (ar_start span) (ar_end span))
    (configured_placeholder (ar_entity_type span))
    (ar_entity_type span) (ar_start span) (ar_end span).

Definition key_of_span (span : AnalyzerResult) : string :=
  entity_key (ar_entity_type span) (ar_start span) (ar_end span).

(** A span the restoration can handle: its category is replaced by a
    literal that does not occur in the text, it is not a PERSON shorter
    than three characters, and its original value has no dollar sign. *)
Definition restorable_span (text : string) (span : AnalyzerResult) : bool :=
  let originalValue :=
    JS.substring text (ar_start span) (ar_end span) in
  match literal_placeholder (ar_entity_type span) with
  | Some placeholder => negb (JS.includes text placeholder)
  | None => false
  end
  && negb (String.eqb (ar_entity_type span) "PERSON"
           && (strlen originalValue <? 3))
  && free_of "$" originalValue.

(** The items the anonymizer reports: every detected category has one, and
    each carries the literal configured for its category. *)
Definition item_as_configured (it : AnonymizerItem) : bool :=
  match item_text it, literal_placeholder (item_entity_type it) with
  | Some text, Some new_value => String.eqb text new_value
  | _, _ => false
  end.

Definition items_as_configured (spans : list AnalyzerResult)
    (items : list AnonymizerItem) : bool :=
  forallb
    (fun span =>
       existsb
         (fun it => String.eqb (item_entity_type it) (ar_entity_type span))
         items)
    spans
  && forallb item_as_configured items.

(** ** The restoration in the words of the specification *)

(** A global replacement of the literal text [pat] by the literal text
    [replacement], scanning from the left; [skip] counts the characters of
    the current occurrence still to be stepped over. *)
Fixpoint literal_replace_scan (pat replacement : string) (skip : nat)
    (s : string) : string :=
  match s with
  | EmptyString => EmptyString
  | String c s' =>
      match skip with
      | S k => literal_replace_scan pat replacement k s'
      | O =>
          if String.prefix pat s then
            replacement
            ++ literal_replace_scan pat replacement
                 (Nat.pred (String.length pat)) s'
          else String c (literal_replace_scan pat replacement O s')
      end
  end.

Definition literal_restore (result : string) (entity : SensitiveEntity)
  : string :=
  literal_replace_scan (anonymized entity) (original entity) O result.

(** ** Examples *)

(** Collaborators whose two calls behave as given, whatever the request. *)
Definition constant_env
    (analysis : Response (option (list AnalyzerResult)))
    (anonymization : Response AnonymizerData) : Collaborators :=
  mkCollaborators (fun _ => None) (fun _ _ => analysis)
    (fun _ _ _ _ => anonymization).

(** The text of the README example, a detector that reports a PERSON span
    and a PHONE_NUMBER span, and an anonymizer that answers with the
    bracketed placeholders. *)
Definition scenario_text : string :=
  "Hello, my name is John Doe and my phone number is +1 555-123-4567.".

Definition scenario_anonymized : string :=
  "Hello, my name is [PERSON] and my phone number is [PHONE].".

Definition scenario_results (phone_start phone_end : Z)
  : list AnalyzerResult :=
  [ mkAnalyzerResult "PERSON" 18 26 (9 # 10);
    mkAnalyzerResult "PHONE_NUMBER" phone_start phone_end (8 # 10) ].

Definition scenario_items : list AnonymizerItem :=
  [ mkItem "PERSON" (Some "[PERSON]");
    mkItem "PHONE_NUMBER" (Some "[PHONE]") ].

Definition scenario_env (phone_start phone_end : Z) : Collaborators :=
  mkCollaborators
    (fun _ => None)
    (fun _ _ => Resolved (Some (scenario_results phone_start phone_end)))
    (fun _ _ _ _ =>
       Resolved (mkData scenario_anonymized (Some scenario_items))).

(** The scenario of the documentation with the phone number reported
    before the name. *)
Definition phone_first_results : list AnalyzerResult :=
  [ mkAnalyzerResult "PHONE_NUMBER" 50 65 (8 # 10);
    mkAnalyzerResult "PERSON" 18 26 (9 # 10) ].

Definition phone_first_env : Collaborators :=
  constant_env
    (Resolved (Some phone_first_results))
    (Resolved (mkData scenario_anonymized (Some scenario_items))).

(** A text with two names, both detected, and the anonymizer's answer. *)
Definition two_persons_text : string := "John Doe met Jane Roe".

Definition two_persons_results : list AnalyzerResult :=
  [ mkAnalyzerResult "PERSON" 0 8 (85 # 100);
    mkAnalyzerResult "PERSON" 13 21 (85 # 100) ].

Definition two_persons_env : Collaborators :=
  constant_env
    (Resolved (Some two_persons_results))
    (Resolved
       (mkData (substitute_spans two_persons_text 0 two_persons_results)
          (Some [ mkItem "PERSON" (Some "[PERSON]");
                  mkItem "PERSON" (Some "[PERSON]") ]))).

(** A text whose only detected span is a two-letter PERSON. *)
Definition fragment_env : Collaborators :=
  constant_env
    (Resolved (Some [ mkAnalyzerResult "PERSON" 3 5 (85 # 100) ]))
    (Resolved (mkData "Hi [PERSON]" (Some [ mkItem "PERSON" (Some "[PERSON]") ]))).

(** A text whose URL contains the replacement pattern [$&]. *)
Definition dollar_text : string := "See http://a.io/?q=$&x=1 now".

Definition dollar_env : Collaborators :=
  constant_env
    (Resolved (Some [ mkAnalyzerResult "URL" 4 24 (6 # 10) ]))
    (Resolved (mkData "See [URL] now" (Some [ mkItem "URL" (Some "[URL]") ]))).

(** A text with two phone numbers: one with a [+] that is not its first
    character, and a longer one without any. *)
Definition two_phones_text : string :=
  "Call (+44) 20 7946 or 020 7946 0958 x123".

Definition two_phones_results : list AnalyzerResult :=
  [ mkAnalyzerResult "PHONE_NUMBER" 5 18 (8 # 10);
    mkAnalyzerResult "PHONE_NUMBER" 22 40 (8 # 10) ].

Definition two_phones_table : EntityMap :=
  before_reduction two_phones_text
    [ mkItem "PHONE_NUMBER" (Some "[PHONE]") ] two_phones_results.

(** The two pairs of competing spans of the specification. *)
Definition short_phone : SensitiveEntity :=
  mkEntity "555-1234" "[PHONE]" "PHONE_NUMBER" 5 13.

Definition full_phone : SensitiveEntity :=
  mkEntity "+1 555-123-4567" "[PHONE]" "PHONE_NUMBER" 17 32.

Definition phones_table : EntityMap :=
  before_reduction "Call 555-1234 or +1 555-123-4567"
    [ mkItem "PHONE_NUMBER" (Some "[PHONE]") ]
    [ mkAnalyzerResult "PHONE_NUMBER" 5 13 (6 # 10);
      mkAnalyzerResult "PHONE_NUMBER" 17 32 (8 # 10) ].

Definition last_name : SensitiveEntity :=
  mkEntity "Doe" "[PERSON]" "PERSON" 0 3.

Definition full_name : SensitiveEntity :=
  mkEntity "John Doe" "[PERSON]" "PERSON" 8 16.

Definition persons_table : EntityMap :=
  before_reduction "Doe, or John Doe"
    [ mkItem "PERSON" (Some "[PERSON]") ]
    [ mkAnalyzerResult "PERSON" 0 3 (85 # 100);
      mkAnalyzerResult "PERSON" 8 16 (85 # 100) ].

(** ** The normalizer, step by step *)

(** The body of the grouping loop. *)
Definition group_step (entityMap : JS.map (list AnalyzerResult))
    (result : AnalyzerResult) : JS.map (list AnalyzerResult) :=
  let entityType := ar_entity_type result in
  let entities :=
    match JS.get entityType entityMap with
    | Some l => l
    | None => []
    end in
  JS.set entityType (entities ++ [result])%list entityMap.

(** The results of one type, in the order of detection. *)
Definition results_of_type (type : string) (results : list AnalyzerResult)
  : list AnalyzerResult :=
  filter (fun r => String.eqb (ar_entity_type r) type) results.

(** The entities of one group in the order of its sort, each with the key
    the inner loop computes for it. *)
Definition keyed_group (group : string * list AnalyzerResult)
  : list (string * AnalyzerResult) :=
  List.map
    (fun entity =>
       (entity_key (fst group) (ar_start entity) (ar_end entity), entity))
    (JS.sort compare_spans (snd group)).

(** Keep the first entity seen under each key. *)
Definition first_seen (entries : list (string * AnalyzerResult))
    (processedEntities : JS.map AnalyzerResult) : JS.map AnalyzerResult :=
  fold_left
    (fun processedEntities entry =>
       if negb (JS.has (fst entry) processedEntities)
       then JS.set (fst entry) (snd entry) processedEntities
       else processedEntities)
    entries processedEntities.

(** The normalized spans of [buildEntityMapping]. *)
Definition normalized (analyzerResults : list AnalyzerResult)
  : JS.map AnalyzerResult :=
  process_entities (group_by_type analyzerResults).

(** Two results are detections of the same type at the same position. *)
Definition same_detection (a b : AnalyzerResult) : Prop :=
  ar_entity_type a = ar_entity_type b
  /\ ar_start a = ar_start b /\ ar_end a = ar_end b.

(** The entity the construction loop records for a normalized span. *)
Definition recorded_entity (originalText : string)
    (anonymizedEntities : JS.map string) (entity : AnalyzerResult)
  : SensitiveEntity :=
  mkEntity
    (JS.substring originalText (ar_start entity) (ar_end entity))
    (anonymized_value anonymizedEntities (ar_entity_type entity))
    (ar_entity_type entity) (ar_start entity) (ar_end entity).

(** The span is a PERSON whose slice is shorter than three characters. *)
Definition is_fragment (originalText : string) (entity : AnalyzerResult)
  : bool :=
  String.eqb (ar_entity_type entity) "PERSON"
  && (strlen (JS.substring originalText (ar_start entity) (ar_end entity))
      <? 3).

(** A text with two cities, both detected. *)
Definition two_cities_text : string := "From Paris to Rome".

Definition two_cities_results : list AnalyzerResult :=
  [ mkAnalyzerResult "LOCATION" 5 10 (85 # 100);
    mkAnalyzerResult "LOCATION" 14 18 (85 # 100) ].

Definition two_cities_items : list AnonymizerItem :=
  [ mkItem "LOCATION" (Some "[LOCATION]");
    mkItem "LOCATION" (Some "[LOCATION]") ].

(** Spans that are replaced by the same placeholder have the same original
    value. *)
Definition repeats_agree (text : string) (spans : list AnalyzerResult)
  : Prop :=
  forall a b, In a spans -> In b spans ->
    configured_placeholder (ar_entity_type a)
    = configured_placeholder (ar_entity_type b) ->
    JS.substring text (ar_start a) (ar_end a)
    = JS.substring text (ar_start b) (ar_end b).

(** A text in which one name stands twice. *)
Definition same_person_text : string := "John Doe called; call John Doe back".

Definition same_person_results : list AnalyzerResult :=
  [ mkAnalyzerResult "PERSON" 0 8 (85 # 100);
    mkAnalyzerResult "PERSON" 22 30 (85 # 100) ].

Definition same_person_env : Collaborators :=
  constant_env
    (Resolved (Some same_person_results))
    (Resolved
       (mkData (substitute_spans same_person_text 0 same_person_results)
          (Some [ mkItem "PERSON" (Some "[PERSON]");
                  mkItem "PERSON" (Some "[PERSON]") ]))).

(** One position detected twice, with two scores. *)
Definition twice_detected : list AnalyzerResult :=
  [ mkAnalyzerResult "PERSON" 0 8 (6 # 10);
    mkAnalyzerResult "PERSON" 0 8 (9 # 10) ].

(** * Properties *)

(** ** Control flow of [anonymizeText] *)

Lemma anonymizeText_analyzer_rejected env text table message :
  analyze_request env text = Rejected message ->
  anonymizeText env text table = ([], Return (mkResult text false)).
Proof.
  unfold analyze_request, anonymizeText, try_catch, bind, modify, analyzeText.
  destruct (resolve_urls env) as [analyzerUrl anonymizerUrl]; simpl.
  intros ->. reflexivity.
Qed.

Lemma anonymizeText_no_detection env text table analyzerResults :
  analyze_request env text = Resolved analyzerResults ->
  analyzerResults = None \/ analyzerResults = Some [] ->
  anonymizeText env text table = ([], Return (mkResult text false)).
Proof.
  unfold analyze_request, anonymizeText, try_catch, bind, modify, analyzeText.
  destruct (resolve_urls env) as [analyzerUrl anonymizerUrl]; simpl.
  intros -> [-> | ->]; reflexivity.
Qed.

Lemma anonymizeText_anonymizer_rejected env text table r rs message :
  analyze_request env text = Resolved (Some (r :: rs)) ->
  anonymize_request env text (r :: rs) = Rejected message ->
  anonymizeText env text table = ([], Return (mkResult text false)).
Proof.
  unfold analyze_request, anonymize_request, anonymizeText, try_catch, bind,
    modify, analyzeText.
  destruct (resolve_urls env) as [analyzerUrl anonymizerUrl]; simpl.
  intros Hanalyze Hanonymize. rewrite Hanalyze; simpl.
  rewrite Hanonymize. reflexivity.
Qed.

Lemma anonymizeText_resolved env text table r rs data :
  analyze_request env text = Resolved (Some (r :: rs)) ->
  anonymize_request env text (r :: rs) = Resolved data ->
  let table' := buildEntityMapping text (items_or_empty data) (r :: rs) [] in
  anonymizeText env text table =
    (table', Return (mkResult (data_text data) (0 <? JS.size table')%nat)).
Proof.
  unfold analyze_request, anonymize_request, anonymizeText, try_catch, bind,
    modify, analyzeText, entity_map_size.
  destruct (resolve_urls env) as [analyzerUrl anonymizerUrl]; simpl.
  intros Hanalyze Hanonymize. rewrite Hanalyze; simpl.
  rewrite Hanonymize. reflexivity.
Qed.

(** C3. Whenever the analyzer call or the anonymizer call is rejected,
    [anonymizeText] returns the input text with [entitiesFound = false];
    nothing is thrown to the caller. *)
Theorem anonymizeText_soft_fail env text table :
  (exists message, analyze_request env text = Rejected message) \/
  (exists r rs message,
     analyze_request env text = Resolved (Some (r :: rs)) /\
     anonymize_request env text (r :: rs) = Rejected message) ->
  snd (anonymizeText env text table) = Return (mkResult text false).
Proof.
  intros [[message Hanalyze] | (r & rs & message & Hanalyze & Hanonymize)].
  - now rewrite (anonymizeText_analyzer_rejected _ _ _ _ Hanalyze).
  - now rewrite (anonymizeText_anonymizer_rejected _ _ _ _ _ _ Hanalyze Hanonymize).
Qed.

Lemma anonymizeText_soft_fail_witness :
  snd (anonymizeText
         (constant_env (Rejected "ECONNREFUSED") (Rejected "unused"))
         "Call John Doe" [])
  = Return (mkResult "Call John Doe" false)
  /\
  snd (anonymizeText
         (constant_env
            (Resolved (Some [mkAnalyzerResult "PERSON" 5 13 (85 # 100)]))
            (Rejected "timeout of 5000ms exceeded"))
         "Call John Doe" [])
  = Return (mkResult "Call John Doe" false).
Proof.
  split.
  - apply anonymizeText_soft_fail. left.
    exists "ECONNREFUSED". reflexivity.
  - apply anonymizeText_soft_fail. right.
    exists (mkAnalyzerResult "PERSON" 5 13 (85 # 100)), [],
      "timeout of 5000ms exceeded".
    split; reflexivity.
Defined.

(** ** The scenario of the documentation *)

(** C2, as stated.  With the PHONE_NUMBER span at [52, 67) the slice of the
    66-character text is [" 555-123-4567."], and restoring the anonymized
    text does not give the input back. *)
Lemma scenario_as_stated_not_restored :
  ~ (exists table,
       anonymizeText (scenario_env 52 67) scenario_text []
       = (table, Return (mkResult scenario_anonymized true))
       /\ deanonymizeText table scenario_anonymized = scenario_text).
Proof.
  intros (table & Hrun & Hrestore).
  vm_compute in Hrun. injection Hrun as <-.
  vm_compute in Hrestore. discriminate Hrestore.
Qed.

(** C2, amended.  With the PHONE_NUMBER span at [50, 65), where the phone
    number stands in the text, [anonymizeText] returns the anonymized text
    with [entitiesFound = true] and [deanonymizeText] restores the input. *)
Theorem scenario_round_trip :
  exists table,
    anonymizeText (scenario_env 50 65) scenario_text []
    = (table, Return (mkResult scenario_anonymized true))
    /\ JS.values table
       = [ mkEntity "John Doe" "[PERSON]" "PERSON" 18 26;
           mkEntity "+1 555-123-4567" "[PHONE]" "PHONE_NUMBER" 50 65 ]
    /\ deanonymizeText table scenario_anonymized = scenario_text.
Proof.
  eexists. split; [vm_compute; reflexivity |].
  split; vm_compute; reflexivity.
Qed.

(** ** [Map] operations *)

Section MapFacts.
Context {V : Type}.
  Implicit Types (m : JS.map V) (k : string) (v : V).

Lemma get_set_same k v m : JS.get k (JS.set k v m) = Some v.
  Proof.
    induction m as [| [k' v'] m IH]; simpl.
    - now rewrite String.eqb_refl.
    - destruct (String.eqb k k') eqn:E; simpl; now rewrite E.
  Qed.

Lemma get_set_other k k' v m :
    k <> k' -> JS.get k (JS.set k' v m) = JS.get k m.
  Proof.
    intros Hne. induction m as [| [k0 v0] m IH]; simpl.
    - apply String.eqb_neq in Hne. now rewrite Hne.
    - destruct (String.eqb k' k0) eqn:E; simpl.
      + apply String.eqb_eq in E; subst k0.
        apply String.eqb_neq in Hne. now rewrite Hne.
      + now rewrite IH.
  Qed.

Lemma get_None_not_key k m : JS.get k m = None <-> ~ In k (JS.keys m).
  Proof.
    induction m as [| [k' v'] m IH]; simpl.
    - tauto.
    - destruct (String.eqb k k') eqn:E.
      + apply String.eqb_eq in E; subst. split; [discriminate | tauto].
      + apply String.eqb_neq in E. rewrite IH. split.
        * intros H [H' | H']; [now apply E | now apply H].
        * tauto.
  Qed.

Lemma get_Some_In k v m : JS.get k m = Some v -> In (k, v) m.
  Proof.
    induction m as [| [k' v'] m IH]; simpl; [discriminate |].
    destruct (String.eqb k k') eqn:E.
    - apply String.eqb_eq in E; subst. intros [= ->]. now left.
    - auto.
  Qed.

Lemma In_get k v m : NoDup (JS.keys m) -> In (k, v) m -> JS.get k m = Some v.
  Proof.
    induction m as [| [k' v'] m IH]; simpl; [tauto |].
    intros Hnd [[= -> ->] | Hin].
    - now rewrite String.eqb_refl.
    - inversion Hnd as [| ? ? Hnotin Hnd']; subst.
      destruct (String.eqb k k') eqn:E.
      + apply String.eqb_eq in E; subst. exfalso. apply Hnotin.
        change k' with (fst (k', v)). now apply in_map.
      + auto.
  Qed.

Lemma In_set k v k' v' m :
    In (k, v) (JS.set k' v' m) -> (k = k' /\ v = v') \/ In (k, v) m.
  Proof.
    induction m as [| [k0 v0] m IH]; simpl.
    - intros [[= -> ->] | []]. now left.
    - destruct (String.eqb k' k0) eqn:E; simpl.
      + apply String.eqb_eq in E; subst.
        intros [[= -> ->] | Hin]; [now left | right; now right].
      + intros [Heq | Hin]; [right; now left |].
        destruct (IH Hin) as [H | H]; [now left | right; now right].
  Qed.

Lemma keys_set k v m :
    JS.keys (JS.set k v m)
    = if JS.has k m then JS.keys m else (JS.keys m ++ [k])%list.
  Proof.
    unfold JS.has. induction m as [| [k' v'] m IH]; simpl; [reflexivity |].
    destruct (String.eqb k k') eqn:E; simpl; [reflexivity |].
    rewrite IH. now destruct (JS.get k m).
  Qed.

Lemma NoDup_keys_set k v m :
    NoDup (JS.keys m) -> NoDup (JS.keys (JS.set k v m)).
  Proof.
    intros Hnd. rewrite keys_set. unfold JS.has.
    destruct (JS.get k m) eqn:E; [assumption |].
    apply get_None_not_key in E.
    apply NoDup_app.
    - assumption.
    - constructor; [intros [] | constructor].
    - intros x Hx [<- | []]. contradiction.
  Qed.

Lemma values_set_fresh k v m :
    JS.get k m = None -> JS.set k v m = (m ++ [(k, v)])%list.
  Proof.
    induction m as [| [k' v'] m IH]; simpl; [reflexivity |].
    destruct (String.eqb k k'); [discriminate |].
    intros H. now rewrite IH.
  Qed.

Lemma In_delete k v k' m :
    In (k, v) (JS.delete k' m) <-> In (k, v) m /\ k <> k'.
  Proof.
    unfold JS.delete. rewrite filter_In. simpl.
    rewrite negb_true_iff, String.eqb_neq.
    split; intros [H1 H2]; split; auto.
  Qed.

Lemma NoDup_keys_filter (f : string * V -> bool) m :
    NoDup (JS.keys m) -> NoDup (JS.keys (filter f m)).
  Proof.
    induction m as [| [k' v'] m IH]; simpl; [auto |].
    intros Hnd. inversion Hnd as [| ? ? Hnotin Hnd']; subst.
    destruct (f (k', v')); simpl; auto.
    constructor; auto.
    intros Hin. apply Hnotin. unfold JS.keys in *.
    apply in_map_iff in Hin as ([k0 v0] & Hk & Hin). simpl in Hk; subst.
    apply filter_In in Hin as [Hin _].
    change k' with (fst (k', v0)). now apply in_map.
  Qed.

End MapFacts.

Lemma In_delete_all ks k (v : SensitiveEntity) m :
    In (k, v) (delete_all ks m) <-> In (k, v) m /\ ~ In k ks.
  Proof.
    unfold delete_all. revert m.
    induction ks as [| k' ks IH]; intros m; simpl; [tauto |].
    rewrite IH, In_delete. split.
    - intros [[H1 H2] H3]. split; [assumption |].
      intros [-> | H]; contradiction || now apply H2.
    - intros [H1 H2]. repeat split; auto.
  Qed.

Lemma NoDup_keys_delete_all ks (m : EntityMap) :
    NoDup (JS.keys m) -> NoDup (JS.keys (delete_all ks m)).
  Proof.
    unfold delete_all. revert m.
    induction ks as [| k' ks IH]; intros m Hnd; simpl; [assumption |].
    apply IH. now apply NoDup_keys_filter.
  Qed.

(** ** [Array.prototype.sort] *)

Section SortFacts.
Context {A : Type} (cmp : A -> A -> Z).

Lemma insert_perm x l : Permutation (JS.insert cmp x l) (x :: l).
  Proof.
    induction l as [| y l IH]; simpl; [reflexivity |].
    destruct (cmp x y <=? 0); [reflexivity |].
    rewrite IH. apply perm_swap.
  Qed.

Lemma sort_perm l : Permutation (JS.sort cmp l) l.
  Proof.
    induction l as [| x l IH]; simpl; [reflexivity |].
    rewrite insert_perm. now constructor.
  Qed.

Lemma In_sort x l : In x (JS.sort cmp l) <-> In x l.
  Proof.
    split; apply Permutation_in; [| symmetry]; apply sort_perm.
  Qed.

Lemma length_sort l : List.length (JS.sort cmp l) = List.length l.
  Proof. apply Permutation_length, sort_perm. Qed.

Hypothesis cmp_total : forall x y, not_after cmp x y \/ not_after cmp y x.
Hypothesis cmp_trans : forall x y z, not_after cmp x y -> not_after cmp y z -> not_after cmp x z.

Lemma insert_sorted x l :
    StronglySorted (not_after cmp) l -> StronglySorted (not_after cmp) (JS.insert cmp x l).
  Proof.
    induction 1 as [| y l Hsorted IH Hall]; simpl.
    - repeat constructor.
    - destruct (cmp x y <=? 0) eqn:E.
      + apply Z.leb_le in E. constructor; [now constructor |].
        constructor; [exact E |].
        eapply Forall_impl; [| exact Hall]. intros z Hz.
        now apply cmp_trans with y.
      + apply Z.leb_gt in E. constructor; [assumption |].
        assert (Hyx : not_after cmp y x).
        { destruct (cmp_total x y) as [H | H]; [unfold not_after in H; lia | exact H]. }
        eapply Permutation_Forall; [symmetry; apply insert_perm |].
        now constructor.
  Qed.

Lemma sort_sorted l : StronglySorted (not_after cmp) (JS.sort cmp l).
  Proof.
    induction l as [| x l IH]; simpl; [constructor | now apply insert_sorted].
  Qed.

  (** The first element of the sorted array is not after any other one. *)
Lemma sort_head_best l w rest :
    JS.sort cmp l = w :: rest -> forall e, In e l -> cmp w e <= 0.
  Proof.
    intros Hsort e Hin.
    pose proof (sort_sorted l) as Hsorted. rewrite Hsort in Hsorted.
    apply In_sort in Hin. rewrite Hsort in Hin.
    inversion Hsorted as [| ? ? _ Hall]; subst.
    destruct Hin as [<- | Hin].
    - destruct (cmp_total w w) as [H | H]; exact H.
    - rewrite Forall_forall in Hall. now apply Hall.
  Qed.
End SortFacts.

(** ** Placeholder resolution *)

Lemma placeholder_of_item_static it :
  placeholder_of_item it
  = match static_placeholder (item_entity_type it) with
    | Some p => p
    | None => or_else (item_text it) ("[" ++ item_entity_type it ++ "]")
    end.
Proof.
  unfold placeholder_of_item, static_placeholder.
  repeat match goal with
         | |- context [String.eqb ?a ?b] => destruct (String.eqb a b)
         end; reflexivity.
Qed.

Lemma placeholder_of_item_nonempty it : placeholder_of_item it <> "".
Proof.
  rewrite placeholder_of_item_static.
  unfold static_placeholder.
  repeat match goal with
         | |- context [String.eqb ?a ?b] => destruct (String.eqb a b)
         end; try discriminate.
  destruct (item_text it) as [[| c s] |]; simpl; discriminate.
Qed.

Lemma fold_set_items_get (items : list AnonymizerItem) m c :
  (forall it, In it items -> item_entity_type it <> c) ->
  JS.get c
    (fold_left
       (fun acc result =>
          JS.set (item_entity_type result) (placeholder_of_item result) acc)
       items m)
  = JS.get c m.
Proof.
  revert m. induction items as [| it items IH]; intros m Hnot; simpl.
  - reflexivity.
  - rewrite IH by (intros; apply Hnot; now right).
    apply get_set_other. intros ->. now apply (Hnot it); [left |].
Qed.

Lemma anonymized_entities_last pre it post :
  (forall it', In it' post -> item_entity_type it' <> item_entity_type it) ->
  JS.get (item_entity_type it) (anonymized_entities (pre ++ it :: post)%list)
  = Some (placeholder_of_item it).
Proof.
  intros Hpost. unfold anonymized_entities.
  rewrite fold_left_app. simpl.
  rewrite fold_set_items_get by assumption.
  apply get_set_same.
Qed.

Lemma anonymized_entities_absent items c :
  (forall it, In it items -> item_entity_type it <> c) ->
  JS.get c (anonymized_entities items) = None.
Proof.
  intros H. unfold anonymized_entities. now rewrite fold_set_items_get.
Qed.

Lemma or_else_nonempty s d : s <> "" -> or_else (Some s) d = s.
Proof. destruct s; [congruence | reflexivity]. Qed.

(** C7, as stated.  An item of a category the [switch] names does not have
    its literal used: the placeholder of the [switch] is. *)
Lemma literal_of_static_category_not_used :
  ~ (forall it literal,
       item_text it = Some literal -> literal <> "" ->
       anonymized_value (anonymized_entities [it]) (item_entity_type it)
       = literal).
Proof.
  intros H.
  specialize (H (mkItem "PERSON" (Some "<PERSON>")) "<PERSON>" eq_refl).
  assert (Hliteral : "<PERSON>" <> "") by discriminate.
  specialize (H Hliteral). vm_compute in H. discriminate H.
Qed.

(** C7, amended.  The anonymized value of a category is decided by the last
    item of that category in the anonymizer's output: for PERSON,
    PHONE_NUMBER, DATE_TIME, ORGANIZATION and LOCATION it is the fixed
    placeholder of the [switch], whatever literal the item carries; for any
    other category it is the item's literal when that is present and not
    empty, and the bracketed category name otherwise.  A category with no
    item at all gets the bracketed category name. *)
Theorem placeholder_resolution :
  (forall pre it post,
     (forall it', In it' post -> item_entity_type it' <> item_entity_type it) ->
     anonymized_value (anonymized_entities (pre ++ it :: post)%list)
       (item_entity_type it)
     = match static_placeholder (item_entity_type it) with
       | Some placeholder => placeholder
       | None => or_else (item_text it) ("[" ++ item_entity_type it ++ "]")
       end)
  /\
  (forall items category,
     (forall it, In it items -> item_entity_type it <> category) ->
     anonymized_value (anonymized_entities items) category
     = "[" ++ category ++ "]").
Proof.
  split.
  - intros pre it post Hpost. unfold anonymized_value.
    rewrite anonymized_entities_last by assumption.
    rewrite or_else_nonempty by apply placeholder_of_item_nonempty.
    apply placeholder_of_item_static.
  - intros items category Habsent. unfold anonymized_value.
    now rewrite anonymized_entities_absent.
Qed.

Lemma placeholder_resolution_witness :
  anonymized_value
    (anonymized_entities
       [ mkItem "URL" (Some "[URL]");
         mkItem "PERSON" (Some "<PERSON>");
         mkItem "US_SSN" None ])
    "PERSON" = "[PERSON]"
  /\
  anonymized_value
    (anonymized_entities
       [ mkItem "URL" (Some "[URL]");
         mkItem "EMAIL_ADDRESS" (Some "*****@example.com");
         mkItem "US_SSN" None ])
    "EMAIL_ADDRESS" = "*****@example.com"
  /\
  anonymized_value
    (anonymized_entities [ mkItem "URL" (Some "[URL]") ]) "US_SSN"
  = "[US_SSN]".
Proof.
  split; [| split].
  - apply (proj1 placeholder_resolution
             [mkItem "URL" (Some "[URL]")]
             (mkItem "PERSON" (Some "<PERSON>"))
             [mkItem "US_SSN" None]).
    intros it' [<- | []]. discriminate.
  - apply (proj1 placeholder_resolution
             [mkItem "URL" (Some "[URL]")]
             (mkItem "EMAIL_ADDRESS" (Some "*****@example.com"))
             [mkItem "US_SSN" None]).
    intros it' [<- | []]. discriminate.
  - apply (proj2 placeholder_resolution). 
    intros it [<- | []]. discriminate.
Defined.

(** ** Strings *)

Lemma append_assoc (a b c : string) : (a ++ b) ++ c = a ++ (b ++ c).
Proof. induction a as [| x a IH]; simpl; [reflexivity | now rewrite IH]. Qed.

Lemma append_empty_r (a : string) : a ++ "" = a.
Proof. induction a as [| x a IH]; simpl; [reflexivity | now rewrite IH]. Qed.

Lemma length_append (a b : string) :
  String.length (a ++ b) = (String.length a + String.length b)%nat.
Proof. induction a as [| x a IH]; simpl; [reflexivity | now rewrite IH]. Qed.

Lemma append_inj_l (a b c : string) : a ++ b = a ++ c -> b = c.
Proof. induction a as [| x a IH]; simpl; [auto | intros [= H]; auto]. Qed.

Lemma prefix_cons c p d s :
  String.prefix (String c p) (String d s) = Ascii.eqb c d && String.prefix p s.
Proof.
  simpl. destruct (ascii_dec c d) as [-> | Hne].
  - now rewrite Ascii.eqb_refl.
  - apply Ascii.eqb_neq in Hne. now rewrite Hne.
Qed.

Lemma prefix_append (p s : string) : String.prefix p (p ++ s) = true.
Proof.
  induction p as [| c p IH]; [now destruct s |].
  change (String c p ++ s) with (String c (p ++ s)).
  now rewrite prefix_cons, Ascii.eqb_refl.
Qed.

Lemma prefix_split (p s : string) :
  String.prefix p s = true -> exists t, s = p ++ t.
Proof.
  revert s. induction p as [| c p IH]; intros s H.
  - now exists s.
  - destruct s as [| d s]; [discriminate |].
    rewrite prefix_cons in H. apply andb_true_iff in H as [Hc Hp].
    apply Ascii.eqb_eq in Hc; subst d.
    destruct (IH _ Hp) as [t ->]. now exists t.
Qed.

Lemma prefix_iff (p s : string) :
  String.prefix p s = true <-> exists t, s = p ++ t.
Proof.
  split; [apply prefix_split | intros [t ->]; apply prefix_append].
Qed.

Lemma drop_append (p s : string) : JS.drop (String.length p) (p ++ s) = s.
Proof. induction p as [| c p IH]; simpl; [now destruct s | exact IH]. Qed.

Lemma includes_unfold (s needle : string) :
  JS.includes s needle
  = String.prefix needle s
    || match s with
       | EmptyString => false
       | String _ s' => JS.includes s' needle
       end.
Proof. destruct s; reflexivity. Qed.

Lemma includes_append_r (a b needle : string) :
  JS.includes b needle = true -> JS.includes (a ++ b) needle = true.
Proof.
  intros H. induction a as [| c a IH]; [exact H |].
  rewrite includes_unfold. change (String c a ++ b) with (String c (a ++ b)).
  cbv beta iota. rewrite IH. apply orb_true_r.
Qed.

Lemma includes_here (b needle : string) :
  JS.includes (needle ++ b) needle = true.
Proof.
  rewrite includes_unfold, prefix_append. reflexivity.
Qed.

Lemma includes_middle (a b needle : string) :
  JS.includes (a ++ needle ++ b) needle = true.
Proof. apply includes_append_r, includes_here. Qed.

Lemma includes_iff (s needle : string) :
  JS.includes s needle = true <-> exists a b, s = a ++ needle ++ b.
Proof.
  split.
  - induction s as [| c s IH]; rewrite includes_unfold.
    + rewrite orb_false_r. intros H. apply prefix_split in H as [t ->].
      now exists "", t.
    + intros H. apply orb_true_iff in H as [H | H].
      * apply prefix_split in H as [t ->]. now exists "", t.
      * destruct (IH H) as (a & b & ->). now exists (String c a), b.
  - intros (a & b & ->). apply includes_middle.
Qed.

(** ** Keys of the entity map *)

Lemma entity_key_prefix entityType s e :
  JS.startsWith (entity_key entityType s e) (entityType ++ "-") = true.
Proof.
  unfold JS.startsWith, entity_key.
  change (entityType ++ "-" ++ JS.string_of_Z s ++ "-" ++ JS.string_of_Z e)
    with (entityType ++ ("-" ++ (JS.string_of_Z s ++ "-" ++ JS.string_of_Z e))).
  rewrite <- append_assoc. apply prefix_append.
Qed.

Lemma best_key_prefix entityType :
  JS.startsWith (entityType ++ "-best") (entityType ++ "-") = true.
Proof.
  unfold JS.startsWith.
  change (entityType ++ "-best") with (entityType ++ ("-" ++ "best")).
  rewrite <- append_assoc. apply prefix_append.
Qed.

Lemma entity_key_not_best entityType s e :
  entity_key entityType s e <> entityType ++ "-best".
Proof.
  unfold entity_key. intros H. apply append_inj_l in H.
  injection H as H.
  assert (Hdash : JS.includes "best" "-" = true).
  { rewrite <- H.
    apply (includes_middle (JS.string_of_Z s) (JS.string_of_Z e) "-"). }
  discriminate Hdash.
Qed.

(** ** [findBestMatch] *)

Lemma delete_all_filter ks (table : EntityMap) :
  delete_all ks table
  = filter (fun kv => negb (existsb (String.eqb (fst kv)) ks)) table.
Proof.
  unfold delete_all. revert table.
  induction ks as [| k ks IH]; intros table; simpl.
  - induction table as [| kv table IHt]; simpl; [reflexivity | now f_equal].
  - rewrite IH. unfold JS.delete.
    induction table as [| kv table IHt]; simpl; [reflexivity |].
    rewrite (String.eqb_sym (fst kv) k).
    destruct (String.eqb k (fst kv)); simpl; [exact IHt |].
    destruct (existsb (String.eqb (fst kv)) ks); simpl; [exact IHt |].
    now f_equal.
Qed.

Lemma clear_type_filter c (table : EntityMap) :
  clear_type c table
  = filter (fun kv => negb (JS.startsWith (fst kv) (c ++ "-"))) table.
Proof.
  unfold clear_type. rewrite delete_all_filter.
  apply filter_ext_in. intros [k e] Hin. simpl. f_equal.
  destruct (JS.startsWith k (c ++ "-")) eqn:E.
  - apply existsb_exists. exists k. split; [| apply String.eqb_refl].
    apply filter_In. split; [| exact E].
    change k with (fst (k, e)). now apply in_map.
  - destruct (existsb _ _) eqn:E'; [| reflexivity].
    apply existsb_exists in E' as (k' & Hk' & Heq).
    apply String.eqb_eq in Heq; subst k'.
    apply filter_In in Hk' as [_ Hk']. congruence.
Qed.

Lemma In_clear_type c k e (table : EntityMap) :
  In (k, e) (clear_type c table)
  <-> In (k, e) table /\ JS.startsWith k (c ++ "-") = false.
Proof.
  rewrite clear_type_filter, filter_In. simpl. now rewrite negb_true_iff.
Qed.

Lemma is_of_type_eq c e : is_of_type c e = true <-> entityType e = c.
Proof. apply String.eqb_eq. Qed.

Lemma rebuilt_entity c e :
  is_of_type c e = true ->
  mkEntity (original e) (anonymized e) c (start e) (end_ e) = e.
Proof. intros H. apply is_of_type_eq in H. subst c. now destruct e. Qed.

Lemma In_entities_of_type c e table :
  In e (entities_of_type c table)
  <-> (exists k, In (k, e) table) /\ entityType e = c.
Proof.
  unfold entities_of_type, JS.values.
  rewrite filter_In, in_map_iff, is_of_type_eq.
  split; intros [H1 H2]; split; auto.
  - destruct H1 as ([k e'] & <- & Hin). now exists k.
  - destruct H1 as [k Hin]. now exists (k, e).
Qed.

Lemma keep_best_spec cmp c entities table :
  entities <> [] ->
  (forall e, In e entities -> is_of_type c e = true) ->
  exists w rest,
    JS.sort cmp entities = w :: rest /\
    keep_best cmp c entities table
    = (w :: rest, JS.set (c ++ "-best") w (clear_type c table)).
Proof.
  intros Hne Htype. unfold keep_best.
  destruct (JS.sort cmp entities) as [| w rest] eqn:Hsort.
  - apply (f_equal (@List.length _)) in Hsort.
    rewrite length_sort in Hsort. destruct entities; [congruence | discriminate].
  - exists w, rest. split; [reflexivity |].
    rewrite rebuilt_entity; [reflexivity |].
    apply Htype. apply (In_sort cmp). rewrite Hsort. now left.
Qed.

Lemma findBestMatch_few text c table :
  (List.length (entities_of_type c table) <= 1)%nat ->
  findBestMatch text c table = table.
Proof.
  intros H. unfold findBestMatch. fold (entities_of_type c table).
  apply Nat.leb_le in H. now rewrite H.
Qed.

Lemma entities_of_type_all c table e :
  In e (entities_of_type c table) -> is_of_type c e = true.
Proof. unfold entities_of_type. rewrite filter_In. tauto. Qed.

Lemma many_not_nil {A} (l : list A) : (1 < List.length l)%nat -> l <> [].
Proof. destruct l; simpl; [lia | discriminate]. Qed.

Lemma findBestMatch_phone text table :
  (1 < List.length (entities_of_type "PHONE_NUMBER" table))%nat ->
  exists w rest,
    JS.sort compare_phone (entities_of_type "PHONE_NUMBER" table) = w :: rest /\
    findBestMatch text "PHONE_NUMBER" table
    = JS.set "PHONE_NUMBER-best" w (clear_type "PHONE_NUMBER" table).
Proof.
  intros Hmany. unfold findBestMatch.
  fold (entities_of_type "PHONE_NUMBER" table).
  apply Nat.leb_gt in Hmany as Hleb. rewrite Hleb.
  destruct (keep_best_spec compare_phone "PHONE_NUMBER"
              (entities_of_type "PHONE_NUMBER" table) table)
    as (w & rest & Hsort & Hkeep).
  - now apply many_not_nil.
  - apply entities_of_type_all.
  - exists w, rest. split; [exact Hsort |].
    change (String.eqb "PHONE_NUMBER" "PHONE_NUMBER") with true.
    cbv iota. rewrite Hkeep. reflexivity.
Qed.

Lemma findBestMatch_person text table :
  (1 < List.length (entities_of_type "PERSON" table))%nat ->
  exists w rest,
    JS.sort compare_person (entities_of_type "PERSON" table) = w :: rest /\
    findBestMatch text "PERSON" table
    = JS.set "PERSON-best" w (clear_type "PERSON" table).
Proof.
  intros Hmany. unfold findBestMatch.
  fold (entities_of_type "PERSON" table).
  apply Nat.leb_gt in Hmany as Hleb. rewrite Hleb.
  destruct (keep_best_spec compare_person "PERSON"
              (entities_of_type "PERSON" table) table)
    as (w & rest & Hsort & Hkeep).
  - now apply many_not_nil.
  - apply entities_of_type_all.
  - exists w, rest. split; [exact Hsort |].
    change (String.eqb "PERSON" "PHONE_NUMBER") with false.
    change (String.eqb "PERSON" "PERSON") with true.
    cbv iota. rewrite Hkeep. reflexivity.
Qed.

Section Preference.
Variable mark : SensitiveEntity -> bool.

Lemma compare_preferring_not_after w e :
    not_after (compare_preferring mark) w e <-> preferred mark w e.
  Proof.
    unfold not_after, compare_preferring, preferred.
    destruct (mark w), (mark e); simpl; split; intros H;
      try (destruct H as [H1 H2]); try split; try intros; try lia;
      try congruence; try (specialize (H2 eq_refl); lia);
      try (specialize (H1 eq_refl); discriminate).
  Qed.

Lemma compare_preferring_total x y :
    not_after (compare_preferring mark) x y
    \/ not_after (compare_preferring mark) y x.
  Proof.
    unfold not_after, compare_preferring.
    destruct (mark x), (mark y); simpl; lia.
  Qed.

Lemma compare_preferring_trans x y z :
    not_after (compare_preferring mark) x y ->
    not_after (compare_preferring mark) y z ->
    not_after (compare_preferring mark) x z.
  Proof.
    unfold not_after, compare_preferring.
    destruct (mark x), (mark y), (mark z); simpl; lia.
  Qed.

Lemma sort_head_preferred entities w rest :
    JS.sort (compare_preferring mark) entities = w :: rest ->
    In w entities /\ forall e, In e entities -> preferred mark w e.
  Proof.
    intros Hsort. split.
    - apply (In_sort (compare_preferring mark)). rewrite Hsort. now left.
    - intros e He. apply compare_preferring_not_after.
      eapply sort_head_best; eauto using compare_preferring_total,
        compare_preferring_trans.
  Qed.
End Preference.

Lemma filter_none {A} (f : A -> bool) (l : list A) :
  (forall x, In x l -> f x = false) -> filter f l = [].
Proof.
  induction l as [| x l IH]; simpl; [reflexivity |]. intros H.
  rewrite (H x) by now left. apply IH. intros; apply H; now right.
Qed.

Lemma get_clear_type_best c (table : EntityMap) :
  JS.get (c ++ "-best") (clear_type c table) = None.
Proof.
  apply get_None_not_key. unfold JS.keys. intros Hin.
  apply in_map_iff in Hin as ([k e] & Hk & Hin). simpl in Hk; subst k.
  apply In_clear_type in Hin as [_ Hprefix].
  now rewrite best_key_prefix in Hprefix.
Qed.

Lemma startsWith_same_type c e key :
  JS.startsWith key (entityType e ++ "-") = true ->
  JS.startsWith key (c ++ "-") = false ->
  is_of_type c e = false.
Proof.
  intros H1 H2. destruct (is_of_type c e) eqn:E; [| reflexivity].
  apply is_of_type_eq in E. congruence.
Qed.

(** After the reduction the winner is the only entity of its type. *)
Lemma reduced_entities c w (table : EntityMap) :
  well_keyed table -> is_of_type c w = true ->
  entities_of_type c (JS.set (c ++ "-best") w (clear_type c table)) = [w].
Proof.
  intros Hkeyed Hw. unfold entities_of_type.
  rewrite values_set_fresh by apply get_clear_type_best.
  unfold JS.values. rewrite map_app, filter_app. simpl. rewrite Hw.
  rewrite filter_none; [reflexivity |].
  intros e He. apply in_map_iff in He as ([k e'] & <- & Hin). simpl.
  apply In_clear_type in Hin as [Hin Hprefix].
  eapply startsWith_same_type; eauto.
Qed.

Lemma compare_phone_preferring :
  compare_phone = compare_preferring has_plus.
Proof. reflexivity. Qed.

Lemma compare_person_preferring :
  compare_person = compare_preferring has_space.
Proof. reflexivity. Qed.

(** C4, as stated.  A [+] that is not the first character of the original
    text counts as well: of ["(+44) 20 7946"] and the longer
    ["020 7946 0958 x123"], neither of which starts with a [+], the shorter
    one is selected. *)
Lemma leading_plus_not_the_criterion :
  ~ (exists w,
       JS.get "PHONE_NUMBER-best"
         (findBestMatch two_phones_text "PHONE_NUMBER" two_phones_table)
       = Some w
       /\ forall e, In e (entities_of_type "PHONE_NUMBER" two_phones_table) ->
            preferred has_leading_plus w e).
Proof.
  intros (w & Hget & Hpreferred).
  vm_compute in Hget. injection Hget as <-.
  destruct (Hpreferred
              (mkEntity "020 7946 0958 x123" "[PHONE]" "PHONE_NUMBER" 22 40))
    as [_ Hlonger].
  - vm_compute. left. reflexivity.
  - specialize (Hlonger eq_refl). vm_compute in Hlonger. now apply Hlonger.
Qed.

(** C4, amended.  When the map holds two or more PHONE_NUMBER entities,
    [findBestMatch] stores one of them under the key [PHONE_NUMBER-best]:
    one whose original text contains a [+], at any position, if any of them
    does, and among those equal in that respect a longest one.  When the
    keys of the map start with the types of their entities, it is the only
    PHONE_NUMBER entity left.  Of ["555-1234"] and ["+1 555-123-4567"] the
    second is selected, in whichever order the two stand in the map. *)
Theorem phone_best_match :
  (forall text table,
     (1 < List.length (entities_of_type "PHONE_NUMBER" table))%nat ->
     exists w,
       JS.get "PHONE_NUMBER-best" (findBestMatch text "PHONE_NUMBER" table)
       = Some w
       /\ In w (entities_of_type "PHONE_NUMBER" table)
       /\ (forall e, In e (entities_of_type "PHONE_NUMBER" table) ->
             preferred has_plus w e)
       /\ (well_keyed table ->
           entities_of_type "PHONE_NUMBER"
             (findBestMatch text "PHONE_NUMBER" table) = [w]))
  /\
  (forall text table a b,
     original a = "555-1234" -> original b = "+1 555-123-4567" ->
     entities_of_type "PHONE_NUMBER" table = [a; b]
     \/ entities_of_type "PHONE_NUMBER" table = [b; a] ->
     JS.get "PHONE_NUMBER-best" (findBestMatch text "PHONE_NUMBER" table)
     = Some b).
Proof.
  assert (Hgeneral : forall text table,
     (1 < List.length (entities_of_type "PHONE_NUMBER" table))%nat ->
     exists w,
       JS.get "PHONE_NUMBER-best" (findBestMatch text "PHONE_NUMBER" table)
       = Some w
       /\ In w (entities_of_type "PHONE_NUMBER" table)
       /\ (forall e, In e (entities_of_type "PHONE_NUMBER" table) ->
             preferred has_plus w e)
       /\ (well_keyed table ->
           entities_of_type "PHONE_NUMBER"
             (findBestMatch text "PHONE_NUMBER" table) = [w])).
  { intros text table Hmany.
    destruct (findBestMatch_phone text table Hmany) as (w & rest & Hsort & ->).
    rewrite compare_phone_preferring in Hsort.
    apply sort_head_preferred in Hsort as [Hin Hbest].
    exists w. split; [apply get_set_same |].
    split; [exact Hin |]. split; [exact Hbest |].
    intros Hkeyed. apply (reduced_entities "PHONE_NUMBER"); [assumption |].
    now apply entities_of_type_all in Hin. }
  split; [exact Hgeneral |].
  intros text table a b Ha Hb Horder.
  destruct (Hgeneral text table) as (w & Hget & Hin & Hbest & _).
  { destruct Horder as [-> | ->]; simpl; lia. }
  rewrite Hget. f_equal.
  assert (Hplus : has_plus w = true).
  { apply (Hbest b).
    - destruct Horder as [-> | ->]; simpl; auto.
    - unfold has_plus. rewrite Hb. reflexivity. }
  assert (Hw : w = a \/ w = b).
  { destruct Horder as [Heq | Heq]; rewrite Heq in Hin; simpl in Hin;
      intuition. }
  destruct Hw as [-> | ->]; [| reflexivity].
  unfold has_plus in Hplus. rewrite Ha in Hplus. discriminate Hplus.
Qed.

Lemma phone_best_match_witness :
  (exists w,
     JS.get "PHONE_NUMBER-best"
       (findBestMatch "Call 555-1234 or +1 555-123-4567" "PHONE_NUMBER"
          phones_table) = Some w
     /\ In w (entities_of_type "PHONE_NUMBER" phones_table)
     /\ (forall e, In e (entities_of_type "PHONE_NUMBER" phones_table) ->
           preferred has_plus w e)
     /\ (well_keyed phones_table ->
         entities_of_type "PHONE_NUMBER"
           (findBestMatch "Call 555-1234 or +1 555-123-4567" "PHONE_NUMBER"
              phones_table) = [w]))
  /\
  JS.get "PHONE_NUMBER-best"
    (findBestMatch "Call 555-1234 or +1 555-123-4567" "PHONE_NUMBER"
       phones_table) = Some full_phone.
Proof.
  split.
  - apply (proj1 phone_best_match). vm_compute. lia.
  - apply (proj2 phone_best_match _ _ short_phone full_phone);
      [reflexivity | reflexivity |].
    right. reflexivity.
Defined.

(** C5.  When the map holds two or more PERSON entities, [findBestMatch]
    stores one of them under the key [PERSON-best]: one whose original text
    contains a space if any of them does, and among those equal in that
    respect a longest one.  When the keys of the map start with the types
    of their entities, it is the only PERSON entity left.  Of ["Doe"] and
    ["John Doe"] the second is selected, in whichever order the two stand
    in the map. *)
Theorem person_best_match :
  (forall text table,
     (1 < List.length (entities_of_type "PERSON" table))%nat ->
     exists w,
       JS.get "PERSON-best" (findBestMatch text "PERSON" table) = Some w
       /\ In w (entities_of_type "PERSON" table)
       /\ (forall e, In e (entities_of_type "PERSON" table) ->
             preferred has_space w e)
       /\ (well_keyed table ->
           entities_of_type "PERSON" (findBestMatch text "PERSON" table)
           = [w]))
  /\
  (forall text table a b,
     original a = "Doe" -> original b = "John Doe" ->
     entities_of_type "PERSON" table = [a; b]
     \/ entities_of_type "PERSON" table = [b; a] ->
     JS.get "PERSON-best" (findBestMatch text "PERSON" table) = Some b).
Proof.
  assert (Hgeneral : forall text table,
     (1 < List.length (entities_of_type "PERSON" table))%nat ->
     exists w,
       JS.get "PERSON-best" (findBestMatch text "PERSON" table) = Some w
       /\ In w (entities_of_type "PERSON" table)
       /\ (forall e, In e (entities_of_type "PERSON" table) ->
             preferred has_space w e)
       /\ (well_keyed table ->
           entities_of_type "PERSON" (findBestMatch text "PERSON" table)
           = [w])).
  { intros text table Hmany.
    destruct (findBestMatch_person text table Hmany) as (w & rest & Hsort & ->).
    rewrite compare_person_preferring in Hsort.
    apply sort_head_preferred in Hsort as [Hin Hbest].
    exists w. split; [apply get_set_same |].
    split; [exact Hin |]. split; [exact Hbest |].
    intros Hkeyed. apply (reduced_entities "PERSON"); [assumption |].
    now apply entities_of_type_all in Hin. }
  split; [exact Hgeneral |].
  intros text table a b Ha Hb Horder.
  destruct (Hgeneral text table) as (w & Hget & Hin & Hbest & _).
  { destruct Horder as [-> | ->]; simpl; lia. }
  rewrite Hget. f_equal.
  assert (Hspace : has_space w = true).
  { apply (Hbest b).
    - destruct Horder as [-> | ->]; simpl; auto.
    - unfold has_space. rewrite Hb. reflexivity. }
  assert (Hw : w = a \/ w = b).
  { destruct Horder as [Heq | Heq]; rewrite Heq in Hin; simpl in Hin;
      intuition. }
  destruct Hw as [-> | ->]; [| reflexivity].
  unfold has_space in Hspace. rewrite Ha in Hspace. discriminate Hspace.
Qed.

Lemma person_best_match_witness :
  (exists w,
     JS.get "PERSON-best"
       (findBestMatch "Doe, or John Doe" "PERSON" persons_table) = Some w
     /\ In w (entities_of_type "PERSON" persons_table)
     /\ (forall e, In e (entities_of_type "PERSON" persons_table) ->
           preferred has_space w e)
     /\ (well_keyed persons_table ->
         entities_of_type "PERSON"
           (findBestMatch "Doe, or John Doe" "PERSON" persons_table) = [w]))
  /\
  JS.get "PERSON-best"
    (findBestMatch "Doe, or John Doe" "PERSON" persons_table)
  = Some full_name.
Proof.
  split.
  - apply (proj1 person_best_match). vm_compute. lia.
  - apply (proj2 person_best_match _ _ last_name full_name);
      [reflexivity | reflexivity |].
    right. reflexivity.
Defined.

(** ** Invariants of the entity map *)

Lemma fold_left_invariant {A B} (P : A -> Prop) (f : A -> B -> A) l init :
  (forall acc x, P acc -> P (f acc x)) -> P init -> P (fold_left f l init).
Proof.
  intros Hstep. revert init.
  induction l as [| x l IH]; simpl; intros init Hinit; auto.
Qed.

Lemma In_set_other {V} k (v : V) k' v' (m : JS.map V) :
  k <> k' -> In (k, v) m -> In (k, v) (JS.set k' v' m).
Proof.
  intros Hne. induction m as [| [k0 v0] m IH]; simpl; [tauto |].
  destruct (String.eqb k' k0) eqn:E.
  - apply String.eqb_eq in E; subst k0.
    intros [[= <- <-] | Hin]; [congruence | now right].
  - intros [Heq | Hin]; [now left | right; auto].
Qed.

Lemma well_keyed_nil : well_keyed [].
Proof. intros key e []. Qed.

Lemma well_keyed_set key e table :
  JS.startsWith key (entityType e ++ "-") = true ->
  well_keyed table -> well_keyed (JS.set key e table).
Proof.
  intros Hkey Hkeyed key' e' Hin.
  apply In_set in Hin as [[-> ->] | Hin]; [assumption | eauto].
Qed.

Lemma well_keyed_clear_type c table :
  well_keyed table -> well_keyed (clear_type c table).
Proof.
  intros Hkeyed key e Hin. apply In_clear_type in Hin as [Hin _]. eauto.
Qed.

Lemma NoDup_keys_clear_type c (table : EntityMap) :
  NoDup (JS.keys table) -> NoDup (JS.keys (clear_type c table)).
Proof. unfold clear_type. apply NoDup_keys_delete_all. Qed.

(** The two outcomes of [findBestMatch]. *)
Lemma findBestMatch_cases text c table :
  findBestMatch text c table = table
  \/ exists w,
       In w (entities_of_type c table) /\
       (1 < List.length (entities_of_type c table))%nat /\
       (c = "PHONE_NUMBER" \/ c = "PERSON") /\
       findBestMatch text c table
       = JS.set (c ++ "-best") w (clear_type c table).
Proof.
  destruct (Nat.leb_spec (List.length (entities_of_type c table)) 1)
    as [Hfew | Hmany].
  - left. now apply findBestMatch_few.
  - destruct (String.eqb_spec c "PHONE_NUMBER") as [-> | Hphone].
    + right.
      destruct (findBestMatch_phone text table Hmany) as (w & rest & Hsort & ->).
      exists w. repeat split; auto.
      apply (In_sort compare_phone). rewrite Hsort. now left.
    + destruct (String.eqb_spec c "PERSON") as [-> | Hperson].
      * right.
        destruct (findBestMatch_person text table Hmany)
          as (w & rest & Hsort & ->).
        exists w. repeat split; auto.
        apply (In_sort compare_person). rewrite Hsort. now left.
      * left. unfold findBestMatch.
        apply String.eqb_neq in Hphone, Hperson. rewrite Hphone, Hperson.
        now destruct (_ <=? _)%nat.
Qed.

Lemma findBestMatch_well_keyed text c table :
  well_keyed table -> well_keyed (findBestMatch text c table).
Proof.
  intros Hkeyed.
  destruct (findBestMatch_cases text c table)
    as [-> | (w & Hin & _ & _ & ->)]; [assumption |].
  apply well_keyed_set; [| now apply well_keyed_clear_type].
  apply entities_of_type_all, is_of_type_eq in Hin. rewrite Hin.
  apply best_key_prefix.
Qed.

Lemma findBestMatch_NoDup text c (table : EntityMap) :
  NoDup (JS.keys table) -> NoDup (JS.keys (findBestMatch text c table)).
Proof.
  intros Hnd.
  destruct (findBestMatch_cases text c table)
    as [-> | (w & _ & _ & _ & ->)]; [assumption |].
  now apply NoDup_keys_set, NoDup_keys_clear_type.
Qed.

(** [findBestMatch] adds no entity that was not in the map. *)
Lemma findBestMatch_values text c table key e :
  In (key, e) (findBestMatch text c table) -> exists key', In (key', e) table.
Proof.
  destruct (findBestMatch_cases text c table)
    as [-> | (w & Hin & _ & _ & ->)]; [now exists key |].
  intros H. apply In_set in H as [[_ ->] | H].
  - now apply In_entities_of_type in Hin as [Hin _].
  - apply In_clear_type in H as [H _]. now exists key.
Qed.

(** Entities of a type whose keys cannot start with [`${c}-`] are left
    alone by [findBestMatch] on [c]. *)
Lemma findBestMatch_other_type text c c' table :
  well_keyed table ->
  c' <> c ->
  (forall key, JS.startsWith key (c' ++ "-") = true ->
               JS.startsWith key (c ++ "-") = false) ->
  entities_of_type c' (findBestMatch text c table) = entities_of_type c' table
  /\ forall key e, entityType e = c' ->
       (In (key, e) (findBestMatch text c table) <-> In (key, e) table).
Proof.
  intros Hkeyed Hne Hprefix.
  destruct (findBestMatch_cases text c table)
    as [-> | (w & Hin & _ & _ & ->)]; [split; [reflexivity | tauto] |].
  apply entities_of_type_all in Hin as Hw.
  split.
  - unfold entities_of_type.
    rewrite values_set_fresh by apply get_clear_type_best.
    unfold JS.values. rewrite map_app, filter_app. simpl.
    assert (Hw' : is_of_type c' w = false).
    { apply is_of_type_eq in Hw. unfold is_of_type. rewrite Hw.
      apply String.eqb_neq. congruence. }
    rewrite Hw', app_nil_r. rewrite clear_type_filter. clear Hin.
    induction table as [| [k e] table IH]; simpl; [reflexivity |].
    assert (Hkeyed' : well_keyed table).
    { intros k' e' Hin'. apply (Hkeyed k' e'). now right. }
    destruct (JS.startsWith k (c ++ "-")) eqn:E; simpl.
    + destruct (is_of_type c' e) eqn:E'; [| now apply IH].
      apply is_of_type_eq in E'.
      pose proof (Hkeyed k e (or_introl eq_refl)) as Hk.
      rewrite E' in Hk. apply Hprefix in Hk. congruence.
    + destruct (is_of_type c' e); [f_equal |]; now apply IH.
  - intros key e He. split.
    + intros H. apply In_set in H as [[_ ->] | H].
      * apply is_of_type_eq in Hw. congruence.
      * now apply In_clear_type in H as [H _].
    + intros H. apply In_set_other.
      * intros ->. pose proof (Hkeyed _ _ H) as Hk. rewrite He in Hk.
        apply Hprefix in Hk. now rewrite best_key_prefix in Hk.
      * apply In_clear_type. split; [assumption |].
        apply Hprefix. rewrite <- He. eauto.
Qed.

Lemma phone_key_not_person key :
  JS.startsWith key ("PHONE_NUMBER" ++ "-") = true ->
  JS.startsWith key ("PERSON" ++ "-") = false.
Proof.
  unfold JS.startsWith. intros H. apply prefix_split in H as [t ->].
  reflexivity.
Qed.

Lemma person_key_not_phone key :
  JS.startsWith key ("PERSON" ++ "-") = true ->
  JS.startsWith key ("PHONE_NUMBER" ++ "-") = false.
Proof.
  unfold JS.startsWith. intros H. apply prefix_split in H as [t ->].
  reflexivity.
Qed.

Lemma anonymized_value_nonempty anonymizedEntities entityType :
  anonymized_value anonymizedEntities entityType <> "".
Proof.
  unfold anonymized_value.
  destruct (JS.get entityType anonymizedEntities) as [[| c s] |]; discriminate.
Qed.

Lemma add_entity_cases text anonymizedEntities table entity :
  add_entity text anonymizedEntities table entity = table
  \/ exists e,
       entity_invariant text e /\
       entityType e = ar_entity_type entity /\
       start e = ar_start entity /\ end_ e = ar_end entity /\
       anonymized e
       = anonymized_value anonymizedEntities (ar_entity_type entity) /\
       add_entity text anonymizedEntities table entity
       = JS.set (entity_key (entityType e) (start e) (end_ e)) e table.
Proof.
  unfold add_entity.
  destruct (String.eqb (ar_entity_type entity) "PERSON"
            && (strlen (JS.substring text (ar_start entity) (ar_end entity))
                <? 3)) eqn:Hskip; [now left |].
  right. eexists (mkEntity _ _ _ _ _). simpl.
  repeat split; try reflexivity; try apply anonymized_value_nonempty.
  intros Hperson. simpl in Hperson. rewrite Hperson in Hskip. simpl in Hskip.
  apply Z.ltb_ge in Hskip. exact Hskip.
Qed.

Lemma fill_entity_map_invariant text anonymizedEntities processed table :
  (NoDup (JS.keys table) /\ well_keyed table
   /\ forall key e, In (key, e) table -> entity_invariant text e) ->
  let table' := fill_entity_map text anonymizedEntities processed table in
  NoDup (JS.keys table') /\ well_keyed table'
  /\ forall key e, In (key, e) table' -> entity_invariant text e.
Proof.
  intros H. unfold fill_entity_map.
  apply fold_left_invariant; [| exact H].
  clear. intros acc entity (Hnd & Hkeyed & Hinv).
  destruct (add_entity_cases text anonymizedEntities acc entity)
    as [-> | (e & He & _ & _ & _ & _ & ->)]; [auto |].
  split; [now apply NoDup_keys_set |].
  split; [apply well_keyed_set; [apply entity_key_prefix | assumption] |].
  intros key e' Hin. apply In_set in Hin as [[_ ->] | Hin]; eauto.
Qed.

Lemma before_reduction_invariant text items results :
  let table := before_reduction text items results in
  NoDup (JS.keys table) /\ well_keyed table
  /\ forall key e, In (key, e) table -> entity_invariant text e.
Proof.
  apply fill_entity_map_invariant.
  split; [constructor |]. split; [apply well_keyed_nil | intros ? ? []].
Qed.

Lemma buildEntityMapping_unfold text items results :
  buildEntityMapping text items results []
  = match items with
    | [] => []
    | _ =>
        findBestMatch text "PERSON"
          (findBestMatch text "PHONE_NUMBER"
             (before_reduction text items results))
    end.
Proof. destruct items; reflexivity. Qed.

Lemma buildEntityMapping_invariant text items results key e :
  In (key, e) (buildEntityMapping text items results []) ->
  entity_invariant text e.
Proof.
  rewrite buildEntityMapping_unfold. destruct items as [| it items]; [intros [] |].
  intros Hin.
  apply findBestMatch_values in Hin as [key1 Hin].
  apply findBestMatch_values in Hin as [key2 Hin].
  now apply (before_reduction_invariant text (it :: items) results) in Hin.
Qed.

(** C6.  A PERSON span whose slice of the text is shorter than three
    characters has no entity in the map [buildEntityMapping] builds,
    whether it was detected or not. *)
Theorem short_person_not_mapped text items results s e :
  strlen (JS.substring text s e) < 3 ->
  mapped_span "PERSON" s e (buildEntityMapping text items results []) = false.
Proof.
  intros Hshort. unfold mapped_span.
  destruct (existsb _ _) eqn:Hex; [| reflexivity].
  apply existsb_exists in Hex as (entity & Hin & Hentity).
  apply andb_true_iff in Hentity as [Hentity Hend].
  apply andb_true_iff in Hentity as [Htype Hstart].
  apply String.eqb_eq in Htype. apply Z.eqb_eq in Hstart, Hend.
  unfold JS.values in Hin. apply in_map_iff in Hin as ([key e'] & <- & Hin).
  apply buildEntityMapping_invariant in Hin as (Hslice & Hlong & _).
  simpl in *. specialize (Hlong Htype).
  rewrite Hslice, Hstart, Hend in Hlong. lia.
Qed.

Lemma short_person_not_mapped_witness :
  strlen (JS.substring "Al met John Doe here" 0 2) < 3
  /\ mapped_span "PERSON" 0 2
       (buildEntityMapping "Al met John Doe here"
          [ mkItem "PERSON" (Some "[PERSON]") ]
          [ mkAnalyzerResult "PERSON" 0 2 (85 # 100);
            mkAnalyzerResult "PERSON" 7 15 (85 # 100) ] [])
     = false.
Proof.
  assert (Hshort : strlen (JS.substring "Al met John Doe here" 0 2) < 3)
    by (vm_compute; reflexivity).
  split; [exact Hshort |].
  now apply short_person_not_mapped.
Defined.

(** C10.  When both calls succeed on a non-empty detection,
    [entitiesFound] is whether the entity map is non-empty after
    [buildEntityMapping], and the text returned is the anonymizer's.  So a
    text whose only detected span is a PERSON of two letters comes back
    anonymized, different from the input, with [entitiesFound = false]. *)
Theorem entitiesFound_is_map_nonempty :
  (forall env text table r rs data,
     analyze_request env text = Resolved (Some (r :: rs)) ->
     anonymize_request env text (r :: rs) = Resolved data ->
     exists table',
       anonymizeText env text table
       = (table', Return (mkResult (data_text data) (0 <? JS.size table')%nat))
       /\ table' = buildEntityMapping text (items_or_empty data) (r :: rs) [])
  /\
  (exists env text result,
     snd (anonymizeText env text []) = Return result
     /\ entitiesFound result = false
     /\ anonymizedText result <> text).
Proof.
  split.
  - intros env text table r rs data Hanalyze Hanonymize.
    eexists. split; [| reflexivity].
    now apply anonymizeText_resolved.
  - exists fragment_env, "Hi Al", (mkResult "Hi [PERSON]" false).
    split; [reflexivity |]. split; [reflexivity | discriminate].
Qed.

Lemma entitiesFound_is_map_nonempty_witness :
  exists table',
    anonymizeText fragment_env "Hi Al" []
    = (table',
       Return (mkResult "Hi [PERSON]" (0 <? JS.size table')%nat))
    /\ table'
       = buildEntityMapping "Hi Al" [ mkItem "PERSON" (Some "[PERSON]") ]
           [ mkAnalyzerResult "PERSON" 3 5 (85 # 100) ] [].
Proof.
  apply (proj1 entitiesFound_is_map_nonempty fragment_env "Hi Al" []
           (mkAnalyzerResult "PERSON" 3 5 (85 # 100)) []
           (mkData "Hi [PERSON]" (Some [ mkItem "PERSON" (Some "[PERSON]") ])));
    reflexivity.
Defined.

Lemma reduced_keys c w (table : EntityMap) key e :
  In (key, e) (JS.set (c ++ "-best") w (clear_type c table)) ->
  JS.startsWith key (c ++ "-") = true -> key = c ++ "-best".
Proof.
  intros Hin Hprefix. apply In_set in Hin as [[-> _] | Hin]; [reflexivity |].
  apply In_clear_type in Hin as [_ Hin]. congruence.
Qed.

(** Keys that cannot start with [`${c}-`] keep their entities. *)
Lemma findBestMatch_other_keys text c c' table key e :
  (forall k, JS.startsWith k (c' ++ "-") = true ->
             JS.startsWith k (c ++ "-") = false) ->
  JS.startsWith key (c' ++ "-") = true ->
  In (key, e) (findBestMatch text c table) <-> In (key, e) table.
Proof.
  intros Hprefix Hkey.
  destruct (findBestMatch_cases text c table)
    as [-> | (w & _ & _ & _ & ->)]; [tauto |].
  split.
  - intros H. apply In_set in H as [[-> _] | H].
    + apply Hprefix in Hkey. now rewrite best_key_prefix in Hkey.
    + now apply In_clear_type in H as [H _].
  - intros H. apply In_set_other.
    + intros ->. apply Hprefix in Hkey. now rewrite best_key_prefix in Hkey.
    + apply In_clear_type. auto.
Qed.

(** The reduction of one category, seen on the final map. *)
Lemma reduction_of_person text table :
  NoDup (JS.keys table) -> well_keyed table ->
  let table' := findBestMatch text "PERSON" table in
  (List.length (entities_of_type "PERSON" table') <= 1)%nat /\
  ((1 < List.length (entities_of_type "PERSON" table))%nat ->
   exists w,
     In w (entities_of_type "PERSON" table) /\
     entities_of_type "PERSON" table' = [w] /\
     JS.get "PERSON-best" table' = Some w /\
     forall key e, In (key, e) table' ->
       JS.startsWith key "PERSON-" = true -> key = "PERSON-best").
Proof.
  intros Hnd Hkeyed table'. subst table'.
  destruct (Nat.leb_spec (List.length (entities_of_type "PERSON" table)) 1)
    as [Hfew | Hmany].
  - rewrite findBestMatch_few by assumption. split; [assumption | lia].
  - destruct (findBestMatch_person text table Hmany) as (w & rest & Hsort & ->).
    assert (Hin : In w (entities_of_type "PERSON" table)).
    { apply (In_sort compare_person). rewrite Hsort. now left. }
    pose proof (reduced_entities "PERSON" w table Hkeyed
                  (entities_of_type_all _ _ _ Hin)) as Hone.
    change ("PERSON" ++ "-best") with "PERSON-best" in Hone.
    split; [rewrite Hone; simpl; lia |].
    intros _. exists w. repeat split; auto using get_set_same.
    intros key e. apply (reduced_keys "PERSON").
Qed.

Lemma reduction_of_phone text table :
  NoDup (JS.keys table) -> well_keyed table ->
  let table' := findBestMatch text "PHONE_NUMBER" table in
  (List.length (entities_of_type "PHONE_NUMBER" table') <= 1)%nat /\
  ((1 < List.length (entities_of_type "PHONE_NUMBER" table))%nat ->
   exists w,
     In w (entities_of_type "PHONE_NUMBER" table) /\
     entities_of_type "PHONE_NUMBER" table' = [w] /\
     JS.get "PHONE_NUMBER-best" table' = Some w /\
     forall key e, In (key, e) table' ->
       JS.startsWith key "PHONE_NUMBER-" = true -> key = "PHONE_NUMBER-best").
Proof.
  intros Hnd Hkeyed table'. subst table'.
  destruct (Nat.leb_spec
              (List.length (entities_of_type "PHONE_NUMBER" table)) 1)
    as [Hfew | Hmany].
  - rewrite findBestMatch_few by assumption. split; [assumption | lia].
  - destruct (findBestMatch_phone text table Hmany) as (w & rest & Hsort & ->).
    assert (Hin : In w (entities_of_type "PHONE_NUMBER" table)).
    { apply (In_sort compare_phone). rewrite Hsort. now left. }
    pose proof (reduced_entities "PHONE_NUMBER" w table Hkeyed
                  (entities_of_type_all _ _ _ Hin)) as Hone.
    change ("PHONE_NUMBER" ++ "-best") with "PHONE_NUMBER-best" in Hone.
    split; [rewrite Hone; simpl; lia |].
    intros _. exists w. repeat split; auto using get_set_same.
    intros key e. apply (reduced_keys "PHONE_NUMBER").
Qed.

(** The map [buildEntityMapping] builds from the empty map, before and
    after the two reductions. *)
Lemma buildEntityMapping_reduced text items results :
  let table := buildEntityMapping text items results [] in
  let before := before_reduction text items results in
  NoDup (JS.keys table) /\
  forall c, c = "PERSON" \/ c = "PHONE_NUMBER" ->
    (List.length (entities_of_type c table) <= 1)%nat /\
    (items <> [] ->
     (1 < List.length (entities_of_type c before))%nat ->
     exists w,
       In w (entities_of_type c before) /\
       entities_of_type c table = [w] /\
       JS.get (c ++ "-best") table = Some w /\
       (forall key e, In (key, e) table ->
          JS.startsWith key (c ++ "-") = true -> key = c ++ "-best") /\
       (forall s e, JS.has (entity_key c s e) table = false)).
Proof.
  intros table before. subst table.
  rewrite buildEntityMapping_unfold.
  destruct items as [| it items].
  { split; [constructor |]. intros c _. split; [simpl; lia | congruence]. }
  fold before.
  destruct (before_reduction_invariant text (it :: items) results)
    as (Hnd & Hkeyed & _).
  fold before in Hnd, Hkeyed.
  set (table1 := findBestMatch text "PHONE_NUMBER" before).
  assert (Hnd1 : NoDup (JS.keys table1)) by now apply findBestMatch_NoDup.
  assert (Hkeyed1 : well_keyed table1) by now apply findBestMatch_well_keyed.
  set (table2 := findBestMatch text "PERSON" table1).
  assert (Hnd2 : NoDup (JS.keys table2)) by now apply findBestMatch_NoDup.
  assert (Hpositional : forall c s e,
            (forall key e', In (key, e') table2 ->
               JS.startsWith key (c ++ "-") = true -> key = c ++ "-best") ->
            JS.has (entity_key c s e) table2 = false).
  { intros c s e Hkeys. unfold JS.has.
    destruct (JS.get (entity_key c s e) table2) as [e' |] eqn:Hget;
      [| reflexivity].
    apply get_Some_In, Hkeys in Hget; [| apply entity_key_prefix].
    now apply entity_key_not_best in Hget. }
  split; [exact Hnd2 |].
  intros c [-> | ->].
  - (* PERSON: reduced last *)
    destruct (findBestMatch_other_type text "PHONE_NUMBER" "PERSON" before)
      as [Hsame _]; [assumption | discriminate | apply person_key_not_phone |].
    fold table1 in Hsame.
    destruct (reduction_of_person text table1 Hnd1 Hkeyed1) as [Hone Hbest].
    fold table2 in Hone, Hbest. split; [exact Hone |].
    intros _ Hmany. rewrite <- Hsame in Hmany.
    destruct (Hbest Hmany) as (w & Hin & Hw & Hget & Hkeys).
    exists w. rewrite <- Hsame. repeat split; auto.
  - (* PHONE_NUMBER: reduced first, then left alone *)
    destruct (findBestMatch_other_type text "PERSON" "PHONE_NUMBER" table1)
      as [Hsame _]; [assumption | discriminate | apply phone_key_not_person |].
    fold table2 in Hsame.
    destruct (reduction_of_phone text before Hnd Hkeyed) as [Hone Hbest].
    fold table1 in Hone, Hbest. rewrite <- Hsame in Hone.
    split; [exact Hone |].
    intros _ Hmany.
    destruct (Hbest Hmany) as (w & Hin & Hw & Hget & Hkeys).
    assert (Hkeys2 : forall key e, In (key, e) table2 ->
              JS.startsWith key ("PHONE_NUMBER" ++ "-") = true ->
              key = "PHONE_NUMBER" ++ "-best").
    { intros key e Hin2 Hprefix. apply (Hkeys key e); [| exact Hprefix].
      exact (proj1 (findBestMatch_other_keys text "PERSON" "PHONE_NUMBER"
                      table1 key e phone_key_not_person Hprefix) Hin2). }
    exists w. rewrite Hsame. repeat split; auto.
    apply In_get; [exact Hnd2 |].
    apply (proj2 (findBestMatch_other_keys text "PERSON" "PHONE_NUMBER"
                      table1 "PHONE_NUMBER-best" w phone_key_not_person
                      eq_refl)).
      now apply get_Some_In.
Qed.

(** The entity map [anonymizeText] leaves behind is empty or the one
    [buildEntityMapping] builds from the empty map. *)
Lemma anonymizeText_table env text table0 :
  fst (anonymizeText env text table0) = []
  \/ exists items results,
       fst (anonymizeText env text table0)
       = buildEntityMapping text items results [].
Proof.
  destruct (analyze_request env text) as [[[| r rs] |] | message] eqn:Hanalyze.
  - left. erewrite anonymizeText_no_detection; eauto.
  - destruct (anonymize_request env text (r :: rs)) as [data | message]
      eqn:Hanonymize.
    + right. exists (items_or_empty data), (r :: rs).
      now rewrite (anonymizeText_resolved _ _ _ _ _ _ Hanalyze Hanonymize).
    + left.
      now rewrite (anonymizeText_anonymizer_rejected _ _ _ _ _ _
                     Hanalyze Hanonymize).
  - left. erewrite anonymizeText_no_detection; eauto.
  - left. now rewrite (anonymizeText_analyzer_rejected _ _ _ _ Hanalyze).
Qed.

(** C9.  The entity map [anonymizeText] leaves behind has no key twice and
    at most one PERSON and one PHONE_NUMBER entity.  It is built by
    [buildEntityMapping] from the empty map; when the construction loop of
    that function left more than one entity of such a category, the one
    entity of the category in the final map is one of them, it is stored
    under [`${category}-best`], and no other key of the final map starts
    with [`${category}-`]: no positional key of the category is left. *)
Theorem mapping_table_invariant :
  (forall env text table0,
     let table := fst (anonymizeText env text table0) in
     NoDup (JS.keys table) /\
     forall c, c = "PERSON" \/ c = "PHONE_NUMBER" ->
       (List.length (entities_of_type c table) <= 1)%nat)
  /\
  (forall text items results c,
     let table := buildEntityMapping text items results [] in
     let before := before_reduction text items results in
     c = "PERSON" \/ c = "PHONE_NUMBER" ->
     items <> [] ->
     (1 < List.length (entities_of_type c before))%nat ->
     exists w,
       In w (entities_of_type c before) /\
       entities_of_type c table = [w] /\
       JS.get (c ++ "-best") table = Some w /\
       (forall key e, In (key, e) table ->
          JS.startsWith key (c ++ "-") = true -> key = c ++ "-best") /\
       (forall s e, JS.has (entity_key c s e) table = false)).
Proof.
  split.
  - intros env text table0 table. subst table.
    destruct (anonymizeText_table env text table0)
      as [-> | (items & results & ->)].
    + split; [constructor | intros c _; simpl; lia].
    + destruct (buildEntityMapping_reduced text items results) as [Hnd Hc].
      split; [exact Hnd |]. intros c Hreduced. now apply Hc.
  - intros text items results c table before Hreduced Hitems Hmany.
    destruct (buildEntityMapping_reduced text items results) as [_ Hc].
    now apply Hc.
Qed.

Lemma mapping_table_invariant_witness :
  let text := "Doe, or John Doe" in
  let items := [ mkItem "PERSON" (Some "[PERSON]") ] in
  let results :=
    [ mkAnalyzerResult "PERSON" 0 3 (85 # 100);
      mkAnalyzerResult "PERSON" 8 16 (85 # 100) ] in
  let table := buildEntityMapping text items results [] in
  exists w,
    In w (entities_of_type "PERSON" (before_reduction text items results)) /\
    entities_of_type "PERSON" table = [w] /\
    JS.get "PERSON-best" table = Some w /\
    (forall key e, In (key, e) table ->
       JS.startsWith key "PERSON-" = true -> key = "PERSON-best") /\
    (forall s e, JS.has (entity_key "PERSON" s e) table = false).
Proof.
  intros text items results table.
  apply (proj2 mapping_table_invariant text items results "PERSON");
    [now left | discriminate | vm_compute; lia].
Defined.

(** ** Replacement with an escaped pattern *)

Lemma literal_pattern_escapeRegExp (p : string) :
  JS.literal_pattern (JS.escapeRegExp p) = Some p.
Proof.
  induction p as [| c p IH]; [reflexivity |].
  cbn [JS.escapeRegExp].
  destruct (JS.is_syntax_char c) eqn:Hsyntax.
  - cbn [JS.literal_pattern]. change (Ascii.eqb "\" "\") with true.
    cbv iota. now rewrite Hsyntax, IH.
  - cbn [JS.literal_pattern].
    destruct (Ascii.eqb c "\") eqn:Hback.
    + apply Ascii.eqb_eq in Hback. subst c. discriminate Hsyntax.
    + now rewrite Hsyntax, IH.
Qed.

(** A replacement text without a dollar sign stands for itself. *)
Lemma getSubstitution_plain matched before after replacement :
  free_of "$" replacement = true ->
  JS.getSubstitution matched before after replacement = replacement.
Proof.
  induction replacement as [| c r IH]; [reflexivity |].
  cbn [free_of JS.getSubstitution]. intros H.
  apply andb_true_iff in H as [Hc Hr]. apply negb_true_iff in Hc.
  rewrite Hc. now rewrite IH.
Qed.

Lemma replace_scan_step pat r before c s :
  String.prefix pat (String c s) = false ->
  JS.replace_scan pat r before 0 (String c s)
  = String c (JS.replace_scan pat r (before ++ String c "") 0 s).
Proof. intros H. cbn [JS.replace_scan]. now rewrite H. Qed.

Lemma replace_scan_skip pat r before (x s : string) :
  JS.replace_scan pat r before (String.length x) (x ++ s)
  = JS.replace_scan pat r (before ++ x) 0 s.
Proof.
  revert before. induction x as [| c x IH]; intros before.
  - cbn [String.length append]. rewrite append_empty_r.
    now destruct s.
  - cbn [String.length append JS.replace_scan]. rewrite IH.
    now rewrite append_assoc.
Qed.

(** At a match the substitution is emitted and the scan resumes after it. *)
Lemma replace_scan_match pat r before s :
  pat <> "" ->
  JS.replace_scan pat r before 0 (pat ++ s)
  = JS.getSubstitution pat before s r
    ++ JS.replace_scan pat r (before ++ pat) 0 s.
Proof.
  intros Hne. destruct pat as [| c pat]; [congruence |].
  change (String c pat ++ s) with (String c (pat ++ s)).
  cbn [JS.replace_scan].
  change (String c (pat ++ s)) with (String c pat ++ s).
  rewrite prefix_append, drop_append.
  cbn [String.length Nat.pred]. rewrite replace_scan_skip.
  now rewrite append_assoc.
Qed.

(** A stretch in which the pattern matches nowhere is copied. *)
Lemma replace_scan_copy pat r (x : string) : forall before s,
  (forall u v, x = u ++ v -> v <> "" -> String.prefix pat (v ++ s) = false) ->
  JS.replace_scan pat r before 0 (x ++ s)
  = x ++ JS.replace_scan pat r (before ++ x) 0 s.
Proof.
  induction x as [| c x IH]; intros before s Hfree.
  - cbn [append]. now rewrite append_empty_r.
  - change (String c x ++ s) with (String c (x ++ s)).
    rewrite replace_scan_step.
    + rewrite IH.
      * now rewrite append_assoc.
      * intros u v -> Hv. apply (Hfree (String c u) v); [reflexivity | exact Hv].
    + apply (Hfree "" (String c x)); [reflexivity | discriminate].
Qed.

Lemma replace_scan_nil pat r before :
  JS.replace_scan pat r before 0 "" = "".
Proof. reflexivity. Qed.

Lemma replace_regexp_escaped pat r s :
  pat <> "" ->
  JS.replace_regexp (JS.escapeRegExp pat) r s = JS.replace_scan pat r "" 0 s.
Proof.
  intros Hne. unfold JS.replace_regexp. rewrite literal_pattern_escapeRegExp.
  destruct pat; [congruence | reflexivity].
Qed.

(** ** Bracketed placeholders *)

Lemma free_of_append c (a b : string) :
  free_of c (a ++ b) = free_of c a && free_of c b.
Proof.
  induction a as [| d a IH]; [reflexivity |].
  cbn [append free_of]. rewrite IH. apply andb_assoc.
Qed.

Lemma prefix_nil (s : string) : String.prefix "" s = true.
Proof. now destruct s. Qed.

Lemma prefix_append_r (p v y : string) :
  String.prefix p v = true -> String.prefix p (v ++ y) = true.
Proof.
  intros H. apply prefix_split in H as [t ->].
  rewrite append_assoc. apply prefix_append.
Qed.

Lemma bracketed_open p :
  bracketed p -> exists q, p = String "[" q /\ free_of "[" q = true.
Proof.
  intros (body & -> & Hopen & _). exists (body ++ "]"). split; [reflexivity |].
  rewrite free_of_append, Hopen. reflexivity.
Qed.

Lemma bracketed_nonempty p : bracketed p -> p <> "".
Proof. intros (body & -> & _). discriminate. Qed.

Lemma prefix_wrong_start c q d s :
  Ascii.eqb d c = false -> String.prefix (String c q) (String d s) = false.
Proof.
  intros H. rewrite prefix_cons, Ascii.eqb_sym, H. reflexivity.
Qed.

(** The body of a bracketed pattern ends where the first closing bracket
    of the text is. *)
Lemma closing_bracket_decides (b1 : string) : forall b2 s,
  free_of "]" b1 = true -> free_of "]" b2 = true ->
  String.prefix (b1 ++ "]") ((b2 ++ "]") ++ s) = true -> b1 = b2.
Proof.
  induction b1 as [| c b1 IH]; intros [| d b2] s H1 H2 Hprefix.
  - reflexivity.
  - cbn [append] in Hprefix. rewrite prefix_cons in Hprefix.
    cbn [free_of] in H2. apply andb_true_iff in H2 as [Hd _].
    apply negb_true_iff in Hd. rewrite Ascii.eqb_sym, Hd in Hprefix.
    discriminate Hprefix.
  - cbn [append] in Hprefix. rewrite prefix_cons in Hprefix.
    cbn [free_of] in H1. apply andb_true_iff in H1 as [Hc _].
    apply negb_true_iff in Hc. rewrite Hc in Hprefix. discriminate Hprefix.
  - cbn [append] in Hprefix. rewrite prefix_cons in Hprefix.
    apply andb_true_iff in Hprefix as [Hcd Hprefix].
    apply Ascii.eqb_eq in Hcd. subst d.
    cbn [free_of] in H1, H2.
    apply andb_true_iff in H1 as [_ H1]. apply andb_true_iff in H2 as [_ H2].
    f_equal. now apply (IH b2 s).
Qed.

(** A bracketed pattern matches at the start of a bracketed placeholder
    only if it is that placeholder. *)
Lemma bracketed_prefix_eq p q s :
  bracketed p -> bracketed q ->
  String.prefix p (q ++ s) = true -> p = q.
Proof.
  intros (b1 & -> & _ & H1) (b2 & -> & _ & H2) Hprefix.
  cbn [append] in Hprefix. rewrite prefix_cons in Hprefix.
  apply andb_true_iff in Hprefix as [_ Hprefix].
  f_equal. f_equal. now apply (closing_bracket_decides b1 b2 s).
Qed.

Lemma free_of_suffix c (u v : string) :
  free_of c (u ++ v) = true -> free_of c v = true.
Proof.
  rewrite free_of_append. intros H. now apply andb_true_iff in H as [_ H].
Qed.

(** A bracketed pattern does not match inside a bracketed placeholder. *)
Lemma bracketed_no_inner_match p q u v s :
  bracketed p -> bracketed q -> p <> q ->
  q = u ++ v -> v <> "" -> String.prefix p (v ++ s) = false.
Proof.
  intros Hp Hq Hne Hsplit Hv.
  destruct u as [| c u].
  - cbn [append] in Hsplit. subst v.
    destruct (String.prefix p (q ++ s)) eqn:E; [| reflexivity].
    now apply bracketed_prefix_eq in E.
  - apply bracketed_open in Hp as (p' & -> & _).
    apply bracketed_open in Hq as (q' & -> & Hq').
    cbn [append] in Hsplit. injection Hsplit as _ Hsplit. subst q'.
    apply free_of_suffix in Hq'.
    destruct v as [| d v]; [congruence |].
    cbn [free_of] in Hq'. apply andb_true_iff in Hq' as [Hd _].
    apply negb_true_iff in Hd.
    change (String d v ++ s) with (String d (v ++ s)).
    now apply prefix_wrong_start.
Qed.

(** A pattern without an opening bracket that matches up to an opening
    bracket matches before it. *)
Lemma prefix_stops_at_bracket (v : string) : forall p x,
  free_of "[" p = true ->
  String.prefix p (v ++ String "[" x) = true -> String.prefix p v = true.
Proof.
  induction v as [| b v IH]; intros [| a p] x Hfree Hprefix;
    try reflexivity.
  - cbn [append] in Hprefix. rewrite prefix_cons in Hprefix.
    cbn [free_of] in Hfree. apply andb_true_iff in Hfree as [Ha _].
    apply negb_true_iff in Ha. rewrite Ha in Hprefix. discriminate Hprefix.
  - change (String b v ++ String "[" x) with (String b (v ++ String "[" x))
      in Hprefix.
    rewrite prefix_cons in *.
    apply andb_true_iff in Hprefix as [Hab Hprefix]. rewrite Hab.
    cbn [free_of] in Hfree. apply andb_true_iff in Hfree as [_ Hfree].
    now apply (IH p x).
Qed.

(** Such a pattern matches the anonymized text only where it matches the
    original text. *)
Lemma prefix_through_chunks (rest : list chunk) : forall v p,
  free_of "[" p = true ->
  (forall q o, In (q, o) (held_placeholders rest) -> bracketed q) ->
  String.prefix p (v ++ anonymized_of rest) = true ->
  String.prefix p (v ++ original_of rest) = true.
Proof.
  induction rest as [| [l | q o] rest IH]; intros v p Hfree Hheld Hprefix.
  - exact Hprefix.
  - cbn [anonymized_of original_of] in *.
    rewrite <- append_assoc in *. now apply IH.
  - cbn [anonymized_of original_of] in *.
    destruct (bracketed_open q) as (q' & -> & _).
    { apply (Hheld _ o). now left. }
    apply prefix_append_r.
    now apply (prefix_stops_at_bracket v p (q' ++ anonymized_of rest)).
Qed.

(** ** Restoration of a chunked text *)

Lemma includes_false_append_r (a b needle : string) :
  JS.includes (a ++ b) needle = false -> JS.includes b needle = false.
Proof.
  intros H. destruct (JS.includes b needle) eqn:E; [| reflexivity].
  now rewrite includes_append_r in H.
Qed.

Lemma includes_false_no_prefix (u v needle : string) :
  JS.includes (u ++ v) needle = false -> String.prefix needle v = false.
Proof.
  intros H. apply includes_false_append_r in H.
  rewrite includes_unfold in H. now apply orb_false_iff in H as [H _].
Qed.

(** One replacement: every chunk held by the pattern gets its original
    value back, and nothing else changes. *)
Lemma replace_scan_chunks p o (chunks : list chunk) : forall before,
  bracketed p ->
  free_of "$" o = true ->
  (forall q o', In (q, o') (held_placeholders chunks) ->
     bracketed q /\ (q = p -> o' = o)) ->
  JS.includes (original_of chunks) p = false ->
  JS.replace_scan p o before 0 (anonymized_of chunks)
  = anonymized_of (List.map (restore_chunk p) chunks).
Proof.
  intros before Hp Ho. revert before.
  induction chunks as [| [l | q o'] rest IH]; intros before Hheld Hfresh.
  - reflexivity.
  - cbn [anonymized_of original_of List.map restore_chunk] in *.
    rewrite replace_scan_copy.
    + f_equal. apply IH; [exact Hheld |].
      now apply includes_false_append_r in Hfresh.
    + intros u v -> Hv.
      destruct (String.prefix p (v ++ anonymized_of rest)) eqn:E;
        [| reflexivity].
      destruct (bracketed_open p Hp) as (p' & -> & Hp').
      destruct v as [| d v]; [congruence |].
      change (String d v ++ anonymized_of rest)
        with (String d (v ++ anonymized_of rest)) in E.
      rewrite prefix_cons in E. apply andb_true_iff in E as [Hd E].
      apply (prefix_through_chunks rest v p' Hp') in E;
        [| intros q o' Hin; now apply (Hheld q o')].
      rewrite append_assoc in Hfresh.
      apply includes_false_no_prefix in Hfresh.
      change (String d v ++ original_of rest)
        with (String d (v ++ original_of rest)) in Hfresh.
      rewrite prefix_cons, Hd, E in Hfresh. discriminate Hfresh.
  - cbn [anonymized_of original_of List.map restore_chunk] in *.
    assert (Hrest : forall q0 o0, In (q0, o0) (held_placeholders rest) ->
                      bracketed q0 /\ (q0 = p -> o0 = o)).
    { intros q0 o0 Hin. apply Hheld. cbn [held_placeholders flat_map].
      now right. }
    destruct (Hheld q o') as [Hq Hsame];
      [cbn [held_placeholders flat_map]; now left |].
    apply includes_false_append_r in Hfresh.
    destruct (String.eqb_spec q p) as [-> | Hne].
    + rewrite (Hsame eq_refl).
      rewrite replace_scan_match by now apply bracketed_nonempty.
      rewrite getSubstitution_plain by exact Ho.
      cbn [anonymized_of]. f_equal. now apply IH.
    + rewrite replace_scan_copy.
      * cbn [anonymized_of]. f_equal. now apply IH.
      * intros u v Hsplit Hv.
        apply (bracketed_no_inner_match p q u v); auto.
Qed.

Lemma original_of_restore p chunks :
  original_of (List.map (restore_chunk p) chunks) = original_of chunks.
Proof.
  induction chunks as [| [l | q o] rest IH]; cbn [List.map original_of
    restore_chunk]; [reflexivity | now rewrite IH |].
  destruct (String.eqb q p); cbn [original_of]; now rewrite IH.
Qed.

Lemma held_placeholders_restore p chunks :
  held_placeholders (List.map (restore_chunk p) chunks)
  = filter (fun qo => negb (String.eqb (fst qo) p)) (held_placeholders chunks).
Proof.
  induction chunks as [| [l | q o] rest IH];
    cbn [List.map held_placeholders flat_map restore_chunk app];
    [reflexivity | exact IH |].
  fold (held_placeholders (List.map (restore_chunk p) rest)).
  fold (held_placeholders rest).
  cbn [filter fst].
  destruct (String.eqb q p); cbn [negb held_placeholders flat_map app];
    [exact IH |].
  fold (held_placeholders (List.map (restore_chunk p) rest)).
  now rewrite IH.
Qed.

Lemma nothing_held chunks :
  held_placeholders chunks = [] -> anonymized_of chunks = original_of chunks.
Proof.
  induction chunks as [| [l | q o] rest IH];
    cbn [held_placeholders flat_map app anonymized_of original_of];
    [reflexivity | | discriminate].
  intros H. now rewrite IH.
Qed.

(** ** Slices of a text *)

Lemma substring_take_drop (n m : nat) (s : string) :
  String.substring n m s = take m (JS.drop n s).
Proof.
  revert m s. induction n as [| n IH]; intros m s.
  - cbn [JS.drop]. revert s. induction m as [| m IHm]; intros [| c s];
      cbn [String.substring take]; try reflexivity.
    now rewrite IHm.
  - destruct s as [| c s]; cbn [String.substring JS.drop].
    + now destruct m.
    + apply IH.
Qed.

Lemma take_drop (n : nat) (s : string) : take n s ++ JS.drop n s = s.
Proof.
  revert s. induction n as [| n IH]; intros [| c s]; cbn [take JS.drop append];
    try reflexivity.
  now rewrite IH.
Qed.

Lemma take_all (n : nat) (s : string) :
  (String.length s <= n)%nat -> take n s = s.
Proof.
  revert s. induction n as [| n IH]; intros [| c s] H; cbn [take];
    try reflexivity.
  - simpl in H. lia.
  - simpl in H. rewrite IH; [reflexivity | lia].
Qed.

Lemma drop_drop (n m : nat) (s : string) :
  JS.drop m (JS.drop n s) = JS.drop (n + m) s.
Proof.
  revert s. induction n as [| n IH]; intros s; [reflexivity |].
  destruct s as [| c s]; cbn [JS.drop Nat.add].
  - now destruct m.
  - apply IH.
Qed.

Lemma take_add (n m : nat) (s : string) :
  take (n + m) s = take n s ++ take m (JS.drop n s).
Proof.
  revert s. induction n as [| n IH]; intros s; [reflexivity |].
  destruct s as [| c s]; cbn [JS.drop Nat.add take append].
  - now destruct m.
  - now rewrite IH.
Qed.

Lemma length_drop (n : nat) (s : string) :
  String.length (JS.drop n s) = (String.length s - n)%nat.
Proof.
  revert s. induction n as [| n IH]; intros [| c s]; cbn [JS.drop];
    try reflexivity; simpl; try lia.
  apply IH.
Qed.

(** Within bounds and in order, [substring] is a plain slice. *)
Lemma substring_in_bounds text a b :
  0 <= a <= b -> b <= strlen text ->
  JS.substring text a b
  = take (Z.to_nat (b - a)) (JS.drop (Z.to_nat a) text).
Proof.
  intros Hab Hb. unfold JS.substring, JS.clamp. fold (strlen text).
  rewrite substring_take_drop.
  replace (Z.min (Z.min (Z.max a 0) (strlen text))
             (Z.min (Z.max b 0) (strlen text))) with a by lia.
  replace (Z.max (Z.min (Z.max a 0) (strlen text))
             (Z.min (Z.max b 0) (strlen text))) with b by lia.
  reflexivity.
Qed.

Lemma substring_split text a b c :
  0 <= a <= b -> b <= c -> c <= strlen text ->
  JS.substring text a b ++ JS.substring text b c = JS.substring text a c.
Proof.
  intros Hab Hbc Hc.
  rewrite !substring_in_bounds by lia.
  replace (Z.to_nat (c - a))
    with (Z.to_nat (b - a) + Z.to_nat (c - b))%nat by lia.
  rewrite take_add, drop_drop.
  repeat f_equal. lia.
Qed.

Lemma substring_to_end text :
  JS.substring text 0 (strlen text) = text.
Proof.
  rewrite substring_in_bounds by (unfold strlen; lia).
  cbn [Z.to_nat JS.drop]. apply take_all. unfold strlen. lia.
Qed.

Lemma anonymized_of_chunks text spans : forall cursor,
  anonymized_of (chunks_of text cursor spans)
  = substitute_spans text cursor spans.
Proof.
  induction spans as [| span rest IH]; intros cursor;
    cbn [chunks_of anonymized_of substitute_spans].
  - apply append_empty_r.
  - now rewrite IH.
Qed.

Lemma original_of_chunks text spans : forall cursor,
  0 <= cursor -> spans_ordered cursor spans (strlen text) ->
  original_of (chunks_of text cursor spans)
  = JS.substring text cursor (strlen text).
Proof.
  induction spans as [| span rest IH]; intros cursor Hcursor Hordered;
    cbn [chunks_of original_of spans_ordered] in *.
  - apply append_empty_r.
  - destruct Hordered as (Hstart & Hend & Hrest).
    assert (Hlen : ar_end span <= strlen text).
    { clear IH Hstart Hend Hcursor. revert Hrest.
      generalize (ar_end span). induction rest as [| r rest IHr];
        cbn [spans_ordered]; intros z H; [exact H |].
      destruct H as (H1 & H2 & H3). apply IHr in H3. lia. }
    rewrite IH by (assumption || lia).
    rewrite substring_split by lia.
    apply substring_split; lia.
Qed.

Lemma held_placeholders_chunks text spans : forall cursor,
  held_placeholders (chunks_of text cursor spans)
  = List.map
      (fun span =>
         (configured_placeholder (ar_entity_type span),
          JS.substring text (ar_start span) (ar_end span)))
      spans.
Proof.
  induction spans as [| span rest IH]; intros cursor; [reflexivity |].
  cbn [chunks_of held_placeholders flat_map app List.map].
  f_equal. apply IH.
Qed.

(** Restoring every entity of a list, in any order, gives the original
    text back when each placeholder still held belongs to an entity of the
    list, the placeholders are bracketed and distinct, none of them occurs
    in the original text, and no original value has a dollar sign. *)
Lemma restore_entities (es : list SensitiveEntity) : forall chunks,
  (forall e, In e es ->
     bracketed (anonymized e) /\ free_of "$" (original e) = true
     /\ JS.includes (original_of chunks) (anonymized e) = false) ->
  (forall q o, In (q, o) (held_placeholders chunks) ->
     bracketed q
     /\ (forall e, In e es -> anonymized e = q -> original e = o)
     /\ exists e, In e es /\ anonymized e = q) ->
  fold_left restore_entity es (anonymized_of chunks) = original_of chunks.
Proof.
  induction es as [| e es IH]; intros chunks Hes Hheld.
  - cbn [fold_left]. apply nothing_held.
    destruct (held_placeholders chunks) as [| [q o] held]; [reflexivity |].
    destruct (Hheld q o (or_introl eq_refl)) as (_ & _ & e & [] & _).
  - cbn [fold_left]. unfold restore_entity at 2.
    destruct (Hes e (or_introl eq_refl)) as (Hp & Ho & Hfresh).
    rewrite replace_regexp_escaped by now apply bracketed_nonempty.
    rewrite replace_scan_chunks; try assumption.
    + rewrite <- (original_of_restore (anonymized e) chunks).
      apply IH.
      * intros e' He'. rewrite original_of_restore. apply Hes. now right.
      * intros q o. rewrite held_placeholders_restore, filter_In.
        cbn [fst]. intros [Hin Hne].
        apply negb_true_iff, String.eqb_neq in Hne.
        destruct (Hheld q o Hin) as (Hq & Hsame & e' & He' & Heq).
        split; [exact Hq |]. split.
        -- intros e0 He0. apply Hsame. now right.
        -- exists e'. split; [| exact Heq].
           destruct He' as [<- | He']; [congruence | exact He'].
    + intros q o' Hin. destruct (Hheld q o' Hin) as (Hq & Hsame & _).
      split; [exact Hq |]. intros Heq. symmetry.
      apply Hsame; [now left | now symmetry].
Qed.

(** ** Categories with a literal replacement *)

Lemma closes_sound (s : string) :
  closes s = true ->
  exists body,
    s = body ++ "]" /\ free_of "[" body = true /\ free_of "]" body = true.
Proof.
  induction s as [| c s IH]; [discriminate |].
  cbn [closes]. destruct s as [| d s].
  - intros H. apply Ascii.eqb_eq in H. subst c. now exists "".
  - intros H. apply andb_true_iff in H as [H Hcloses].
    apply andb_true_iff in H as [Hopen Hclose].
    destruct (IH Hcloses) as (body & Hbody & H1 & H2).
    exists (String c body). rewrite Hbody.
    cbn [free_of append]. now rewrite Hopen, Hclose, H1, H2.
Qed.

Lemma is_bracketed_sound p : is_bracketed p = true -> bracketed p.
Proof.
  destruct p as [| c s]; [discriminate |]. cbn [is_bracketed].
  intros H. apply andb_true_iff in H as [Hc Hs].
  apply Ascii.eqb_eq in Hc. subst c.
  destruct (closes_sound s Hs) as (body & -> & H1 & H2).
  now exists body.
Qed.

Lemma literal_placeholder_categories c :
  literal_placeholder c <> None -> In c literal_categories.
Proof.
  unfold literal_placeholder, buildAnonymizersConfig. cbn [JS.get].
  repeat match goal with
         | |- context [String.eqb c ?k] =>
             destruct (String.eqb_spec c k) as [-> | _];
             [ cbn; solve [ intros _; tauto | intros H; congruence ] | ]
         end.
  intros H. congruence.
Qed.

Lemma literal_category_facts c :
  In c literal_categories ->
  free_of "-" c = true
  /\ bracketed (configured_placeholder c)
  /\ forall it,
       item_entity_type it = c -> item_text it = literal_placeholder c ->
       placeholder_of_item it = configured_placeholder c.
Proof.
  intros H. cbn in H.
  repeat (destruct H as [<- | H];
          [ split; [reflexivity |];
            split; [now apply is_bracketed_sound |];
            intros [type text]; cbn; intros -> ->; reflexivity | ]).
  contradiction.
Qed.

(** ** [buildEntityMapping] on spans of distinct categories *)

Lemma dash_decides (c : string) : forall c' x y,
  free_of "-" c = true -> free_of "-" c' = true ->
  c ++ String "-" x = c' ++ String "-" y -> c = c'.
Proof.
  induction c as [| a c IH]; intros [| b c'] x y Hc Hc' Heq;
    cbn [append free_of] in *.
  - reflexivity.
  - injection Heq as <- _. discriminate Hc'.
  - injection Heq as -> _. discriminate Hc.
  - injection Heq as -> Heq.
    apply andb_true_iff in Hc as [_ Hc]. apply andb_true_iff in Hc' as [_ Hc'].
    f_equal. now apply (IH c' x y).
Qed.

Lemma entity_key_type c c' s e s' e' :
  free_of "-" c = true -> free_of "-" c' = true ->
  entity_key c s e = entity_key c' s' e' -> c = c'.
Proof. unfold entity_key. apply dash_decides. Qed.

Lemma NoDup_keys_of_spans spans :
  NoDup (List.map ar_entity_type spans) ->
  (forall span, In span spans -> free_of "-" (ar_entity_type span) = true) ->
  NoDup (List.map key_of_span spans).
Proof.
  induction spans as [| span rest IH]; cbn [List.map]; intros Hnd Hfree;
    [constructor |].
  inversion Hnd as [| ? ? Hnotin Hnd']; subst.
  constructor; [| apply IH; auto; intros; apply Hfree; now right].
  intros Hin. apply in_map_iff in Hin as (span' & Hkey & Hin').
  apply Hnotin. apply in_map_iff. exists span'. split; [| exact Hin'].
  unfold key_of_span in Hkey.
  apply entity_key_type in Hkey; auto; apply Hfree; [now right | now left].
Qed.

Lemma NoDup_app_cons {A} (l : list A) x l' :
  NoDup (l ++ x :: l') -> ~ In x l /\ NoDup ((l ++ [x]) ++ l').
Proof.
  intros H. split.
  - apply NoDup_remove_2 in H. intros Hin. apply H, in_or_app. now left.
  - now rewrite <- app_assoc.
Qed.

Lemma keys_app {V} (m m' : JS.map V) :
  JS.keys (m ++ m')%list = (JS.keys m ++ JS.keys m')%list.
Proof. apply map_app. Qed.

Lemma group_by_type_from spans : forall acc,
  NoDup (JS.keys acc ++ List.map ar_entity_type spans) ->
  fold_left
    (fun entityMap result =>
       let entityType := ar_entity_type result in
       let entities :=
         match JS.get entityType entityMap with
         | Some l => l
         | None => []
         end in
       JS.set entityType (entities ++ [result])%list entityMap)
    spans acc
  = (acc ++ List.map (fun span => (ar_entity_type span, [span])) spans)%list.
Proof.
  induction spans as [| span rest IH]; intros acc Hnd; cbn [fold_left List.map].
  - now rewrite app_nil_r.
  - apply NoDup_app_cons in Hnd as [Hnotin Hnd].
    apply get_None_not_key in Hnotin. rewrite Hnotin.
    rewrite values_set_fresh by exact Hnotin.
    rewrite IH by (rewrite keys_app; exact Hnd).
    now rewrite <- app_assoc.
Qed.

Lemma group_by_type_distinct spans :
  NoDup (List.map ar_entity_type spans) ->
  group_by_type spans
  = List.map (fun span => (ar_entity_type span, [span])) spans.
Proof. intros H. unfold group_by_type. now rewrite group_by_type_from. Qed.

Lemma process_entities_from spans : forall acc,
  NoDup (JS.keys acc ++ List.map key_of_span spans) ->
  fold_left
    (fun processedEntities group =>
       let entityType := fst group in
       fold_left
         (fun processedEntities entity =>
            let key := entity_key entityType (ar_start entity) (ar_end entity) in
            if negb (JS.has key processedEntities)
            then JS.set key entity processedEntities
            else processedEntities)
         (JS.sort compare_spans (snd group)) processedEntities)
    (List.map (fun span => (ar_entity_type span, [span])) spans) acc
  = (acc ++ List.map (fun span => (key_of_span span, span)) spans)%list.
Proof.
  induction spans as [| span rest IH]; intros acc Hnd;
    cbn [fold_left List.map fst snd JS.sort JS.insert].
  - now rewrite app_nil_r.
  - apply NoDup_app_cons in Hnd as [Hnotin Hnd].
    apply get_None_not_key in Hnotin.
    fold (key_of_span span). unfold JS.has. rewrite Hnotin. cbn [negb].
    rewrite values_set_fresh by exact Hnotin.
    rewrite IH by (rewrite keys_app; exact Hnd).
    now rewrite <- app_assoc.
Qed.

Lemma process_entities_distinct spans :
  NoDup (List.map key_of_span spans) ->
  process_entities
    (List.map (fun span => (ar_entity_type span, [span])) spans)
  = List.map (fun span => (key_of_span span, span)) spans.
Proof. intros H. unfold process_entities. now rewrite process_entities_from. Qed.

Lemma fill_entity_map_from text anonymizedEntities spans : forall acc,
  NoDup (JS.keys acc ++ List.map key_of_span spans) ->
  (forall span, In span spans ->
     anonymized_value anonymizedEntities (ar_entity_type span)
     = configured_placeholder (ar_entity_type span)
     /\ (ar_entity_type span = "PERSON" ->
         3 <= strlen (JS.substring text (ar_start span) (ar_end span)))) ->
  fold_left (add_entity text anonymizedEntities) spans acc
  = (acc
     ++ List.map (fun span => (key_of_span span, entity_of_span text span))
          spans)%list.
Proof.
  induction spans as [| span rest IH]; intros acc Hnd Hspans;
    cbn [fold_left List.map].
  - now rewrite app_nil_r.
  - apply NoDup_app_cons in Hnd as [Hnotin Hnd].
    apply get_None_not_key in Hnotin.
    destruct (Hspans span (or_introl eq_refl)) as [Hvalue Hlong].
    assert (Hadd : add_entity text anonymizedEntities acc span
                   = (acc ++ [(key_of_span span, entity_of_span text span)])%list).
    { unfold add_entity. rewrite Hvalue.
      destruct (String.eqb_spec (ar_entity_type span) "PERSON") as [Hp | Hp].
      - specialize (Hlong Hp). apply Z.ltb_ge in Hlong. rewrite Hlong.
        cbn [andb]. now apply values_set_fresh.
      - cbn [andb]. now apply values_set_fresh. }
    rewrite Hadd.
    rewrite IH; [now rewrite <- app_assoc | rewrite keys_app; exact Hnd |].
    intros sp Hin. apply Hspans. now right.
Qed.

Lemma values_keyed {A V} (key : A -> string) (value : A -> V) (l : list A) :
  JS.values (List.map (fun x => (key x, value x)) l) = List.map value l.
Proof. unfold JS.values. rewrite map_map. reflexivity. Qed.

Lemma few_of_a_type text spans c :
  NoDup (List.map ar_entity_type spans) ->
  (List.length
     (filter (is_of_type c) (List.map (entity_of_span text) spans)) <= 1)%nat.
Proof.
  induction spans as [| span rest IH]; cbn [List.map filter]; intros Hnd;
    [simpl; lia |].
  inversion Hnd as [| ? ? Hnotin Hnd']; subst.
  destruct (is_of_type c (entity_of_span text span)) eqn:E; [| auto].
  apply is_of_type_eq in E. cbn [entity_of_span entityType] in E.
  rewrite filter_none; [simpl; lia |].
  intros e He. apply in_map_iff in He as (span' & <- & Hin).
  unfold is_of_type. cbn [entity_of_span entityType].
  apply String.eqb_neq. intros Heq. apply Hnotin.
  apply in_map_iff. exists span'. split; [congruence | exact Hin].
Qed.

Lemma last_occurrence (items : list AnonymizerItem) c :
  (exists it, In it items /\ item_entity_type it = c) ->
  exists pre it post,
    items = (pre ++ it :: post)%list /\ item_entity_type it = c
    /\ forall it', In it' post -> item_entity_type it' <> c.
Proof.
  induction items as [| x rest IH]; intros (it & Hin & Htype); [destruct Hin |].
  destruct (existsb (fun it' => String.eqb (item_entity_type it') c) rest)
    eqn:Hlater.
  - apply existsb_exists in Hlater as (it' & Hin' & Heq).
    apply String.eqb_eq in Heq.
    destruct IH as (pre & it0 & post & -> & Htype0 & Hpost); [eauto |].
    now exists (x :: pre), it0, post.
  - assert (Hnone : forall it', In it' rest -> item_entity_type it' <> c).
    { intros it' Hin' Heq.
      assert (Hex : existsb
                      (fun it' => String.eqb (item_entity_type it') c) rest
                    = true).
      { apply existsb_exists. exists it'. split; [exact Hin' |].
        now apply String.eqb_eq. }
      congruence. }
    destruct Hin as [<- | Hin]; [| now apply Hnone in Hin].
    now exists [], x, rest.
Qed.

Lemma item_as_configured_text it :
  item_as_configured it = true ->
  item_text it = literal_placeholder (item_entity_type it).
Proof.
  unfold item_as_configured.
  destruct (item_text it) as [text |]; [| discriminate].
  destruct (literal_placeholder (item_entity_type it)) as [v |];
    [| discriminate].
  intros H. apply String.eqb_eq in H. now subst.
Qed.

Lemma anonymized_value_literal items c :
  In c literal_categories ->
  (exists it, In it items /\ item_entity_type it = c) ->
  (forall it, In it items -> item_as_configured it = true) ->
  anonymized_value (anonymized_entities items) c = configured_placeholder c.
Proof.
  intros Hliteral Hpresent Hitems.
  destruct (last_occurrence items c Hpresent)
    as (pre & it & post & -> & <- & Hpost).
  unfold anonymized_value. rewrite anonymized_entities_last by exact Hpost.
  rewrite or_else_nonempty by apply placeholder_of_item_nonempty.
  apply (literal_category_facts _ Hliteral); [reflexivity |].
  apply item_as_configured_text, Hitems, in_or_app. right. now left.
Qed.

Lemma restorable_span_facts text span :
  restorable_span text span = true ->
  In (ar_entity_type span) literal_categories
  /\ JS.includes text (configured_placeholder (ar_entity_type span)) = false
  /\ (ar_entity_type span = "PERSON" ->
      3 <= strlen (JS.substring text (ar_start span) (ar_end span)))
  /\ free_of "$" (JS.substring text (ar_start span) (ar_end span)) = true.
Proof.
  unfold restorable_span, configured_placeholder. intros H.
  apply andb_true_iff in H as [H Hdollar].
  apply andb_true_iff in H as [Hliteral Hperson].
  split.
  { apply literal_placeholder_categories.
    now destruct (literal_placeholder (ar_entity_type span)). }
  split.
  { destruct (literal_placeholder (ar_entity_type span));
      [now apply negb_true_iff in Hliteral | discriminate]. }
  split; [| exact Hdollar].
  intros Hp. apply String.eqb_eq in Hp. rewrite Hp in Hperson.
  cbn [andb] in Hperson. apply negb_true_iff in Hperson.
  now apply Z.ltb_ge in Hperson.
Qed.

(** The entity map of spans with distinct placeholders: one entity for
    each span, in the order of detection. *)
Lemma buildEntityMapping_distinct text items spans :
  spans <> [] ->
  NoDup (List.map
           (fun span => configured_placeholder (ar_entity_type span)) spans) ->
  forallb (restorable_span text) spans = true ->
  items_as_configured spans items = true ->
  buildEntityMapping text items spans []
  = List.map (fun span => (key_of_span span, entity_of_span text span)) spans.
Proof.
  intros Hne Hdistinct Hspans Hitems.
  rewrite forallb_forall in Hspans.
  apply andb_true_iff in Hitems as [Hcover Hitems].
  rewrite forallb_forall in Hcover, Hitems.
  assert (Htypes : NoDup (List.map ar_entity_type spans)).
  { rewrite <- (map_map ar_entity_type configured_placeholder) in Hdistinct.
    now apply NoDup_map_inv in Hdistinct. }
  assert (Hkeys : NoDup (List.map key_of_span spans)).
  { apply NoDup_keys_of_spans; [exact Htypes |].
    intros span Hin. apply Hspans, restorable_span_facts in Hin as [Hin _].
    now apply literal_category_facts in Hin. }
  rewrite buildEntityMapping_unfold.
  destruct items as [| it items].
  { destruct spans as [| span rest]; [congruence |].
    specialize (Hcover span (or_introl eq_refl)). discriminate Hcover. }
  assert (Hbefore : before_reduction text (it :: items) spans
                    = List.map
                        (fun span => (key_of_span span, entity_of_span text span))
                        spans).
  { unfold before_reduction, fill_entity_map.
    rewrite group_by_type_distinct by exact Htypes.
    rewrite process_entities_distinct by exact Hkeys.
    rewrite (values_keyed key_of_span (fun span => span)), map_id.
    rewrite fill_entity_map_from; [reflexivity | exact Hkeys |].
    intros span Hin.
    destruct (restorable_span_facts text span (Hspans span Hin))
      as (Hliteral & _ & Hlong & _).
    split; [| exact Hlong].
    apply anonymized_value_literal; [exact Hliteral | | exact Hitems].
    specialize (Hcover span Hin).
    apply existsb_exists in Hcover as (it' & Hin' & Heq).
    apply String.eqb_eq in Heq. eauto. }
  rewrite Hbefore.
  rewrite findBestMatch_few.
  - apply findBestMatch_few. unfold entities_of_type.
    rewrite values_keyed. now apply few_of_a_type.
  - rewrite findBestMatch_few; unfold entities_of_type;
      rewrite values_keyed; now apply few_of_a_type.
Qed.

(** ** The round trip *)

(** C1, as stated.  Two texts whose spans lie within bounds and are
    replaced by [[PERSON]], which neither text contains.  In the first the
    one detected name has two letters: it is not recorded, and the
    placeholder stays.  In the second two names are detected: the
    reduction keeps one PERSON entity, and the second name is restored as
    the first. *)
Lemma round_trip_fails_by_design :
  (JS.includes "Hi Al" "[PERSON]" = false
   /\ exists table,
        anonymizeText fragment_env "Hi Al" []
        = (table, Return (mkResult "Hi [PERSON]" false))
        /\ deanonymizeText table "Hi [PERSON]" = "Hi [PERSON]"
        /\ deanonymizeText table "Hi [PERSON]" <> "Hi Al")
  /\
  (JS.includes two_persons_text "[PERSON]" = false
   /\ spans_ordered 0 two_persons_results (strlen two_persons_text)
   /\ exists table,
        anonymizeText two_persons_env two_persons_text []
        = (table, Return (mkResult "[PERSON] met [PERSON]" true))
        /\ deanonymizeText table "[PERSON] met [PERSON]"
           = "John Doe met John Doe"
        /\ deanonymizeText table "[PERSON] met [PERSON]"
           <> two_persons_text).
Proof.
  split.
  - split; [reflexivity |].
    eexists. split; [vm_compute; reflexivity |].
    split; [vm_compute; reflexivity | vm_compute; discriminate].
  - split; [reflexivity |]. split; [cbn; lia |].
    eexists. split; [vm_compute; reflexivity |].
    split; [vm_compute; reflexivity | vm_compute; discriminate].
Qed.

(** C1, amended.  Let the detector report spans that lie within the text
    and do not overlap, each of a category the configuration replaces by a
    literal, no two with the same placeholder, none a PERSON shorter than
    three characters and none with a dollar sign in its original value;
    let no placeholder occur in the text, and let the anonymizer answer
    with the text in which every span is replaced by its placeholder and
    with items carrying the configured literals.  Then [anonymizeText]
    returns that text, with [entitiesFound] telling whether any span was
    reported, and [deanonymizeText] gives the input back. *)
Theorem round_trip_distinct_placeholders env text table0 spans ordered items :
  Permutation ordered spans ->
  spans_ordered 0 ordered (strlen text) ->
  NoDup (List.map
           (fun span => configured_placeholder (ar_entity_type span)) spans) ->
  forallb (restorable_span text) spans = true ->
  items_as_configured spans items = true ->
  analyze_request env text = Resolved (Some spans) ->
  anonymize_request env text spans
  = Resolved (mkData (substitute_spans text 0 ordered) (Some items)) ->
  exists table,
    anonymizeText env text table0
    = (table,
       Return
         (mkResult (substitute_spans text 0 ordered)
            (negb (Nat.eqb (List.length spans) 0))))
    /\ deanonymizeText table (substitute_spans text 0 ordered) = text.
Proof.
  intros Hperm Hordered Hdistinct Hspans Hitems Hanalyze Hanonymize.
  destruct spans as [| r rs] eqn:Hspans_eq.
  { apply Permutation_sym, Permutation_nil in Hperm. subst ordered.
    exists []. cbn [substitute_spans]. rewrite substring_to_end.
    split; [| reflexivity].
    eapply anonymizeText_no_detection; eauto. }
  assert (Hne : spans <> []) by (rewrite Hspans_eq; discriminate).
  rewrite <- Hspans_eq in Hperm, Hdistinct, Hspans, Hitems.
  pose proof (buildEntityMapping_distinct text items spans
                Hne Hdistinct Hspans Hitems) as Htable.
  pose proof (anonymizeText_resolved env text table0 r rs _
                Hanalyze Hanonymize) as Hrun.
  cbv zeta in Hrun. cbn [items_or_empty data_items data_text] in Hrun.
  rewrite <- Hspans_eq, Htable in Hrun.
  eexists. split.
  { rewrite Hrun. f_equal. f_equal. f_equal.
    rewrite Hspans_eq. reflexivity. }
  unfold deanonymizeText.
  replace (JS.size _ =? 0)%nat with false
    by (rewrite Hspans_eq; reflexivity).
  rewrite values_keyed.
  rewrite <- anonymized_of_chunks.
  rewrite forallb_forall in Hspans.
  assert (Horiginal : original_of (chunks_of text 0 ordered) = text).
  { rewrite original_of_chunks by (lia || exact Hordered).
    apply substring_to_end. }
  rewrite <- Horiginal at 3.
  apply restore_entities.
  - intros e He. apply (proj1 (In_sort compare_anonymized _ _)) in He.
    apply in_map_iff in He as (span & <- & Hin).
    destruct (restorable_span_facts text span (Hspans span Hin))
      as (Hliteral & Hfresh & _ & Hdollar).
    cbn [entity_of_span anonymized original]. rewrite Horiginal.
    split; [now apply literal_category_facts in Hliteral |].
    split; assumption.
  - intros q o Hheld. rewrite held_placeholders_chunks in Hheld.
    apply in_map_iff in Hheld as (span & [= <- <-] & Hin).
    apply (Permutation_in _ Hperm) in Hin.
    destruct (restorable_span_facts text span (Hspans span Hin))
      as (Hliteral & _).
    split; [now apply literal_category_facts in Hliteral |].
    split.
    + intros e He Hsame. apply (proj1 (In_sort compare_anonymized _ _)) in He.
      apply in_map_iff in He as (span' & <- & Hin').
      cbn [entity_of_span anonymized original] in *.
      assert (Heq : span' = span); [| now subst].
      clear - Hdistinct Hin Hin' Hsame.
      induction spans as [| x rest IH]; [destruct Hin |].
      cbn [List.map] in Hdistinct.
      inversion Hdistinct as [| ? ? Hnotin Hnd]; subst.
      destruct Hin as [-> | Hin], Hin' as [-> | Hin']; auto.
      * exfalso. apply Hnotin. apply in_map_iff. now exists span'.
      * exfalso. apply Hnotin. apply in_map_iff. now exists span.
    + exists (entity_of_span text span). split; [| reflexivity].
      apply (proj2 (In_sort compare_anonymized _ _)). now apply in_map.
Qed.

Lemma round_trip_distinct_placeholders_witness :
  exists table,
    anonymizeText phone_first_env scenario_text []
    = (table,
       Return
         (mkResult
            (substitute_spans scenario_text 0 (scenario_results 50 65)) true))
    /\ deanonymizeText table
         (substitute_spans scenario_text 0 (scenario_results 50 65))
       = scenario_text.
Proof.
  apply (round_trip_distinct_placeholders phone_first_env scenario_text []
           phone_first_results (scenario_results 50 65) scenario_items).
  - apply perm_swap.
  - cbn. lia.
  - vm_compute. repeat constructor; cbn; intuition discriminate.
  - vm_compute. reflexivity.
  - vm_compute. reflexivity.
  - reflexivity.
  - vm_compute. reflexivity.
Defined.

(** ** Order and literalness of the restoration *)

Lemma compare_anonymized_total x y :
  not_after compare_anonymized x y \/ not_after compare_anonymized y x.
Proof. unfold not_after, compare_anonymized. lia. Qed.

Lemma compare_anonymized_trans x y z :
  not_after compare_anonymized x y -> not_after compare_anonymized y z ->
  not_after compare_anonymized x z.
Proof. unfold not_after, compare_anonymized. lia. Qed.

(** [deanonymizeText] takes the entities by decreasing length of their
    placeholders. *)
Lemma deanonymizeText_order (table : EntityMap) :
  StronglySorted
    (fun a b => strlen (anonymized b) <= strlen (anonymized a))
    (JS.sort compare_anonymized (JS.values table)).
Proof.
  pose proof (sort_sorted compare_anonymized compare_anonymized_total
                compare_anonymized_trans (JS.values table)) as Hsorted.
  induction Hsorted as [| a l _ IH Hall]; constructor; [exact IH |].
  eapply Forall_impl; [| exact Hall].
  intros b Hab. unfold not_after, compare_anonymized in Hab. cbv beta. lia.
Qed.

Lemma replace_scan_literal pat r (s : string) : forall before skip,
  free_of "$" r = true ->
  JS.replace_scan pat r before skip s = literal_replace_scan pat r skip s.
Proof.
  induction s as [| c s IH]; intros before skip Hr; [reflexivity |].
  cbn [JS.replace_scan literal_replace_scan].
  destruct skip as [| k]; [| now apply IH].
  destruct (String.prefix pat (String c s)).
  - rewrite getSubstitution_plain by exact Hr. now rewrite IH.
  - now rewrite IH.
Qed.

Lemma fold_left_ext_in {A B} (f g : A -> B -> A) (l : list B) : forall a,
  (forall x, In x l -> forall acc, f acc x = g acc x) ->
  fold_left f l a = fold_left g l a.
Proof.
  induction l as [| x l IH]; intros a H; [reflexivity |].
  cbn [fold_left]. rewrite (H x (or_introl eq_refl)).
  apply IH. intros y Hy. apply H. now right.
Qed.

(** On the entity map [buildEntityMapping] builds, [deanonymizeText] is the
    literal restoration of the specification, longest placeholder first, as
    long as no original value has a dollar sign. *)
Lemma deanonymizeText_literal text items results anonymizedText :
  let table := buildEntityMapping text items results [] in
  (forall e, In e (JS.values table) -> free_of "$" (original e) = true) ->
  deanonymizeText table anonymizedText
  = fold_left literal_restore
      (JS.sort compare_anonymized (JS.values table)) anonymizedText.
Proof.
  intros table Hdollar. unfold deanonymizeText.
  destruct (JS.size table =? 0)%nat eqn:Hsize.
  - apply Nat.eqb_eq in Hsize. destruct table; [reflexivity | discriminate].
  - apply fold_left_ext_in. intros e He acc.
    apply (proj1 (In_sort compare_anonymized _ _)) in He.
    unfold restore_entity, literal_restore.
    assert (Hne : anonymized e <> "").
    { unfold JS.values in He. apply in_map_iff in He as ([key e'] & <- & Hin).
      now apply buildEntityMapping_invariant in Hin as (_ & _ & Hne). }
    rewrite replace_regexp_escaped by exact Hne.
    apply replace_scan_literal. now apply Hdollar.
Qed.

(** C8.  The pattern is matched literally, but the replacement is not
    taken literally: an original value that contains [$&] comes back with
    the placeholder in the place of these two characters, where the
    literal restoration gives the input back. *)
Theorem dollar_pattern_in_original_expanded :
  exists table,
    anonymizeText dollar_env dollar_text []
    = (table, Return (mkResult "See [URL] now" true))
    /\ JS.values table
       = [ mkEntity "http://a.io/?q=$&x=1" "[URL]" "URL" 4 24 ]
    /\ deanonymizeText table "See [URL] now"
       = "See http://a.io/?q=[URL]x=1 now"
    /\ fold_left literal_restore
         (JS.sort compare_anonymized (JS.values table)) "See [URL] now"
       = dollar_text.
Proof.
  eexists. split; [vm_compute; reflexivity |].
  split; [vm_compute; reflexivity |].
  split; vm_compute; reflexivity.
Qed.

(** * Further properties *)

(** ** The normalizer *)

Lemma group_by_type_fold results :
  group_by_type results = fold_left group_step results [].
Proof. reflexivity. Qed.

Lemma group_step_get entityMap result type :
  JS.get type (group_step entityMap result)
  = if String.eqb type (ar_entity_type result)
    then Some (match JS.get type entityMap with
               | Some l => l
               | None => []
               end ++ [result])%list
    else JS.get type entityMap.
Proof.
  unfold group_step.
  destruct (String.eqb_spec type (ar_entity_type result)) as [-> | Hne].
  - apply get_set_same.
  - now apply get_set_other.
Qed.

(** The group of a type holds the results of that type, in the order of
    detection. *)
Lemma group_fold_get results : forall acc type,
  JS.get type (fold_left group_step results acc)
  = match JS.get type acc, results_of_type type results with
    | None, [] => None
    | None, l => Some l
    | Some l0, l => Some (l0 ++ l)%list
    end.
Proof.
  induction results as [| r rest IH]; intros acc type.
  - cbn [fold_left results_of_type filter].
    destruct (JS.get type acc); [now rewrite app_nil_r | reflexivity].
  - cbn [fold_left]. rewrite IH, group_step_get.
    unfold results_of_type. cbn [filter].
    rewrite (String.eqb_sym (ar_entity_type r) type).
    destruct (String.eqb type (ar_entity_type r)).
    + destruct (JS.get type acc) as [l0 |].
      * now rewrite <- app_assoc.
      * reflexivity.
    + reflexivity.
Qed.

Lemma group_by_type_get results type :
  JS.get type (group_by_type results)
  = match results_of_type type results with
    | [] => None
    | l => Some l
    end.
Proof. rewrite group_by_type_fold, group_fold_get. reflexivity. Qed.

Lemma group_by_type_NoDup results :
  NoDup (JS.keys (group_by_type results)).
Proof.
  rewrite group_by_type_fold.
  apply fold_left_invariant; [| constructor].
  intros acc r Hnd. unfold group_step. now apply NoDup_keys_set.
Qed.

Lemma In_results_of_type type results r :
  In r (results_of_type type results)
  <-> In r results /\ ar_entity_type r = type.
Proof.
  unfold results_of_type. rewrite filter_In. now rewrite String.eqb_eq.
Qed.

Lemma group_by_type_In results type l :
  In (type, l) (group_by_type results) ->
  l = results_of_type type results /\ l <> [].
Proof.
  intros Hin. apply In_get in Hin; [| apply group_by_type_NoDup].
  rewrite group_by_type_get in Hin.
  destruct (results_of_type type results); [discriminate |].
  injection Hin as <-. split; [reflexivity | discriminate].
Qed.

Lemma process_entities_first_seen groups : forall acc,
  fold_left
    (fun processedEntities group =>
       let entityType := fst group in
       fold_left
         (fun processedEntities entity =>
            let key := entity_key entityType (ar_start entity) (ar_end entity) in
            if negb (JS.has key processedEntities)
            then JS.set key entity processedEntities
            else processedEntities)
         (JS.sort compare_spans (snd group)) processedEntities)
    groups acc
  = first_seen (flat_map keyed_group groups) acc.
Proof.
  induction groups as [| g groups IH]; intros acc; [reflexivity |].
  cbn [fold_left flat_map]. rewrite IH. unfold first_seen.
  rewrite fold_left_app. f_equal.
  unfold keyed_group. generalize (JS.sort compare_spans (snd g)).
  intros l. revert acc. induction l as [| e l IHl]; intros acc; [reflexivity |].
  cbn [fold_left List.map fst snd]. apply IHl.
Qed.

Lemma normalized_first_seen results :
  normalized results
  = first_seen (flat_map keyed_group (group_by_type results)) [].
Proof. apply process_entities_first_seen. Qed.

(** What [first_seen] holds under a key: what it held before, or else the
    first entry with the key. *)
Lemma first_seen_get entries : forall acc key,
  JS.get key (first_seen entries acc)
  = match JS.get key acc with
    | Some v => Some v
    | None =>
        option_map snd (find (fun entry => String.eqb (fst entry) key) entries)
    end.
Proof.
  induction entries as [| [k v] entries IH]; intros acc key.
  - cbn. now destruct (JS.get key acc).
  - unfold first_seen in *. cbn [fold_left fst snd find]. rewrite IH.
    unfold JS.has.
    destruct (JS.get k acc) as [v0 |] eqn:Hk; cbn [negb].
    + destruct (String.eqb_spec k key) as [-> | Hne]; [now rewrite Hk |].
      reflexivity.
    + destruct (String.eqb_spec k key) as [-> | Hne].
      * rewrite get_set_same, Hk. reflexivity.
      * rewrite get_set_other by congruence. reflexivity.
Qed.

Lemma first_seen_NoDup entries : forall acc,
  NoDup (JS.keys acc) -> NoDup (JS.keys (first_seen entries acc)).
Proof.
  intros acc Hnd. unfold first_seen.
  apply fold_left_invariant; [| exact Hnd].
  intros m [k v] Hm. cbn. destruct (negb (JS.has k m)); [| exact Hm].
  now apply NoDup_keys_set.
Qed.

Lemma first_seen_In entries : forall acc key v,
  In (key, v) (first_seen entries acc) ->
  In (key, v) acc \/ In (key, v) entries.
Proof.
  induction entries as [| [k v0] entries IH]; intros acc key v Hin;
    [now left |].
  unfold first_seen in *. cbn [fold_left fst snd] in Hin.
  apply IH in Hin as [Hin | Hin]; [| right; now right].
  destruct (negb (JS.has k acc)); [| now left].
  apply In_set in Hin as [[-> ->] | Hin]; [right; now left | now left].
Qed.

Lemma find_split {A} (f : A -> bool) (l : list A) x :
  find f l = Some x ->
  exists pre post,
    l = (pre ++ x :: post)%list /\ f x = true
    /\ forall y, In y pre -> f y = false.
Proof.
  induction l as [| a l IH]; [discriminate |]. cbn [find].
  destruct (f a) eqn:Ha.
  - intros [= ->]. exists [], l. repeat split; [assumption | intros y []].
  - intros H. destruct (IH H) as (pre & post & -> & Hx & Hpre).
    exists (a :: pre), post. repeat split; [assumption |].
    intros y [<- | Hy]; auto.
Qed.

Lemma find_app {A} (f : A -> bool) (l l' : list A) :
  find f (l ++ l')
  = match find f l with
    | Some x => Some x
    | None => find f l'
    end.
Proof.
  induction l as [| a l IH]; [reflexivity |]. cbn [app find].
  now destruct (f a).
Qed.

Lemma find_flat_map {A B} (f : B -> bool) (h : A -> list B) (l : list A) x :
  find f (flat_map h l) = Some x ->
  exists g, In g l /\ find f (h g) = Some x.
Proof.
  induction l as [| a l IH]; [discriminate |].
  cbn [flat_map]. rewrite find_app.
  destruct (find f (h a)) as [y |] eqn:Ha.
  - intros [= ->]. exists a. split; [now left | exact Ha].
  - intros H. destruct (IH H) as (g & Hg & Hfind).
    exists g. split; [now right | exact Hfind].
Qed.

Lemma find_none_all {A} (f : A -> bool) (l : list A) :
  find f l = None -> forall x, In x l -> f x = false.
Proof.
  induction l as [| a l IH]; [intros _ x [] |]. cbn [find].
  destruct (f a) eqn:Ha; [discriminate |].
  intros H x [<- | Hx]; auto.
Qed.

Lemma sgn_score_difference (a b : Q) :
  Z.sgn (Qnum (b - a)) <= 0 <-> (b <= a)%Q.
Proof.
  assert (Hsign : Z.sgn (Qnum (b - a)) <= 0 <-> (b - a <= 0)%Q).
  { unfold Qle. cbn [Qnum Qden]. destruct (Qnum (b - a)); cbn; lia. }
  rewrite Hsign. split; intros H; lra.
Qed.

Lemma compare_spans_not_after a b :
  not_after compare_spans a b
  <-> ar_end b - ar_start b < ar_end a - ar_start a
      \/ (ar_end a - ar_start a = ar_end b - ar_start b
          /\ (ar_score b <= ar_score a)%Q).
Proof.
  unfold not_after, compare_spans.
  destruct (Z.eqb_spec (ar_end a - ar_start a) (ar_end b - ar_start b))
    as [Heq | Hne]; cbn [negb].
  - rewrite sgn_score_difference. split; [auto | intros [H | [_ H]]; [lia | exact H]].
  - split; [intros H; left; lia | intros [H | [H _]]; lia].
Qed.

Lemma compare_spans_total a b :
  not_after compare_spans a b \/ not_after compare_spans b a.
Proof.
  rewrite !compare_spans_not_after.
  destruct (Z.lt_trichotomy (ar_end a - ar_start a) (ar_end b - ar_start b))
    as [H | [H | H]]; [right; now left | | left; now left].
  destruct (Qlt_le_dec (ar_score a) (ar_score b)) as [Hlt | Hle].
  - right. right. split; [lia | now apply Qlt_le_weak].
  - left. right. split; [lia | exact Hle].
Qed.

Lemma compare_spans_trans a b c :
  not_after compare_spans a b -> not_after compare_spans b c ->
  not_after compare_spans a c.
Proof.
  rewrite !compare_spans_not_after.
  intros [H1 | [H1 Hs1]] [H2 | [H2 Hs2]]; try (left; lia).
  right. split; [lia | now apply Qle_trans with (ar_score b)].
Qed.

Lemma StronglySorted_after {A} (R : A -> A -> Prop) (pre : list A) x post :
  StronglySorted R (pre ++ x :: post) -> Forall (R x) post.
Proof.
  induction pre as [| a pre IH]; cbn [app]; intros H;
    inversion H as [| ? ? Hsorted Hall]; subst; auto.
Qed.

Lemma normalized_NoDup results : NoDup (JS.keys (normalized results)).
Proof. rewrite normalized_first_seen. apply first_seen_NoDup. constructor. Qed.

Lemma normalized_sub results key rep :
  In (key, rep) (normalized results) ->
  In rep results /\ key = key_of_span rep.
Proof.
  rewrite normalized_first_seen. intros Hin.
  apply first_seen_In in Hin as [[] | Hin].
  apply in_flat_map in Hin as ([type l] & Hgroup & Hin).
  apply group_by_type_In in Hgroup as [-> _].
  unfold keyed_group in Hin. cbn [fst snd] in Hin.
  apply in_map_iff in Hin as (e & [= <- <-] & He).
  apply (proj1 (In_sort compare_spans _ _)) in He.
  apply In_results_of_type in He as [He <-]. now split.
Qed.

Lemma normalized_covers results r :
  In r results ->
  exists rep, JS.get (key_of_span r) (normalized results) = Some rep.
Proof.
  intros Hr. rewrite normalized_first_seen, first_seen_get. cbn [JS.get].
  destruct (find _ _) as [[k rep] |] eqn:Hfind; [now exists rep |].
  exfalso.
  assert (Hgroup : In (ar_entity_type r,
                       results_of_type (ar_entity_type r) results)
                     (group_by_type results)).
  { apply get_Some_In. rewrite group_by_type_get.
    destruct (results_of_type (ar_entity_type r) results) eqn:E;
      [| reflexivity].
    assert (Hin : In r (results_of_type (ar_entity_type r) results))
      by now apply In_results_of_type.
    rewrite E in Hin. destruct Hin. }
  assert (Hkey : String.eqb (fst (key_of_span r, r)) (key_of_span r)
                 = false).
  { apply (find_none_all _ _ Hfind (key_of_span r, r)).
    apply in_flat_map. eexists. split; [exact Hgroup |].
    unfold keyed_group. cbn [fst snd]. apply in_map_iff. exists r.
    split; [reflexivity |].
    apply (proj2 (In_sort compare_spans _ _)).
    now apply In_results_of_type. }
  cbn [fst] in Hkey. now rewrite String.eqb_refl in Hkey.
Qed.

(** The normalizer loses no position and invents none: the normalized
    spans have distinct keys, each is a result of the analyzer stored under
    its own key, and the key of every result of the analyzer is present. *)
Theorem normalizer_keeps_every_position results :
  NoDup (JS.keys (normalized results))
  /\ (forall key rep,
        In (key, rep) (normalized results) ->
        In rep results /\ key = key_of_span rep)
  /\ (forall r,
        In r results ->
        exists rep, JS.get (key_of_span r) (normalized results) = Some rep).
Proof.
  split; [apply normalized_NoDup |].
  split; [apply normalized_sub | apply normalized_covers].
Qed.

Lemma normalizer_keeps_every_position_witness :
  NoDup (JS.keys (normalized twice_detected))
  /\ (forall key rep,
        In (key, rep) (normalized twice_detected) ->
        In rep twice_detected /\ key = key_of_span rep)
  /\ (forall r,
        In r twice_detected ->
        exists rep,
          JS.get (key_of_span r) (normalized twice_detected) = Some rep).
Proof. apply (normalizer_keeps_every_position twice_detected). Defined.

(** Of the results that detect one type at one position, the normalizer
    keeps one with the highest score. *)
Theorem normalizer_keeps_highest_score results key rep r :
  In (key, rep) (normalized results) ->
  In r results -> same_detection r rep ->
  (ar_score r <= ar_score rep)%Q.
Proof.
  intros Hin Hr (Htype & Hstart & Hend).
  assert (Hnd : NoDup (JS.keys (normalized results)))
    by apply normalized_NoDup.
  apply In_get in Hin; [| exact Hnd].
  rewrite normalized_first_seen, first_seen_get in Hin. cbn [JS.get] in Hin.
  destruct (find _ _) as [[k rep'] |] eqn:Hfind; [| discriminate].
  cbn in Hin. injection Hin as ->.
  apply find_flat_map in Hfind as ([type l] & Hgroup & Hfind).
  apply group_by_type_In in Hgroup as [-> _].
  apply find_split in Hfind as (pre & post & Hsplit & Hkey & Hpre).
  cbn [fst] in Hkey. apply String.eqb_eq in Hkey. subst k.
  unfold keyed_group in Hsplit. cbn [fst snd] in Hsplit.
  apply map_eq_app in Hsplit as (l1 & l2 & Hsort & Hl1 & Hl2).
  destruct l2 as [| rep0 l2]; [discriminate |].
  cbn [List.map] in Hl2. injection Hl2 as Hkey' -> Hpost.
  assert (Hrep : In rep (results_of_type type results)).
  { apply (proj1 (In_sort compare_spans _ _)). rewrite Hsort.
    apply in_or_app. right. now left. }
  apply In_results_of_type in Hrep as [_ Hrep_type].
  assert (Hr_group : In r (JS.sort compare_spans
                             (results_of_type type results))).
  { apply (proj2 (In_sort compare_spans _ _)).
    apply In_results_of_type. split; [exact Hr | congruence]. }
  rewrite Hsort in Hr_group.
  apply in_app_or in Hr_group as [Hr1 | [<- | Hr2]].
  - exfalso. subst pre.
    specialize (Hpre (entity_key type (ar_start r) (ar_end r), r)).
    cbn [fst] in Hpre. rewrite Hstart, Hend, Hkey', String.eqb_refl in Hpre.
    assert (Hfalse : true = false); [| discriminate].
    apply Hpre. apply in_map_iff. exists r.
    split; [now rewrite Hstart, Hend, Hkey' | exact Hr1].
  - apply Qle_refl.
  - pose proof (sort_sorted compare_spans compare_spans_total
                  compare_spans_trans (results_of_type type results))
      as Hsorted.
    rewrite Hsort in Hsorted. apply StronglySorted_after in Hsorted.
    rewrite Forall_forall in Hsorted. specialize (Hsorted r Hr2).
    apply compare_spans_not_after in Hsorted as [Hlt | [_ Hle]];
      [lia | exact Hle].
Qed.

Lemma normalizer_keeps_highest_score_witness :
  (6 # 10 <= 9 # 10)%Q.
Proof.
  apply (normalizer_keeps_highest_score twice_detected "PERSON-0-8"
           (mkAnalyzerResult "PERSON" 0 8 (9 # 10))
           (mkAnalyzerResult "PERSON" 0 8 (6 # 10))).
  - vm_compute. left. reflexivity.
  - left. reflexivity.
  - repeat split.
Defined.

(** ** Keys and positions *)

Lemma uint_string_dash_free d :
  free_of "-" (NilEmpty.string_of_uint d) = true.
Proof. induction d; cbn; auto. Qed.

Lemma nz_uint_string_facts d :
  free_of "-" (NilZero.string_of_uint d) = true
  /\ NilZero.string_of_uint d <> "".
Proof.
  destruct d; cbn [NilZero.string_of_uint];
    (split; [try reflexivity; apply uint_string_dash_free | discriminate]).
Qed.

Lemma to_int_normal z :
  Z.to_int z <> Decimal.Pos Decimal.Nil
  /\ Z.to_int z <> Decimal.Neg Decimal.Nil.
Proof.
  destruct z as [| p | p]; cbn [Z.to_int]; split; try discriminate;
    intros [= H]; now apply Unsigned.to_uint_nonnil in H.
Qed.

Lemma string_of_Z_inj z z' :
  JS.string_of_Z z = JS.string_of_Z z' -> z = z'.
Proof.
  unfold JS.string_of_Z. intros H. apply to_int_inj.
  destruct (to_int_normal z) as [H1 H2], (to_int_normal z') as [H1' H2'].
  pose proof (NilZero.isi _ H1 H2) as Hz.
  pose proof (NilZero.isi _ H1' H2') as Hz'.
  rewrite H in Hz. congruence.
Qed.

(** A printed integer ends where the next dash that is not its sign is. *)
Lemma decimal_then_dash z z' x y :
  JS.string_of_Z z ++ String "-" x = JS.string_of_Z z' ++ String "-" y ->
  z = z' /\ x = y.
Proof.
  intros H.
  assert (Heq : JS.string_of_Z z = JS.string_of_Z z').
  { unfold JS.string_of_Z in *.
    destruct (Z.to_int z) as [d | d], (Z.to_int z') as [d' | d'];
      cbn [NilZero.string_of_int] in *;
      destruct (nz_uint_string_facts d) as [Hd Hne],
               (nz_uint_string_facts d') as [Hd' Hne'].
    - now apply (dash_decides _ _ x y).
    - destruct (NilZero.string_of_uint d) as [| c u]; [congruence |].
      cbn [append] in H. injection H as -> _. discriminate Hd.
    - destruct (NilZero.string_of_uint d') as [| c u]; [congruence |].
      cbn [append] in H. injection H as <- _. discriminate Hd'.
    - cbn [append] in H. injection H as H. f_equal.
      now apply (dash_decides _ _ x y). }
  split; [now apply string_of_Z_inj |].
  rewrite Heq in H. apply append_inj_l in H. now injection H.
Qed.

Lemma entity_key_position t s e s' e' :
  entity_key t s e = entity_key t s' e' -> s = s' /\ e = e'.
Proof.
  unfold entity_key. intros H. apply append_inj_l in H.
  injection H as H. apply decimal_then_dash in H as [-> H].
  split; [reflexivity | now apply string_of_Z_inj].
Qed.

(** Keys identify positions: two spans of one type, or of two types
    without a dash, have the same key only if they have the same type,
    start and end. *)
Theorem entity_key_injective t s e t' s' e' :
  t = t' \/ (free_of "-" t = true /\ free_of "-" t' = true) ->
  entity_key t s e = entity_key t' s' e' ->
  t = t' /\ s = s' /\ e = e'.
Proof.
  intros Htypes Hkey.
  assert (Ht : t = t').
  { destruct Htypes as [Ht | [Ht Ht']]; [exact Ht |].
    now apply (entity_key_type t t' s e s' e'). }
  subst t'. split; [reflexivity |]. now apply (entity_key_position t).
Qed.

Lemma entity_key_injective_witness :
  "LOCATION" = "LOCATION" /\ 12 = 12 /\ 18 = 18.
Proof.
  apply (entity_key_injective "LOCATION" 12 18 "LOCATION" 12 18).
  - right. split; reflexivity.
  - reflexivity.
Defined.

(** ** From detections to entities *)

Lemma add_entity_eq text anonymizedEntities table entity :
  add_entity text anonymizedEntities table entity
  = if is_fragment text entity then table
    else JS.set (key_of_span entity)
           (recorded_entity text anonymizedEntities entity) table.
Proof. reflexivity. Qed.

Lemma has_set {V} k k' (v : V) (m : JS.map V) :
  JS.has k (JS.set k' v m) = String.eqb k k' || JS.has k m.
Proof.
  unfold JS.has. destruct (String.eqb_spec k k') as [-> | Hne].
  - now rewrite get_set_same.
  - now rewrite get_set_other.
Qed.

Lemma fill_provenance text anonymizedEntities l : forall acc key e,
  In (key, e) (fold_left (add_entity text anonymizedEntities) l acc) ->
  In (key, e) acc
  \/ exists r,
       In r l /\ is_fragment text r = false /\ key = key_of_span r
       /\ e = recorded_entity text anonymizedEntities r.
Proof.
  induction l as [| r l IH]; intros acc key e Hin; [now left |].
  cbn [fold_left] in Hin. apply IH in Hin as [Hin | (r' & Hr' & H)].
  - rewrite add_entity_eq in Hin.
    destruct (is_fragment text r) eqn:Hfragment; [now left |].
    apply In_set in Hin as [[-> ->] | Hin]; [| now left].
    right. exists r. repeat split; [now left | assumption].
  - right. exists r'. split; [now right | exact H].
Qed.

Lemma fill_keeps_keys text anonymizedEntities l : forall acc key,
  JS.has key acc = true ->
  JS.has key (fold_left (add_entity text anonymizedEntities) l acc) = true.
Proof.
  induction l as [| r l IH]; intros acc key Hhas; [exact Hhas |].
  cbn [fold_left]. apply IH. rewrite add_entity_eq.
  destruct (is_fragment text r); [exact Hhas |].
  rewrite has_set, Hhas. apply orb_true_r.
Qed.

Lemma fill_adds text anonymizedEntities l : forall acc r,
  In r l -> is_fragment text r = false ->
  JS.has (key_of_span r)
    (fold_left (add_entity text anonymizedEntities) l acc) = true.
Proof.
  induction l as [| r0 l IH]; intros acc r Hin Hfragment; [destruct Hin |].
  destruct Hin as [-> | Hin].
  - cbn [fold_left]. apply fill_keeps_keys.
    rewrite add_entity_eq, Hfragment, has_set, String.eqb_refl. reflexivity.
  - cbn [fold_left]. now apply IH.
Qed.

Lemma before_reduction_provenance text items results key e :
  In (key, e) (before_reduction text items results) ->
  exists r,
    In r results /\ is_fragment text r = false /\ key = key_of_span r
    /\ e = recorded_entity text (anonymized_entities items) r.
Proof.
  unfold before_reduction, fill_entity_map. intros Hin.
  apply fill_provenance in Hin as [[] | (r & Hr & H)].
  exists r. split; [| exact H].
  unfold JS.values in Hr. apply in_map_iff in Hr as ([k rep] & <- & Hin).
  now apply (normalized_sub results k rep).
Qed.

Lemma findBestMatch_keeps text c table key e :
  In (key, e) table -> JS.startsWith key (c ++ "-") = false ->
  In (key, e) (findBestMatch text c table).
Proof.
  intros Hin Hprefix.
  destruct (findBestMatch_cases text c table)
    as [-> | (w & _ & _ & _ & ->)]; [exact Hin |].
  apply In_set_other.
  - intros ->. now rewrite best_key_prefix in Hprefix.
  - now apply In_clear_type.
Qed.

Lemma key_of_other_type c r :
  free_of "-" c = true -> free_of "-" (ar_entity_type r) = true ->
  ar_entity_type r <> c ->
  JS.startsWith (key_of_span r) (c ++ "-") = false.
Proof.
  intros Hc Hr Hne.
  destruct (JS.startsWith (key_of_span r) (c ++ "-")) eqn:E; [| reflexivity].
  unfold JS.startsWith in E. apply prefix_split in E as [t Ht].
  unfold key_of_span, entity_key in Ht.
  change ((c ++ "-") ++ t) with ((c ++ String "-" "") ++ t) in Ht.
  rewrite append_assoc in Ht. cbn [append] in Ht.
  now apply dash_decides in Ht.
Qed.

Lemma recorded_entity_same text anonymizedEntities r r' :
  same_detection r r' ->
  recorded_entity text anonymizedEntities r
  = recorded_entity text anonymizedEntities r'.
Proof.
  intros (Htype & Hstart & Hend). unfold recorded_entity.
  now rewrite Htype, Hstart, Hend.
Qed.

Lemma same_key_same_detection results r r' :
  (forall x, In x results -> free_of "-" (ar_entity_type x) = true) ->
  In r results -> In r' results ->
  key_of_span r = key_of_span r' -> same_detection r r'.
Proof.
  intros Hfree Hr Hr' Hkey. unfold key_of_span in Hkey.
  apply entity_key_type in Hkey as Htype; auto.
  rewrite Htype in Hkey. apply entity_key_position in Hkey.
  now split.
Qed.

(** A span that is no fragment is in the entity map when the construction
    loop ends. *)
Lemma span_in_before text items results r :
  (forall x, In x results -> free_of "-" (ar_entity_type x) = true) ->
  In r results -> is_fragment text r = false ->
  In (key_of_span r, recorded_entity text (anonymized_entities items) r)
    (before_reduction text items results).
Proof.
  intros Hfree Hr Hfragment.
  destruct (normalized_covers results r Hr) as [rep Hrep].
  apply get_Some_In in Hrep as Hin.
  apply normalized_sub in Hin as [Hrep_in Hkey].
  assert (Hsame : same_detection r rep)
    by now apply (same_key_same_detection results).
  assert (Hfragment' : is_fragment text rep = false).
  { unfold is_fragment in *. destruct Hsame as (Htype & Hstart & Hend).
    now rewrite <- Htype, <- Hstart, <- Hend. }
  assert (Hhas : JS.has (key_of_span rep)
                   (before_reduction text items results) = true).
  { unfold before_reduction, fill_entity_map. apply fill_adds;
      [| exact Hfragment'].
    unfold JS.values. apply in_map_iff. exists (key_of_span r, rep).
    split; [reflexivity |]. now apply get_Some_In. }
  unfold JS.has in Hhas. rewrite <- Hkey in Hhas.
  destruct (JS.get (key_of_span r) (before_reduction text items results))
    as [e |] eqn:Hget; [| discriminate].
  apply get_Some_In in Hget as Hin.
  apply before_reduction_provenance in Hin as (r2 & Hr2 & _ & Hkey2 & ->).
  rewrite (recorded_entity_same _ _ r r2);
    [now apply get_Some_In |].
  now apply (same_key_same_detection results).
Qed.

Lemma span_recorded text items results r :
  items <> [] ->
  (forall x, In x results -> free_of "-" (ar_entity_type x) = true) ->
  In r results ->
  ar_entity_type r <> "PERSON" -> ar_entity_type r <> "PHONE_NUMBER" ->
  JS.get (key_of_span r) (buildEntityMapping text items results [])
  = Some (recorded_entity text (anonymized_entities items) r).
Proof.
  intros Hitems Hfree Hr Hperson Hphone.
  rewrite buildEntityMapping_unfold.
  destruct items as [| it items]; [congruence |].
  destruct (before_reduction_invariant text (it :: items) results)
    as (Hnd & _ & _).
  assert (Hfragment : is_fragment text r = false).
  { unfold is_fragment. apply String.eqb_neq in Hperson.
    now rewrite Hperson. }
  pose proof (span_in_before text (it :: items) results r Hfree Hr Hfragment)
    as Hbefore.
  apply In_get.
  - now apply findBestMatch_NoDup, findBestMatch_NoDup.
  - apply findBestMatch_keeps;
      [| apply key_of_other_type; auto].
    apply findBestMatch_keeps;
      [exact Hbefore | apply key_of_other_type; auto].
Qed.

(** A detected span of a category that is not reduced is recorded under
    its positional key, with its slice of the text, as long as no category
    name contains a dash. *)
Theorem detected_span_is_recorded text items results r :
  items <> [] ->
  (forall x, In x results -> free_of "-" (ar_entity_type x) = true) ->
  In r results ->
  ar_entity_type r <> "PERSON" -> ar_entity_type r <> "PHONE_NUMBER" ->
  JS.get (key_of_span r) (buildEntityMapping text items results [])
  = Some (recorded_entity text (anonymized_entities items) r).
Proof.
  intros Hitems Hfree Hr Hperson Hphone.
  assert (Hfragment : is_fragment text r = false).
  { unfold is_fragment. apply String.eqb_neq in Hperson.
    now rewrite Hperson. }
  pose proof (span_in_before text items results r Hfree Hr Hfragment)
    as Hbefore.
  destruct (before_reduction_invariant text items results) as (Hnd & _ & _).
  rewrite buildEntityMapping_unfold.
  destruct items as [| it items]; [congruence |].
  apply In_get; [now apply findBestMatch_NoDup, findBestMatch_NoDup |].
  apply findBestMatch_keeps; [| apply key_of_other_type; auto].
  apply findBestMatch_keeps; [exact Hbefore |].
  apply key_of_other_type; auto.
Qed.

Lemma detected_span_is_recorded_witness :
  JS.get "LOCATION-14-18"
    (buildEntityMapping two_cities_text two_cities_items two_cities_results [])
  = Some (mkEntity "Rome" "[LOCATION]" "LOCATION" 14 18).
Proof.
  apply (detected_span_is_recorded two_cities_text two_cities_items
           two_cities_results (mkAnalyzerResult "LOCATION" 14 18 (85 # 100))).
  - discriminate.
  - intros x [<- | [<- | []]]; reflexivity.
  - right. left. reflexivity.
  - discriminate.
  - discriminate.
Defined.

Lemma buildEntityMapping_provenance text items results key e :
  In (key, e) (buildEntityMapping text items results []) ->
  exists r,
    In r results /\ is_fragment text r = false
    /\ e = recorded_entity text (anonymized_entities items) r.
Proof.
  rewrite buildEntityMapping_unfold.
  destruct items as [| it items]; [intros [] |].
  intros Hin.
  apply findBestMatch_values in Hin as [key1 Hin].
  apply findBestMatch_values in Hin as [key2 Hin].
  apply before_reduction_provenance in Hin as (r & Hr & Hfragment & _ & He).
  now exists r.
Qed.

(** Every entity [getSensitiveEntities] lists after [anonymizeText] comes
    from a span the analyzer reported for this text: it has the type, start
    and end of that span, its original value is the slice of the text at
    the span, and the span is no PERSON shorter than three characters. *)
Theorem listed_entities_come_from_detections env text table0 e :
  In e (getSensitiveEntities (fst (anonymizeText env text table0))) ->
  exists results data r,
    analyze_request env text = Resolved (Some results)
    /\ anonymize_request env text results = Resolved data
    /\ In r results /\ is_fragment text r = false
    /\ e = recorded_entity text
             (anonymized_entities (items_or_empty data)) r.
Proof.
  unfold getSensitiveEntities.
  destruct (analyze_request env text) as [[[| r rs] |] | message] eqn:Hanalyze.
  - erewrite anonymizeText_no_detection; eauto. intros [].
  - destruct (anonymize_request env text (r :: rs)) as [data | message]
      eqn:Hanonymize.
    + rewrite (anonymizeText_resolved _ _ _ _ _ _ Hanalyze Hanonymize).
      cbn [fst]. unfold JS.values. intros Hin.
      apply in_map_iff in Hin as ([key e'] & <- & Hin).
      apply buildEntityMapping_provenance in Hin as (r0 & Hr0 & Hfragment & He).
      exists (r :: rs), data, r0. auto.
    + rewrite (anonymizeText_anonymizer_rejected _ _ _ _ _ _
                 Hanalyze Hanonymize). intros [].
  - erewrite anonymizeText_no_detection; eauto. intros [].
  - rewrite (anonymizeText_analyzer_rejected _ _ _ _ Hanalyze). intros [].
Qed.

Lemma listed_entities_come_from_detections_witness :
  exists results data r,
    analyze_request (scenario_env 50 65) scenario_text
    = Resolved (Some results)
    /\ anonymize_request (scenario_env 50 65) scenario_text results
       = Resolved data
    /\ In r results /\ is_fragment scenario_text r = false
    /\ mkEntity "John Doe" "[PERSON]" "PERSON" 18 26
       = recorded_entity scenario_text
           (anonymized_entities (items_or_empty data)) r.
Proof.
  apply (listed_entities_come_from_detections (scenario_env 50 65)
           scenario_text []).
  vm_compute. left. reflexivity.
Defined.

(** ** [anonymizeText] as a whole *)

Lemma empty_map_restores_nothing text : deanonymizeText [] text = text.
Proof. reflexivity. Qed.

(** [anonymizeText] always returns: it never throws, [entitiesFound] tells
    whether the entity map it leaves is non-empty, and when it is [false]
    [getSensitiveEntities] lists nothing and [deanonymizeText] changes no
    text. *)
Theorem anonymizeText_always_returns env text table0 :
  exists table result,
    anonymizeText env text table0 = (table, Return result)
    /\ entitiesFound result = negb (Nat.eqb (JS.size table) 0)
    /\ (entitiesFound result = false ->
        getSensitiveEntities table = []
        /\ forall t, deanonymizeText table t = t).
Proof.
  assert (Hempty : forall result,
            entitiesFound result = false ->
            entitiesFound result = negb (Nat.eqb (@JS.size SensitiveEntity []) 0)
            /\ (entitiesFound result = false ->
                getSensitiveEntities [] = []
                /\ forall t, deanonymizeText [] t = t)).
  { intros result ->. split; [reflexivity |]. intros _. now split. }
  destruct (analyze_request env text) as [[[| r rs] |] | message] eqn:Hanalyze.
  - exists [], (mkResult text false). split; [| now apply Hempty].
    eapply anonymizeText_no_detection; eauto.
  - destruct (anonymize_request env text (r :: rs)) as [data | message]
      eqn:Hanonymize.
    + pose proof (anonymizeText_resolved _ _ table0 _ _ _ Hanalyze Hanonymize)
        as Hrun. cbv zeta in Hrun.
      eexists _, _. split; [exact Hrun |]. cbn [entitiesFound].
      destruct (buildEntityMapping text (items_or_empty data) (r :: rs) [])
        as [| kv table]; [| split; [reflexivity | discriminate]].
      split; [reflexivity |]. intros _. now split.
    + exists [], (mkResult text false). split; [| now apply Hempty].
      now apply (anonymizeText_anonymizer_rejected _ _ _ _ _ _
                   Hanalyze Hanonymize).
  - exists [], (mkResult text false). split; [| now apply Hempty].
    eapply anonymizeText_no_detection; eauto.
  - exists [], (mkResult text false). split; [| now apply Hempty].
    now apply (anonymizeText_analyzer_rejected _ _ _ _ Hanalyze).
Qed.

Lemma anonymizeText_any_table env text table0 table1 :
  anonymizeText env text table0 = anonymizeText env text table1.
Proof.
  destruct (analyze_request env text) as [[[| r rs] |] | message] eqn:Hanalyze.
  - rewrite !(anonymizeText_no_detection _ _ _ _ Hanalyze); auto.
  - destruct (anonymize_request env text (r :: rs)) as [data | message]
      eqn:Hanonymize.
    + now rewrite !(anonymizeText_resolved _ _ _ _ _ _ Hanalyze Hanonymize).
    + now rewrite !(anonymizeText_anonymizer_rejected _ _ _ _ _ _
                      Hanalyze Hanonymize).
  - rewrite !(anonymizeText_no_detection _ _ _ _ Hanalyze); auto.
  - now rewrite !(anonymizeText_analyzer_rejected _ _ _ _ Hanalyze).
Qed.

(** [anonymizeText] forgets the previous mapping, whatever happens next:
    neither its result nor the entity map it leaves depends on the entity
    map it starts from, and a call of [clearEntityMapping] before it makes
    no difference. *)
Theorem anonymizeText_forgets_previous_mapping env text table0 table1 :
  anonymizeText env text table0 = anonymizeText env text table1
  /\ (clearEntityMapping ;;; anonymizeText env text) table0
     = anonymizeText env text table0.
Proof.
  split; [apply anonymizeText_any_table |].
  unfold bind, clearEntityMapping, modify. apply anonymizeText_any_table.
Qed.

(** When the analyzer answers with no data or with no detection, the text
    comes back unchanged with [entitiesFound = false], the entity map is
    empty, and the anonymizer is not asked. *)
Theorem no_detection_passes_text_through env text table0 :
  analyze_request env text = Resolved None
  \/ analyze_request env text = Resolved (Some []) ->
  anonymizeText env text table0 = ([], Return (mkResult text false)).
Proof.
  intros [H | H]; eapply anonymizeText_no_detection; eauto.
Qed.

Lemma no_detection_passes_text_through_witness :
  anonymizeText (constant_env (Resolved (Some [])) (Rejected "not asked"))
    "Nothing to hide" [("PERSON-0-3", last_name)]
  = ([], Return (mkResult "Nothing to hide" false)).
Proof.
  apply no_detection_passes_text_through. right. reflexivity.
Defined.

(** When the anonymizer reports no items, [anonymizeText] returns the
    anonymizer's text with [entitiesFound = false] and leaves the entity
    map empty, whatever the analyzer detected. *)
Theorem no_items_no_entities env text table0 r rs data :
  analyze_request env text = Resolved (Some (r :: rs)) ->
  anonymize_request env text (r :: rs) = Resolved data ->
  data_items data = None \/ data_items data = Some [] ->
  anonymizeText env text table0
  = ([], Return (mkResult (data_text data) false)).
Proof.
  intros Hanalyze Hanonymize Hitems.
  rewrite (anonymizeText_resolved _ _ _ _ _ _ Hanalyze Hanonymize).
  unfold items_or_empty. now destruct Hitems as [-> | ->].
Qed.

Lemma no_items_no_entities_witness :
  anonymizeText
    (constant_env
       (Resolved (Some [ mkAnalyzerResult "PERSON" 5 13 (85 # 100) ]))
       (Resolved (mkData "Call [PERSON]" None)))
    "Call John Doe" []
  = ([], Return (mkResult "Call [PERSON]" false)).
Proof.
  apply (no_items_no_entities _ _ _ (mkAnalyzerResult "PERSON" 5 13 (85 # 100))
           [] (mkData "Call [PERSON]" None));
    [reflexivity | reflexivity | now left].
Defined.

(** ** [deanonymizeText] on its own *)

Lemma replace_scan_absent pat r before s :
  JS.includes s pat = false -> JS.replace_scan pat r before 0 s = s.
Proof.
  intros Habsent.
  rewrite <- (append_empty_r s) at 1.
  rewrite replace_scan_copy; [cbn; apply append_empty_r |].
  intros u v -> Hv. rewrite append_empty_r.
  now apply (includes_false_no_prefix u v).
Qed.

Lemma includes_empty s : JS.includes s "" = true.
Proof. rewrite includes_unfold, prefix_nil. reflexivity. Qed.

Lemma restore_entity_absent text e :
  JS.includes text (anonymized e) = false -> restore_entity text e = text.
Proof.
  intros Habsent. unfold restore_entity.
  rewrite replace_regexp_escaped.
  - now apply replace_scan_absent.
  - intros Hempty. rewrite Hempty, includes_empty in Habsent.
    discriminate Habsent.
Qed.

(** A text in which no placeholder of the entity map occurs is left
    unchanged by [deanonymizeText]. *)
Theorem deanonymizeText_without_placeholders table text :
  (forall e, In e (JS.values table) ->
     JS.includes text (anonymized e) = false) ->
  deanonymizeText table text = text.
Proof.
  intros Habsent. unfold deanonymizeText.
  destruct (JS.size table =? 0)%nat; [reflexivity |].
  assert (Hsorted : forall e,
            In e (JS.sort compare_anonymized (JS.values table)) ->
            JS.includes text (anonymized e) = false).
  { intros e He. apply Habsent.
    now apply (proj1 (In_sort compare_anonymized _ _)). }
  induction (JS.sort compare_anonymized (JS.values table)) as [| e l IH];
    [reflexivity |].
  cbn [fold_left]. rewrite restore_entity_absent by (apply Hsorted; now left).
  apply IH. intros e' He'. apply Hsorted. now right.
Qed.

Lemma deanonymizeText_without_placeholders_witness :
  deanonymizeText
    [("PERSON-18-26", mkEntity "John Doe" "[PERSON]" "PERSON" 18 26)]
    "See you at [PERSONAL] desk"
  = "See you at [PERSONAL] desk".
Proof.
  apply deanonymizeText_without_placeholders.
  intros e [<- | []]. reflexivity.
Defined.



(** Escaping makes every placeholder a literal pattern: the escaped source
    is a sequence of plain characters and escaped syntax characters, and it
    matches the placeholder itself, whatever characters that contains.  So
    one call of [replace] with the escaped source of a non-empty
    placeholder and a replacement without a dollar sign is a literal
    replacement of all its occurrences. *)
Theorem escaped_placeholder_is_literal (placeholder : string) :
  JS.literal_pattern (JS.escapeRegExp placeholder) = Some placeholder
  /\ (placeholder <> "" ->
      forall replacement s,
        free_of "$" replacement = true ->
        JS.replace_regexp (JS.escapeRegExp placeholder) replacement s
        = literal_replace_scan placeholder replacement 0 s).
Proof.
  split.
  - induction placeholder as [| c p IH]; [reflexivity |].
    cbn [JS.escapeRegExp].
    destruct (JS.is_syntax_char c) eqn:Hsyntax; cbn [JS.literal_pattern].
    + change (Ascii.eqb "\" "\") with true. cbv iota.
      now rewrite Hsyntax, IH.
    + destruct (Ascii.eqb c "\") eqn:Hback.
      * apply Ascii.eqb_eq in Hback. subst c. discriminate Hsyntax.
      * now rewrite Hsyntax, IH.
  - intros Hne replacement s Hdollar.
    rewrite replace_regexp_escaped by exact Hne.
    now apply replace_scan_literal.
Qed.

Lemma escaped_placeholder_is_literal_witness :
  JS.replace_regexp (JS.escapeRegExp "[U.S.]") "USA" "a[U.S.]b [UxSx]"
  = literal_replace_scan "[U.S.]" "USA" 0 "a[U.S.]b [UxSx]".
Proof.
  apply (proj2 (escaped_placeholder_is_literal "[U.S.]"));
    [discriminate | reflexivity].
Defined.

Lemma sorted_permutation_unique {A} (R : A -> A -> Prop) (l1 : list A) :
  forall l2,
  (forall x y, In x l1 -> In y l1 -> R x y -> R y x -> x = y) ->
  StronglySorted R l1 -> StronglySorted R l2 -> Permutation l1 l2 ->
  l1 = l2.
Proof.
  induction l1 as [| x l1 IH]; intros l2 Hanti H1 H2 Hperm.
  - apply Permutation_nil in Hperm. now subst.
  - destruct l2 as [| y l2];
      [apply Permutation_sym, Permutation_nil in Hperm; discriminate |].
    inversion H1 as [| ? ? Hs1 Hall1]; subst.
    inversion H2 as [| ? ? Hs2 Hall2]; subst.
    rewrite Forall_forall in Hall1, Hall2.
    assert (Hxy : x = y).
    { assert (Hx : In x (y :: l2))
        by (apply (Permutation_in _ Hperm); now left).
      assert (Hy : In y (x :: l1))
        by (apply (Permutation_in _ (Permutation_sym Hperm)); now left).
      destruct Hx as [Hx | Hx]; [now symmetry |].
      destruct Hy as [Hy | Hy]; [exact Hy |].
      apply Hanti; [now left | now right | now apply Hall1 | now apply Hall2]. }
    subst y. f_equal. apply IH; auto.
    + intros a b Ha Hb. apply Hanti; now right.
    + now apply Permutation_cons_inv in Hperm.
Qed.

Lemma NoDup_map_eq {A B} (f : A -> B) (l : list A) x y :
  NoDup (List.map f l) -> In x l -> In y l -> f x = f y -> x = y.
Proof.
  induction l as [| a l IH]; [intros _ [] |].
  cbn [List.map]. intros Hnd Hx Hy Heq.
  inversion Hnd as [| ? ? Hnotin Hnd']; subst.
  destruct Hx as [-> | Hx], Hy as [-> | Hy]; auto.
  - exfalso. apply Hnotin. rewrite Heq. now apply in_map.
  - exfalso. apply Hnotin. rewrite <- Heq. now apply in_map.
Qed.

(** When no two placeholders of the entity map have the same length, the
    restoration does not depend on the order in which the entities were
    inserted. *)
Theorem deanonymizeText_order_independent table1 table2 text :
  Permutation (JS.values table1) (JS.values table2) ->
  NoDup (List.map (fun e => strlen (anonymized e)) (JS.values table1)) ->
  deanonymizeText table1 text = deanonymizeText table2 text.
Proof.
  intros Hperm Hdistinct. unfold deanonymizeText.
  assert (Hsize : JS.size table1 = JS.size table2).
  { apply Permutation_length in Hperm. unfold JS.values in Hperm.
    now rewrite !length_map in Hperm. }
  rewrite Hsize. destruct (JS.size table2 =? 0)%nat; [reflexivity |].
  f_equal.
  apply (sorted_permutation_unique (not_after compare_anonymized)).
  - intros x y Hx Hy Hxy Hyx.
    apply (proj1 (In_sort compare_anonymized _ _)) in Hx, Hy.
    apply (NoDup_map_eq (fun e => strlen (anonymized e)) (JS.values table1));
      [exact Hdistinct | exact Hx | exact Hy |].
    unfold not_after, compare_anonymized in Hxy, Hyx. cbv beta. lia.
  - exact (sort_sorted _ compare_anonymized_total compare_anonymized_trans _).
  - exact (sort_sorted _ compare_anonymized_total compare_anonymized_trans _).
  - rewrite !sort_perm. exact Hperm.
Qed.

Lemma deanonymizeText_order_independent_witness :
  deanonymizeText
    [ ("PERSON-18-26", mkEntity "John Doe" "[PERSON]" "PERSON" 18 26);
      ("PHONE_NUMBER-50-65",
       mkEntity "+1 555-123-4567" "[PHONE]" "PHONE_NUMBER" 50 65) ]
    scenario_anonymized
  = deanonymizeText
      [ ("PHONE_NUMBER-50-65",
         mkEntity "+1 555-123-4567" "[PHONE]" "PHONE_NUMBER" 50 65);
        ("PERSON-18-26", mkEntity "John Doe" "[PERSON]" "PERSON" 18 26) ]
      scenario_anonymized.
Proof.
  apply deanonymizeText_order_independent.
  - apply perm_swap.
  - vm_compute. repeat constructor; cbn; intuition discriminate.
Defined.

(** ** [findBestMatch] once more *)

(** The first element of a sorted array is the first of the elements that
    no other element has to precede. *)
Lemma sort_head_first {A} (cmp : A -> A -> Z) (l : list A) : forall w rest,
  JS.sort cmp l = w :: rest ->
  exists pre post,
    l = (pre ++ w :: post)%list
    /\ forall x, In x pre -> ~ not_after cmp x w.
Proof.
  induction l as [| x l IH]; intros w rest Hsort; [discriminate |].
  cbn [JS.sort] in Hsort.
  destruct (JS.sort cmp l) as [| w' rest'] eqn:Hl.
  - apply (f_equal (@List.length _)) in Hl. rewrite length_sort in Hl.
    destruct l; [| discriminate].
    cbn in Hsort. injection Hsort as <- _.
    exists [], []. split; [reflexivity | intros y []].
  - cbn [JS.insert] in Hsort.
    destruct (cmp x w' <=? 0) eqn:Hcmp.
    + injection Hsort as <- _.
      exists [], l. split; [reflexivity | intros y []].
    + injection Hsort as <- _.
      destruct (IH w' rest' eq_refl) as (pre & post & -> & Hpre).
      exists (x :: pre), post. split; [reflexivity |].
      intros y [<- | Hy]; [| now apply Hpre].
      unfold not_after. apply Z.leb_gt in Hcmp. lia.
Qed.

(** Ties go to the entity inserted first: every PHONE_NUMBER (PERSON)
    entity that stands before the selected one in the entity map is
    strictly less preferred than it. *)
Theorem best_match_is_first_among_equals :
  (forall text table,
     (1 < List.length (entities_of_type "PHONE_NUMBER" table))%nat ->
     exists w pre post,
       entities_of_type "PHONE_NUMBER" table = (pre ++ w :: post)%list
       /\ JS.get "PHONE_NUMBER-best" (findBestMatch text "PHONE_NUMBER" table)
          = Some w
       /\ forall x, In x pre -> ~ preferred has_plus x w)
  /\
  (forall text table,
     (1 < List.length (entities_of_type "PERSON" table))%nat ->
     exists w pre post,
       entities_of_type "PERSON" table = (pre ++ w :: post)%list
       /\ JS.get "PERSON-best" (findBestMatch text "PERSON" table) = Some w
       /\ forall x, In x pre -> ~ preferred has_space x w).
Proof.
  split; intros text table Hmany.
  - destruct (findBestMatch_phone text table Hmany) as (w & rest & Hsort & ->).
    rewrite compare_phone_preferring in Hsort.
    destruct (sort_head_first _ _ _ _ Hsort) as (pre & post & Hsplit & Hpre).
    exists w, pre, post. split; [exact Hsplit |].
    split; [apply get_set_same |].
    intros x Hx Hpreferred. apply (Hpre x Hx).
    now apply compare_preferring_not_after.
  - destruct (findBestMatch_person text table Hmany) as (w & rest & Hsort & ->).
    rewrite compare_person_preferring in Hsort.
    destruct (sort_head_first _ _ _ _ Hsort) as (pre & post & Hsplit & Hpre).
    exists w, pre, post. split; [exact Hsplit |].
    split; [apply get_set_same |].
    intros x Hx Hpreferred. apply (Hpre x Hx).
    now apply compare_preferring_not_after.
Qed.

Lemma best_match_is_first_among_equals_witness :
  exists w pre post,
    entities_of_type "PERSON"
      (before_reduction two_persons_text
         [ mkItem "PERSON" (Some "[PERSON]") ] two_persons_results)
    = (pre ++ w :: post)%list
    /\ JS.get "PERSON-best"
         (findBestMatch two_persons_text "PERSON"
            (before_reduction two_persons_text
               [ mkItem "PERSON" (Some "[PERSON]") ] two_persons_results))
       = Some w
    /\ forall x, In x pre -> ~ preferred has_space x w.
Proof.
  apply (proj2 best_match_is_first_among_equals). vm_compute. lia.
Defined.

(** A second reduction of the same category changes nothing. *)
Theorem findBestMatch_idempotent text c table :
  well_keyed table ->
  findBestMatch text c (findBestMatch text c table)
  = findBestMatch text c table.
Proof.
  intros Hkeyed.
  destruct (findBestMatch_cases text c table)
    as [Hsame | (w & Hin & _ & _ & Hreduced)].
  - now rewrite !Hsame.
  - rewrite Hreduced. apply findBestMatch_few.
    rewrite reduced_entities; [simpl; lia | exact Hkeyed |].
    now apply entities_of_type_all in Hin.
Qed.

Lemma findBestMatch_idempotent_witness :
  findBestMatch "Doe, or John Doe" "PERSON"
    (findBestMatch "Doe, or John Doe" "PERSON" persons_table)
  = findBestMatch "Doe, or John Doe" "PERSON" persons_table.
Proof.
  apply findBestMatch_idempotent.
  intros key e Hin. vm_compute in Hin.
  destruct Hin as [[= <- <-] | [[= <- <-] | []]]; reflexivity.
Defined.

(** ** The configuration and the [switch] *)

(** The two tables of the service agree: a category the [switch] names is
    replaced by the same placeholder in the anonymizer configuration, and
    an item that carries the literal configured for its category gets that
    literal as its anonymized value. *)
Theorem switch_agrees_with_configuration :
  (forall category placeholder,
     static_placeholder category = Some placeholder ->
     literal_placeholder category = Some placeholder)
  /\
  (forall it new_value,
     literal_placeholder (item_entity_type it) = Some new_value ->
     item_text it = Some new_value ->
     placeholder_of_item it = new_value).
Proof.
  split.
  - intros c p. unfold static_placeholder.
    repeat match goal with
           | |- context [String.eqb c ?k] =>
               destruct (String.eqb_spec c k) as [-> | _];
               [ intros [= <-]; reflexivity | ]
           end.
    discriminate.
  - intros it v Hliteral Htext.
    assert (Hcategory : In (item_entity_type it) literal_categories).
    { apply literal_placeholder_categories. congruence. }
    destruct (literal_category_facts _ Hcategory) as (_ & _ & Hitem).
    rewrite (Hitem it eq_refl) by congruence.
    unfold configured_placeholder. now rewrite Hliteral.
Qed.

Lemma switch_agrees_with_configuration_witness :
  literal_placeholder "PHONE_NUMBER" = Some "[PHONE]"
  /\ placeholder_of_item (mkItem "URL" (Some "[URL]")) = "[URL]".
Proof.
  split.
  - apply (proj1 switch_agrees_with_configuration). reflexivity.
  - apply (proj2 switch_agrees_with_configuration); reflexivity.
Defined.

(** ** The round trip with repeated values *)

Lemma findBestMatch_keeps_a_type text c' c table :
  well_keyed table ->
  c' = c \/ (c' = "PERSON" /\ c = "PHONE_NUMBER")
  \/ (c' = "PHONE_NUMBER" /\ c = "PERSON") ->
  entities_of_type c table <> [] ->
  entities_of_type c (findBestMatch text c' table) <> [].
Proof.
  intros Hkeyed [-> | [[-> ->] | [-> ->]]] Hne.
  - destruct (findBestMatch_cases text c table)
      as [-> | (w & Hin & _ & _ & ->)]; [exact Hne |].
    rewrite reduced_entities; [discriminate | exact Hkeyed |].
    now apply entities_of_type_all in Hin.
  - destruct (findBestMatch_other_type text "PERSON" "PHONE_NUMBER" table)
      as [-> _]; auto using phone_key_not_person. discriminate.
  - destruct (findBestMatch_other_type text "PHONE_NUMBER" "PERSON" table)
      as [-> _]; auto using person_key_not_phone. discriminate.
Qed.

Lemma restorable_not_fragment text span :
  restorable_span text span = true -> is_fragment text span = false.
Proof.
  intros H. apply restorable_span_facts in H as (_ & _ & Hlong & _).
  unfold is_fragment.
  destruct (String.eqb_spec (ar_entity_type span) "PERSON") as [Hp | Hp];
    [| reflexivity].
  cbn [andb]. apply Z.ltb_ge. now apply Hlong.
Qed.

Section RestorableSpans.
Variables (text : string) (items : list AnonymizerItem)
  (spans : list AnalyzerResult).
Hypothesis Hspans : forall span, In span spans ->
  restorable_span text span = true.
Hypothesis Hitems : items_as_configured spans items = true.

Lemma restorable_dash_free x :
  In x spans -> free_of "-" (ar_entity_type x) = true.
Proof.
  intros Hx. apply Hspans, restorable_span_facts in Hx as [Hx _].
  now apply literal_category_facts in Hx.
Qed.

Lemma restorable_value span :
  In span spans ->
  anonymized_value (anonymized_entities items) (ar_entity_type span)
  = configured_placeholder (ar_entity_type span).
Proof.
  intros Hin. apply andb_true_iff in Hitems as [Hcover Hconfigured].
  rewrite forallb_forall in Hcover, Hconfigured.
  apply anonymized_value_literal; [| | exact Hconfigured].
  - now apply Hspans, restorable_span_facts in Hin as [Hin _].
  - specialize (Hcover span Hin).
    apply existsb_exists in Hcover as (it & Hit & Heq).
    apply String.eqb_eq in Heq. eauto.
Qed.

(** Every entity of the map stands for a restorable span. *)
Lemma restorable_entities key e :
  In (key, e) (buildEntityMapping text items spans []) ->
  exists span,
    In span spans /\ entityType e = ar_entity_type span
    /\ anonymized e = configured_placeholder (ar_entity_type span)
    /\ original e = JS.substring text (ar_start span) (ar_end span).
Proof.
  intros Hin.
  apply buildEntityMapping_provenance in Hin as (span & Hspan & _ & ->).
  exists span. cbn [recorded_entity entityType anonymized original].
  repeat split; [exact Hspan | now apply restorable_value].
Qed.

(** Every placeholder of a span has an entity in the map. *)
Lemma restorable_covered span :
  items <> [] -> In span spans ->
  exists e,
    In e (JS.values (buildEntityMapping text items spans []))
    /\ anonymized e = configured_placeholder (ar_entity_type span).
Proof.
  intros Hne Hin.
  pose proof (span_in_before text items spans span restorable_dash_free Hin
                (restorable_not_fragment _ _ (Hspans span Hin))) as Hbefore.
  destruct (before_reduction_invariant text items spans) as (_ & Hkeyed & _).
  assert (Hreduced : forall c,
            c = "PERSON" \/ c = "PHONE_NUMBER" ->
            ar_entity_type span = c ->
            exists e,
              In e (JS.values (buildEntityMapping text items spans []))
              /\ anonymized e = configured_placeholder (ar_entity_type span)).
  { intros c Hc Htype.
    assert (Hsome : entities_of_type c
                      (buildEntityMapping text items spans []) <> []).
    { rewrite buildEntityMapping_unfold.
      destruct items as [| it its]; [congruence |].
      apply findBestMatch_keeps_a_type;
        [now apply findBestMatch_well_keyed | intuition |].
      apply findBestMatch_keeps_a_type; [exact Hkeyed | intuition |].
      intros Hnil.
      assert (Hmember : In (recorded_entity text
                              (anonymized_entities (it :: its)) span)
                          (entities_of_type c
                             (before_reduction text (it :: its) spans))).
      { apply In_entities_of_type. split; [eauto | exact Htype]. }
      rewrite Hnil in Hmember. destruct Hmember. }
    destruct (entities_of_type c (buildEntityMapping text items spans []))
      as [| e rest] eqn:Hentities; [congruence |].
    assert (He : In e (entities_of_type c
                         (buildEntityMapping text items spans [])))
      by (rewrite Hentities; now left).
    apply In_entities_of_type in He as [[key He] Hec].
    exists e. split.
    - unfold JS.values. apply in_map_iff. now exists (key, e).
    - apply restorable_entities in He as (span' & _ & Htype' & -> & _).
      now rewrite <- Htype', Hec, <- Htype. }
  destruct (String.eqb_spec (ar_entity_type span) "PERSON") as [Hp | Hp];
    [now apply (Hreduced "PERSON"); auto |].
  destruct (String.eqb_spec (ar_entity_type span) "PHONE_NUMBER") as [Hn | Hn];
    [now apply (Hreduced "PHONE_NUMBER"); auto |].
  exists (recorded_entity text (anonymized_entities items) span). split.
  - unfold JS.values. apply in_map_iff.
    exists (key_of_span span,
            recorded_entity text (anonymized_entities items) span).
    split; [reflexivity |]. apply get_Some_In.
    now apply span_recorded; auto using restorable_dash_free.
  - now apply restorable_value.
Qed.
End RestorableSpans.

(** The round trip holds with repeated values as well: when the spans that
    share a placeholder all have the same original value, the other
    conditions being those of the round trip with distinct placeholders,
    [deanonymizeText] gives the input of [anonymizeText] back. *)
Theorem round_trip_repeated_values env text table0 spans ordered items :
  Permutation ordered spans ->
  spans_ordered 0 ordered (strlen text) ->
  repeats_agree text spans ->
  forallb (restorable_span text) spans = true ->
  items_as_configured spans items = true ->
  analyze_request env text = Resolved (Some spans) ->
  anonymize_request env text spans
  = Resolved (mkData (substitute_spans text 0 ordered) (Some items)) ->
  exists table,
    anonymizeText env text table0
    = (table,
       Return
         (mkResult (substitute_spans text 0 ordered)
            (negb (Nat.eqb (List.length spans) 0))))
    /\ deanonymizeText table (substitute_spans text 0 ordered) = text.
Proof.
  intros Hperm Hordered Hagree Hspans Hitems Hanalyze Hanonymize.
  rewrite forallb_forall in Hspans.
  destruct spans as [| r rs] eqn:Hspans_eq.
  { apply Permutation_sym, Permutation_nil in Hperm. subst ordered.
    exists []. cbn [substitute_spans]. rewrite substring_to_end.
    split; [| reflexivity].
    eapply anonymizeText_no_detection; eauto. }
  rewrite <- Hspans_eq in Hperm, Hagree, Hspans, Hitems.
  assert (Hne : items <> []).
  { intros ->. apply andb_true_iff in Hitems as [Hcover _].
    rewrite forallb_forall in Hcover.
    assert (Hr : In r spans) by (rewrite Hspans_eq; now left).
    specialize (Hcover r Hr). discriminate Hcover. }
  pose proof (anonymizeText_resolved env text table0 r rs _
                Hanalyze Hanonymize) as Hrun.
  cbv zeta in Hrun. cbn [items_or_empty data_items data_text] in Hrun.
  rewrite <- Hspans_eq in Hrun.
  set (table := buildEntityMapping text items spans []) in *.
  assert (Hsome : JS.size table <> 0%nat).
  { assert (Hr : In r spans) by (rewrite Hspans_eq; now left).
    destruct (restorable_covered text items spans Hspans Hitems r Hne Hr)
      as (e & He & _).
    fold table in He. unfold JS.values, JS.size in *.
    destruct table; [destruct He | discriminate]. }
  exists table. split.
  { rewrite Hrun. f_equal. f_equal. f_equal.
    destruct (JS.size table); [congruence | reflexivity]. }
  unfold deanonymizeText.
  apply Nat.eqb_neq in Hsome. rewrite Hsome.
  rewrite <- anonymized_of_chunks.
  assert (Horiginal : original_of (chunks_of text 0 ordered) = text).
  { rewrite original_of_chunks by (lia || exact Hordered).
    apply substring_to_end. }
  transitivity (original_of (chunks_of text 0 ordered)); [| exact Horiginal].
  apply restore_entities.
  - intros e He. apply (proj1 (In_sort compare_anonymized _ _)) in He.
    unfold JS.values in He. apply in_map_iff in He as ([key e'] & <- & Hin).
    apply (restorable_entities text items spans Hspans Hitems) in Hin
      as (span & Hspan & _ & Hanon & Horig).
    cbn [snd]. rewrite Hanon, Horig, Horiginal.
    destruct (restorable_span_facts text span (Hspans span Hspan))
      as (Hliteral & Hfresh & _ & Hdollar).
    split; [now apply literal_category_facts in Hliteral |].
    split; assumption.
  - intros q o Hheld. rewrite held_placeholders_chunks in Hheld.
    apply in_map_iff in Hheld as (span & [= <- <-] & Hin).
    apply (Permutation_in _ Hperm) in Hin.
    destruct (restorable_span_facts text span (Hspans span Hin))
      as (Hliteral & _).
    split; [now apply literal_category_facts in Hliteral |].
    split.
    + intros e He Hsame. apply (proj1 (In_sort compare_anonymized _ _)) in He.
      unfold JS.values in He. apply in_map_iff in He as ([key e'] & <- & He).
      apply (restorable_entities text items spans Hspans Hitems) in He
        as (span' & Hspan' & _ & Hanon & Horig).
      cbn [snd] in *. rewrite Horig. apply Hagree; auto. congruence.
    + destruct (restorable_covered text items spans Hspans Hitems span Hne Hin)
        as (e & He & Hanon).
      exists e. split; [| exact Hanon].
      now apply (proj2 (In_sort compare_anonymized _ _)).
Qed.

Lemma round_trip_repeated_values_witness :
  exists table,
    anonymizeText same_person_env same_person_text []
    = (table,
       Return
         (mkResult (substitute_spans same_person_text 0 same_person_results)
            true))
    /\ deanonymizeText table
         (substitute_spans same_person_text 0 same_person_results)
       = same_person_text.
Proof.
  apply (round_trip_repeated_values same_person_env same_person_text []
           same_person_results same_person_results
           [ mkItem "PERSON" (Some "[PERSON]");
             mkItem "PERSON" (Some "[PERSON]") ]).
  - apply Permutation_refl.
  - cbn. lia.
  - intros a b [<- | [<- | []]] [<- | [<- | []]] _; reflexivity.
  - vm_compute. reflexivity.
  - vm_compute. reflexivity.
  - reflexivity.
  - reflexivity.
Defined.
